(** * Freqs: word frequencies of a UTF-8 text file

    A shallow embedding of [Freqs/freqs.cpp] and the properties of its
    pipeline: the UTF-8 decoder ([namespace encoding]), the alphabet
    classifier and case folder, the word segmenter, the frequency
    aggregator ([registerWord]) and the ranker/writer of [Main].

    Conventions of the embedding.
    - A [uint8_t] is a [Byte.byte]; [u8] gives its value.
    - A [uint32_t] is a [Z] in [0, 2^32); the places where the source
      computes modulo [2^32] carry an explicit [mod].
    - [size_t] has 64 bits and [int] has 32. A [size_t] that counts
      ([WordInfo::entries]) is a [Z] modulo [2^64]. A [size_t] that
      indexes a vector or the buffer is a [nat]: a vector never holds
      [2^64] elements, so in-range index arithmetic is exact. The [int]
      in which the segmenter keeps the start of the open word is a [Z],
      and the conversions between it and [size_t] are written out.
    - An out-parameter or a local that the source leaves uninitialised is
      a cell of type [option _], [None] standing for "no value assigned".
      Reading such a cell is undefined in C++; the embedding returns
      [Indeterminate] at the first such read. The compiled program reads
      whatever the memory of the cell holds: the definitions named
      [_holding] are the same functions with a value in every such cell.
    - Nothing in the program catches an exception. [Throws] is the
      outcome of a call that an exception leaves; the process then ends
      in [std::terminate], without an exit status of [main]. *)

From Stdlib.Strings Require Import Byte String Ascii.
From Stdlib Require Import DecimalString.
From Stdlib Require Import ZArith List Lia Bool Arith Permutation Sorted.
Import ListNotations.

Local Open Scope Z_scope.

(** ** Outcomes of a run *)

Inductive run (A : Type) : Type :=
| Returns (a : A)
| Indeterminate
| OutOfFuel
| Throws.

Arguments Returns {A} a.
Arguments Indeterminate {A}.
Arguments OutOfFuel {A}.
Arguments Throws {A}.

Definition u8 (b : byte) : Z := Z.of_N (Byte.to_N b).

Definition uint32_wrap (z : Z) : Z := z mod 2 ^ 32.
Definition size_t_wrap (z : Z) : Z := z mod 2 ^ 64.

Module encoding.

(** The [while(byteIndex > 1)] loop of [InterpretFirstUtfByte]; the [int]
    loop variable only takes the values 5, 4, 3, 2, 1. *)
Fixpoint InterpretFirstUtfByte_scan (byte : byte) (byteIndex : nat)
    (bytesCount : option nat) (letter : option Z)
  : bool * (option nat * option Z) :=
  match byteIndex with
  | S (S _ as byteIndex') =>
      if Z.land (u8 byte) (Z.shiftl 1 (Z.of_nat byteIndex)) =? 0
      then (true,
            (Some (7 - byteIndex)%nat,
             Some (Z.land (u8 byte)
                          (Z.shiftr 255 (8 - Z.of_nat byteIndex)))))
      else InterpretFirstUtfByte_scan byte byteIndex' bytesCount letter
  | _ => (true, (bytesCount, letter))
  end.

(** [bool InterpretFirstUtfByte(uint8_t byte, size_t* bytesCount,
    uint32_t* letter)]: the result and the two cells after the call. *)
Definition InterpretFirstUtfByte (byte : byte)
    (bytesCount : option nat) (letter : option Z)
  : bool * (option nat * option Z) :=
  if Z.land (u8 byte) 128 =? 0
  then (true, (Some 1%nat, Some (u8 byte)))
  else if Z.land (u8 byte) 128 =? 0
  then (false, (bytesCount, letter))
  else InterpretFirstUtfByte_scan byte 5 bytesCount letter.

(** [bool InterpretNextUtfByte(uint32_t* letter, uint8_t byte)]. The
    cell is read only on the path that accepts the byte. *)
Definition InterpretNextUtfByte (letter : option Z) (byte : byte)
  : run (bool * option Z) :=
  if (Z.land (u8 byte) 128 =? 0) || negb (Z.land (u8 byte) 64 =? 0)
  then Returns (false, letter)
  else match letter with
       | None => Indeterminate
       | Some l =>
           Returns (true,
                    Some (Z.lor (uint32_wrap (Z.shiftl l 6))
                                (Z.land (u8 byte) (Z.shiftr 255 2))))
       end.

(** The [while(bytesCount-- > 1)] loop of [ReadUtfLetter] followed by the
    final increment of [startIndex]. The result is the returned flag
    with the cells behind [startIndex] and [letter]. *)
Fixpoint ReadUtfLetter_loop (buffer : list byte) (bytesCount : nat)
    (startIndex : nat) (letter : option Z)
  : run (bool * (nat * option Z)) :=
  match bytesCount with
  | S (S _ as bytesCount') =>
      let startIndex := S startIndex in
      if (length buffer <=? startIndex)%nat
      then Returns (false, (startIndex, letter))
      else
        match nth_error buffer startIndex with
        | None => Returns (false, (startIndex, letter))
        | Some b =>
            match InterpretNextUtfByte letter b with
            | Returns (true, letter') =>
                ReadUtfLetter_loop buffer bytesCount' startIndex letter'
            | Returns (false, letter') =>
                Returns (false, (startIndex, letter'))
            | Indeterminate => Indeterminate
            | OutOfFuel => OutOfFuel
            | Throws => Throws
            end
        end
  | _ => Returns (true, (S startIndex, letter))
  end.

(** [bool ReadUtfLetter(uint8_t* buffer, size_t bufferSize,
    size_t* startIndex, uint32_t* letter)]; [bufferSize] is the length
    of [buffer]. The local [bytesCount] starts unassigned. *)
Definition ReadUtfLetter (buffer : list byte) (startIndex : nat)
    (letter : option Z) : run (bool * (nat * option Z)) :=
  if (length buffer <=? startIndex)%nat
  then Returns (false, (startIndex, letter))
  else
    match nth_error buffer startIndex with
    | None => Returns (false, (startIndex, letter))
    | Some b =>
        match InterpretFirstUtfByte b None letter with
        | (false, (_, letter')) => Returns (false, (startIndex, letter'))
        | (true, (None, _)) => Indeterminate
        | (true, (Some bytesCount, letter')) =>
            ReadUtfLetter_loop buffer bytesCount startIndex letter'
        end
    end.

Record LetterInfo : Type := mkLetterInfo {
  bufferOffset : nat;
  bytesCount : Z
}.

(** The [while(byteIndex < bufferSize)] loop of [ReadUtfLetters]. Every
    round consumes at least one byte, so [length buffer] rounds are
    enough (see [ReadUtfLetters_terminates]). [letters] and
    [letterInfos] are the vectors that the source appends to; [Main]
    always passes a non-null [letterInfos]. *)
Fixpoint ReadUtfLetters_loop (fuel : nat) (buffer : list byte)
    (byteIndex : nat) (letters : list Z) (letterInfos : list LetterInfo)
  : run (option (list Z * list LetterInfo)) :=
  if (byteIndex <? length buffer)%nat then
    match fuel with
    | O => OutOfFuel
    | S fuel' =>
        let prevByteIndex := byteIndex in
        match ReadUtfLetter buffer byteIndex None with
        | Returns (false, _) => Returns None
        | Returns (true, (_, None)) => Indeterminate
        | Returns (true, (byteIndex, Some letter)) =>
            let li :=
              {| bufferOffset := prevByteIndex;
                 bytesCount := Z.of_nat (byteIndex - prevByteIndex) mod 256 |}
            in
            ReadUtfLetters_loop fuel' buffer byteIndex
              (letters ++ [letter]) (letterInfos ++ [li])
        | Indeterminate => Indeterminate
        | OutOfFuel => OutOfFuel
        | Throws => Throws
        end
    end
  else Returns (Some (letters, letterInfos)).

(** [bool ReadUtfLetters(buffer, bufferSize, letters, letterInfos)]
    called on two empty vectors: [Returns None] is the [false] result,
    [Returns (Some (letters, letterInfos))] the [true] one. *)
Definition ReadUtfLetters (buffer : list byte)
  : run (option (list Z * list LetterInfo)) :=
  ReadUtfLetters_loop (length buffer) buffer 0 [] [].

End encoding.

(** ** The file system as [Main] sees it *)

(** The input stream as [ReadStreamToBuffer] meets it. [stream_end] is
    what [tellg()] returns after [seekg(0, std::ios::end)]: the size of
    the file, or -1 when the stream has failed, as it has on an input
    that cannot seek. [stream_bytes] are the bytes that the stream
    delivers from its beginning, where [seekg(0, std::ios::beg)] puts
    it, and the three flags are the state bits that are set for another
    reason than a short [read] (a seek that failed, an error of the
    device). *)
Record istream : Type := mkIstream {
  stream_end : Z;
  stream_bytes : list byte;
  stream_bad : bool;
  stream_fail : bool;
  stream_eof : bool
}.

Definition PTRDIFF_MAX : Z := 2 ^ 63 - 1.

(** [new uint8_t[size]]: the number of bytes allocated, [None] when the
    allocation throws [std::bad_alloc]. No object has more than
    [PTRDIFF_MAX] bytes, so a greater request always throws; the heap is
    taken to be large enough for every other request. *)
Definition new_uint8_array (size : Z) : option nat :=
  if PTRDIFF_MAX <? size then None else Some (Z.to_nat size).

(** [input.read(s, count)]: the bytes stored and the stream after the
    call. A read that gets fewer than [count] bytes sets [eofbit] and
    [failbit]. *)
Definition istream_read (input : istream) (count : nat)
  : list byte * istream :=
  let short := (length (stream_bytes input) <? count)%nat in
  (firstn count (stream_bytes input),
   {| stream_end := stream_end input;
      stream_bytes := skipn count (stream_bytes input);
      stream_bad := stream_bad input;
      stream_fail := stream_fail input || short;
      stream_eof := stream_eof input || short |}).

(** [bool ReadStreamToBuffer(std::istream& input, buffer, bufferSize)]:
    the size is [static_cast<size_t>(input.tellg())], taken without a
    test of the stream; the buffer of that size is allocated, then read,
    and only then are the state flags tested. [Returns None] is the
    [false] result, [Returns (Some buffer)] the [true] one, and [Throws]
    the exception of the allocation, which leaves the function. *)
Definition ReadStreamToBuffer (input : istream)
  : run (option (list byte)) :=
  let bufferSize := size_t_wrap (stream_end input) in
  match new_uint8_array bufferSize with
  | None => Throws
  | Some size =>
      let '(buffer, input) := istream_read input size in
      if stream_bad input || stream_fail input || stream_eof input
      then Returns None
      else Returns (Some buffer)
  end.

Inductive ExitCode : Type :=
| NoError
| InvalidInputArgsCount
| InvalidInputFile
| InvalidOutputFile
| InvalidFileFormat.

(** [static_cast<int>] on [enum class ExitCode : int], as [main] does. *)
Definition exit_status (e : ExitCode) : Z :=
  match e with
  | NoError => 0
  | InvalidInputArgsCount => 1
  | InvalidInputFile => 2
  | InvalidOutputFile => 3
  | InvalidFileFormat => 4
  end.

(** ** Alphabets *)

Record Alphabet : Type := mkAlphabet {
  upperCaseBegin : Z;
  lowerCaseBegin : Z;
  lowerCaseEnd : Z
}.

Definition alphabets : list Alphabet :=
  [ (* English *) mkAlphabet 65 97 122;
    (* Russian *) mkAlphabet 1040 1072 1104 ].

(** The range-for of the [IsAlpha] lambda over a table of alphabets. *)
Fixpoint IsAlpha_in (table : list Alphabet) (letter : Z) : bool :=
  match table with
  | [] => false
  | a :: table' =>
      if letter <? upperCaseBegin a then false
      else if letter <? lowerCaseEnd a then true
      else IsAlpha_in table' letter
  end.

Definition IsAlpha (letter : Z) : bool := IsAlpha_in alphabets letter.

(** The inner loop of "Convert letters to lower case": the new value of
    one [uint32_t] letter. *)
Fixpoint fold_letter_in (table : list Alphabet) (letter : Z) : Z :=
  match table with
  | [] => letter
  | a :: table' =>
      if (upperCaseBegin a <=? letter) && (letter <? lowerCaseBegin a)
      then uint32_wrap
             (letter + uint32_wrap (lowerCaseBegin a - upperCaseBegin a))
      else fold_letter_in table' letter
  end.

Definition fold_letter (letter : Z) : Z := fold_letter_in alphabets letter.

(** The outer loop: every letter of the vector is folded in place. *)
Definition fold_letters (letters : list Z) : list Z :=
  map fold_letter letters.

(** ** Words *)

Record WordInfo : Type := mkWordInfo {
  startLetterIndex : nat;
  lettersCount : nat;
  entries : Z
}.

(** [letters[i]]; the source indexes the vector without a bounds check.
    In a run over fewer than [2^31] letters every index that the program
    forms is in range ([gather_words_records]). *)
Definition letter_at (letters : list Z) (i : nat) : Z := nth i letters 0.

(** The [theSame] loop of [registerWord]: [remaining] letters are left
    to compare from position [letterIndexInWord]. *)
Fixpoint theSame (letters : list Z) (firstLetter wordStart : nat)
    (letterIndexInWord remaining : nat) : bool :=
  match remaining with
  | O => true
  | S remaining' =>
      if negb (letter_at letters (firstLetter + letterIndexInWord) =?
               letter_at letters (wordStart + letterIndexInWord))
      then false
      else theSame letters firstLetter wordStart
             (S letterIndexInWord) remaining'
  end.

(** The [registerWord] lambda: [words] before the call, [words] after. *)
Fixpoint registerWord (letters : list Z) (words : list WordInfo)
    (firstLetter lettersCount' : nat) : list WordInfo :=
  match words with
  | [] =>
      [ {| startLetterIndex := firstLetter;
           lettersCount := lettersCount';
           entries := 1 |} ]
  | word :: words' =>
      if negb (lettersCount word =? lettersCount')%nat
      then word :: registerWord letters words' firstLetter lettersCount'
      else if theSame letters firstLetter (startLetterIndex word)
                0 (lettersCount word)
      then {| startLetterIndex := startLetterIndex word;
              lettersCount := lettersCount word;
              entries := size_t_wrap (entries word + 1) |} :: words'
      else word :: registerWord letters words' firstLetter lettersCount'
  end.

(** [static_cast<int>(letterIndex)] on a 32-bit [int]. *)
Definition static_cast_int (n : nat) : Z :=
  let z := Z.of_nat n mod 2 ^ 32 in
  if z <? 2 ^ 31 then z else z - 2 ^ 32.

(** An [int] passed where a [size_t] is expected. *)
Definition size_t_of_int (z : Z) : nat := Z.to_nat (size_t_wrap z).

(** [index - firstLetter] computed in [size_t]. *)
Definition size_t_sub (index : nat) (firstLetter : Z) : nat :=
  Z.to_nat (size_t_wrap (Z.of_nat index - firstLetter)).

(** The "Gather words" loop. [rest] is the part of [letters] from
    [letterIndex] on; the result is the final [firstLetter] with the
    words registered so far. *)
Fixpoint gather_loop (letters rest : list Z) (letterIndex : nat)
    (firstLetter : Z) (words : list WordInfo) : Z * list WordInfo :=
  match rest with
  | [] => (firstLetter, words)
  | letter :: rest' =>
      if IsAlpha letter then
        if firstLetter =? -1
        then gather_loop letters rest' (S letterIndex)
               (static_cast_int letterIndex) words
        else gather_loop letters rest' (S letterIndex) firstLetter words
      else if negb (firstLetter =? -1)
      then gather_loop letters rest' (S letterIndex) (-1)
             (registerWord letters words (size_t_of_int firstLetter)
                (size_t_sub letterIndex firstLetter))
      else gather_loop letters rest' (S letterIndex) firstLetter words
  end.

(** The block "Fill words collection here", with the "Last word" step. *)
Definition gather_words (letters : list Z) : list WordInfo :=
  let '(firstLetter, words) := gather_loop letters letters 0 (-1) [] in
  if negb (firstLetter =? -1)
  then registerWord letters words (size_t_of_int firstLetter)
         (size_t_sub (length letters) firstLetter)
  else words.

(** ** Ranking *)

(** The letters in the range [pLetters + startLetterIndex,
    pLetters + startLetterIndex + lettersCount). *)
Definition word_letters (letters : list Z) (w : WordInfo) : list Z :=
  firstn (lettersCount w) (skipn (startLetterIndex w) letters).

(** [std::lexicographical_compare] on two ranges of [uint32_t]. *)
Fixpoint lexicographical_compare (a b : list Z) : bool :=
  match a, b with
  | _, [] => false
  | [], _ :: _ => true
  | x :: a', y :: b' =>
      if x <? y then true
      else if y <? x then false
      else lexicographical_compare a' b'
  end.

(** The comparator handed to [std::sort]. *)
Definition word_less (letters : list Z) (a b : WordInfo) : bool :=
  if entries a =? entries b
  then lexicographical_compare (word_letters letters a)
                               (word_letters letters b)
  else entries b <? entries a.

(** [std::sort] leaves some permutation of the vector in which no
    element is less than an earlier one. The embedding computes it by
    insertion; [sorted_words_unique] shows that for the records of this
    program there is only one such permutation. *)
Fixpoint insert_word (letters : list Z) (w : WordInfo)
    (sorted : list WordInfo) : list WordInfo :=
  match sorted with
  | [] => [w]
  | x :: sorted' =>
      if word_less letters w x then w :: sorted
      else x :: insert_word letters w sorted'
  end.

Definition sort_words (letters : list Z) (words : list WordInfo)
  : list WordInfo :=
  fold_right (insert_word letters) [] words.

(** ** Writing *)

(** [output << word.entries]: an unsigned decimal numeral. *)
Definition decimal (n : Z) : list byte :=
  list_byte_of_string (NilZero.string_of_uint (N.to_uint (Z.to_N n))).

(** [std::endl] writes the newline character. *)
Definition endl : list byte := [x0a].

(** [output.write(buffer + bufferOffset, bytesCount)]. *)
Definition write_letter (buffer : list byte) (li : encoding.LetterInfo)
  : list byte :=
  firstn (Z.to_nat (encoding.bytesCount li))
         (skipn (encoding.bufferOffset li) buffer).

Definition letterInfo_at (lettersInfos : list encoding.LetterInfo)
    (i : nat) : encoding.LetterInfo :=
  nth i lettersInfos (encoding.mkLetterInfo 0 0).

(** The inner loop of the output stage. *)
Fixpoint write_letters (buffer : list byte)
    (lettersInfos : list encoding.LetterInfo) (start : nat)
    (letterIndexInWord remaining : nat) : list byte :=
  match remaining with
  | O => []
  | S remaining' =>
      write_letter buffer
        (letterInfo_at lettersInfos (start + letterIndexInWord))
      ++ write_letters buffer lettersInfos start
           (S letterIndexInWord) remaining'
  end.

(** One round of the output loop: what is written for [word]. *)
Definition write_word (buffer : list byte)
    (lettersInfos : list encoding.LetterInfo) (word : WordInfo)
  : list byte :=
  decimal (entries word) ++ [x20]
  ++ write_letters buffer lettersInfos (startLetterIndex word)
       0 (lettersCount word)
  ++ endl.

Definition write_words (buffer : list byte)
    (lettersInfos : list encoding.LetterInfo) (words : list WordInfo)
  : list byte :=
  flat_map (write_word buffer lettersInfos) words.

(** ** The program *)

(** What [Main] finds: the argument count, whether the two files open,
    and the input stream. *)
Record invocation : Type := mkInvocation {
  argc : Z;
  input_is_open : bool;
  output_is_open : bool;
  input : istream
}.

(** [ExitCode Main(int argc, const char** argv)]: the exit code with the
    contents of the output file, [None] when [Main] did not open it. *)
Definition Main (inv : invocation) : run (ExitCode * option (list byte)) :=
  if negb (argc inv =? 3) then Returns (InvalidInputArgsCount, None)
  else if negb (input_is_open inv) then Returns (InvalidInputFile, None)
  else if negb (output_is_open inv) then Returns (InvalidOutputFile, None)
  else
    match ReadStreamToBuffer (input inv) with
    | Returns None => Returns (InvalidInputFile, Some [])
    | Returns (Some buffer) =>
        match encoding.ReadUtfLetters buffer with
        | Returns None => Returns (InvalidFileFormat, Some [])
        | Returns (Some (letters, lettersInfos)) =>
            let letters := fold_letters letters in
            let words := gather_words letters in
            let words := sort_words letters words in
            Returns (NoError, Some (write_words buffer lettersInfos words))
        | Indeterminate => Indeterminate
        | OutOfFuel => OutOfFuel
        | Throws => Throws
        end
    | Indeterminate => Indeterminate
    | OutOfFuel => OutOfFuel
    | Throws => Throws
    end.

(** An invocation with two arguments whose files open and whose input
    is a file of the bytes [buffer]. *)
Definition run_on (buffer : list byte) : invocation :=
  {| argc := 3;
     input_is_open := true;
     output_is_open := true;
     input := mkIstream (Z.of_nat (length buffer)) buffer
                false false false |}.

(** ** The program on memory that holds values *)

Module holding.

(** [ReadUtfLetter] with the value [count0] in the memory of its local
    [bytesCount], which the source declares without a value. *)
Definition ReadUtfLetter (count0 : nat) (buffer : list byte)
    (startIndex : nat) (letter : option Z)
  : run (bool * (nat * option Z)) :=
  if (length buffer <=? startIndex)%nat
  then Returns (false, (startIndex, letter))
  else
    match nth_error buffer startIndex with
    | None => Returns (false, (startIndex, letter))
    | Some b =>
        match encoding.InterpretFirstUtfByte b (Some count0) letter with
        | (false, (_, letter')) => Returns (false, (startIndex, letter'))
        | (true, (None, _)) => Indeterminate
        | (true, (Some bytesCount, letter')) =>
            encoding.ReadUtfLetter_loop buffer bytesCount startIndex letter'
        end
    end.

(** What the memory of the locals holds in the round of [ReadUtfLetters]
    that starts at a given byte index: the [size_t] in the place of
    [bytesCount] and the [uint32_t] in the place of [letter]. *)
Definition memory : Type := nat -> nat * Z.

(** The loop of [ReadUtfLetters] on such a memory. *)
Fixpoint ReadUtfLetters_loop (held : memory) (fuel : nat)
    (buffer : list byte) (byteIndex : nat) (letters : list Z)
    (letterInfos : list encoding.LetterInfo)
  : run (option (list Z * list encoding.LetterInfo)) :=
  if (byteIndex <? length buffer)%nat then
    match fuel with
    | O => OutOfFuel
    | S fuel' =>
        let prevByteIndex := byteIndex in
        match ReadUtfLetter (fst (held byteIndex)) buffer byteIndex
                (Some (snd (held byteIndex))) with
        | Returns (false, _) => Returns None
        | Returns (true, (_, None)) => Indeterminate
        | Returns (true, (byteIndex, Some letter)) =>
            let li :=
              {| encoding.bufferOffset := prevByteIndex;
                 encoding.bytesCount :=
                   Z.of_nat (byteIndex - prevByteIndex) mod 256 |}
            in
            ReadUtfLetters_loop held fuel' buffer byteIndex
              (letters ++ [letter]) (letterInfos ++ [li])
        | Indeterminate => Indeterminate
        | OutOfFuel => OutOfFuel
        | Throws => Throws
        end
    end
  else Returns (Some (letters, letterInfos)).

Definition ReadUtfLetters (held : memory) (buffer : list byte)
  : run (option (list Z * list encoding.LetterInfo)) :=
  ReadUtfLetters_loop held (length buffer) buffer 0 [] [].

(** [Main] on such a memory. *)
Definition Main (held : memory) (inv : invocation)
  : run (ExitCode * option (list byte)) :=
  if negb (argc inv =? 3) then Returns (InvalidInputArgsCount, None)
  else if negb (input_is_open inv) then Returns (InvalidInputFile, None)
  else if negb (output_is_open inv) then Returns (InvalidOutputFile, None)
  else
    match ReadStreamToBuffer (input inv) with
    | Returns None => Returns (InvalidInputFile, Some [])
    | Returns (Some buffer) =>
        match ReadUtfLetters held buffer with
        | Returns None => Returns (InvalidFileFormat, Some [])
        | Returns (Some (letters, lettersInfos)) =>
            let letters := fold_letters letters in
            let words := gather_words letters in
            let words := sort_words letters words in
            Returns (NoError, Some (write_words buffer lettersInfos words))
        | Indeterminate => Indeterminate
        | OutOfFuel => OutOfFuel
        | Throws => Throws
        end
    | Indeterminate => Indeterminate
    | OutOfFuel => OutOfFuel
    | Throws => Throws
    end.

End holding.

(** * The vocabulary of the properties *)

(** ** First bytes and continuation bytes *)

(** [p] is the highest position in [lo..hi] at which [b] has a zero bit. *)
Definition highest_zero_bit (lo hi : Z) (b : byte) (p : Z) : Prop :=
  lo <= p <= hi /\
  Z.testbit (u8 b) p = false /\
  forall q, p < q <= hi -> Z.testbit (u8 b) q = true.

(** The first bytes on which the scan of [InterpretFirstUtfByte] finds
    no zero bit. *)
Definition scan_falls_through (b : byte) : Prop :=
  Z.testbit (u8 b) 7 = true /\
  Z.testbit (u8 b) 5 = true /\ Z.testbit (u8 b) 4 = true /\
  Z.testbit (u8 b) 3 = true /\ Z.testbit (u8 b) 2 = true.

(** The bit pattern 10xxxxxx of a continuation byte. *)
Definition is_continuation (b : byte) : bool :=
  Z.testbit (u8 b) 7 && negb (Z.testbit (u8 b) 6).

(** The [count] bytes that follow position [i] are all there and are
    continuation bytes. *)
Fixpoint continuation_ok (buffer : list byte) (i count : nat) : bool :=
  match count with
  | O => true
  | S count' =>
      match nth_error buffer (S i) with
      | Some b => is_continuation b && continuation_ok buffer (S i) count'
      | None => false
      end
  end.

(** ** Decoding *)

(** A result of the loop of [ReadUtfLetters] with [letters] and
    [letterInfos] put in front of the two vectors. *)
Definition appended (letters : list Z)
    (letterInfos : list encoding.LetterInfo)
    (r : run (option (list Z * list encoding.LetterInfo)))
  : run (option (list Z * list encoding.LetterInfo)) :=
  match r with
  | Returns (Some (letters', letterInfos')) =>
      Returns (Some (letters ++ letters', letterInfos ++ letterInfos'))
  | _ => r
  end.

(** The spans of [letterInfos] lie one after the other, none empty,
    from byte [offset] up to byte [stop]. *)
Fixpoint spans_tile (offset : nat) (letterInfos : list encoding.LetterInfo)
    (stop : nat) : Prop :=
  match letterInfos with
  | [] => offset = stop
  | li :: letterInfos' =>
      encoding.bufferOffset li = offset /\
      0 < encoding.bytesCount li /\
      spans_tile (offset + Z.to_nat (encoding.bytesCount li))
                 letterInfos' stop
  end.

(** The positions at which the loop of [ReadUtfLetters], started at
    [i], begins a letter. *)
Inductive reaches (buffer : list byte) : nat -> nat -> Prop :=
| reaches_here (i : nat) : reaches buffer i i
| reaches_step (i j s : nat) (l : Z) :
    (i < length buffer)%nat ->
    encoding.ReadUtfLetter buffer i None = Returns (true, (j, Some l)) ->
    reaches buffer j s ->
    reaches buffer i s.

Definition letter_start (buffer : list byte) (s : nat) : Prop :=
  reaches buffer 0 s.

(** The letter at [s], with [count] continuation bytes announced by its
    first byte, has one of them missing because the buffer ends, or not
    of the form 10xxxxxx. *)
Definition sequence_broken_at (buffer : list byte) (s : nat) : Prop :=
  exists b count l k,
    nth_error buffer s = Some b /\
    encoding.InterpretFirstUtfByte b None None
    = (true, (Some (S count), Some l)) /\
    (1 <= k <= count)%nat /\
    (nth_error buffer (s + k) = None \/
     exists c, nth_error buffer (s + k) = Some c /\
               is_continuation c = false).


(** ** Folding *)

(** The descriptor that folds [letter], if any, is the first one whose
    interval [upperCaseBegin, lowerCaseBegin) holds it. *)
Definition folds (letter : Z) (a : Alphabet) : bool :=
  (upperCaseBegin a <=? letter) && (letter <? lowerCaseBegin a).

(** ** Records and the words they refer to *)

(** The word of [count] letters at [firstLetter] has the length and,
    letter by letter, the codepoints of the word that [w] refers to. *)
Definition matches (letters : list Z) (firstLetter count : nat)
    (w : WordInfo) : Prop :=
  lettersCount w = count /\
  forall i, (i < count)%nat ->
    letter_at letters (firstLetter + i)
    = letter_at letters (startLetterIndex w + i).

(** Two records refer to equal codepoint sequences. *)
Definition same_content (letters : list Z) (a b : WordInfo) : Prop :=
  matches letters (startLetterIndex a) (lettersCount a) b.

(** The test that [registerWord] makes on one record. *)
Definition matchesb (letters : list Z) (firstLetter count : nat)
    (w : WordInfo) : bool :=
  (lettersCount w =? count)%nat
  && theSame letters firstLetter (startLetterIndex w) 0 (lettersCount w).

(** What a record refers to. *)
Definition word_key (w : WordInfo) : nat * nat :=
  (startLetterIndex w, lettersCount w).

(** Two references, each a first letter with a count, to equal
    codepoint sequences. *)
Definition key_eq (letters : list Z) (k1 k2 : nat * nat) : Prop :=
  snd k2 = snd k1 /\
  forall i, (i < snd k1)%nat ->
    letter_at letters (fst k1 + i) = letter_at letters (fst k2 + i).

(** No two records, at different places of the vector, refer to equal
    codepoint sequences. *)
Definition distinct_words (letters : list Z) (words : list WordInfo)
  : Prop :=
  forall i j a b,
    nth_error words i = Some a -> nth_error words j = Some b ->
    same_content letters a b -> i = j.

(** The invariant of the aggregator. *)
Definition WordsInv (letters : list Z) (words : list WordInfo) : Prop :=
  distinct_words letters words /\ Forall (fun w => 1 <= entries w) words.

(** ** The calls of [registerWord] *)

(** The words that the "Gather words" loop hands to [registerWord], in
    the order of the calls, as pairs of a first letter and a count:
    [firstLetter] is the start of the word that is open, if one is. *)
Fixpoint segments_loop (rest : list Z) (letterIndex : nat)
    (firstLetter : option nat) : list (nat * nat) :=
  match rest with
  | [] =>
      match firstLetter with
      | Some f => [(f, letterIndex - f)%nat]
      | None => []
      end
  | letter :: rest' =>
      if IsAlpha letter then
        segments_loop rest' (S letterIndex)
          (match firstLetter with
           | None => Some letterIndex
           | Some f => Some f
           end)
      else
        match firstLetter with
        | Some f =>
            (f, letterIndex - f)%nat :: segments_loop rest' (S letterIndex) None
        | None => segments_loop rest' (S letterIndex) None
        end
  end.

Definition segments (letters : list Z) : list (nat * nat) :=
  segments_loop letters 0 None.

(** The aggregator after a sequence of calls. *)
Definition aggregate_from (letters : list Z) (words : list WordInfo)
    (calls : list (nat * nat)) : list WordInfo :=
  fold_left (fun ws call => registerWord letters ws (fst call) (snd call))
            calls words.

Definition aggregate (letters : list Z) (calls : list (nat * nat))
  : list WordInfo :=
  aggregate_from letters [] calls.

(** The [int] that the loop keeps for an open word. *)
Definition int_of_firstLetter (firstLetter : option nat) : Z :=
  match firstLetter with
  | Some f => Z.of_nat f
  | None => -1
  end.

(** ** Order and output *)

(** [a] may stand before [b]: [b] is not less than [a]. This is what
    [std::sort] guarantees for each element and every later one. *)
Definition word_le (letters : list Z) (a b : WordInfo) : Prop :=
  word_less letters b a = false.

(** The spans recorded for the letters of a word, and the bytes written
    for it between the space and the end of the line. *)
Definition word_infos (lettersInfos : list encoding.LetterInfo)
    (w : WordInfo) : list encoding.LetterInfo :=
  firstn (lettersCount w) (skipn (startLetterIndex w) lettersInfos).

Definition word_bytes (buffer : list byte)
    (lettersInfos : list encoding.LetterInfo) (w : WordInfo) : list byte :=
  write_letters buffer lettersInfos (startLetterIndex w) 0 (lettersCount w).

(** The example input of the specification. *)
Definition the_cat_sat : list byte :=
  list_byte_of_string "The cat sat. THE CAT SAT!".

(** ** Decoded values *)

(** The byte of value [z], for [z] below 256. *)
Definition byte_of_Z (z : Z) : byte :=
  match Byte.of_N (Z.to_N z) with
  | Some b => b
  | None => x00
  end.

(** The letter that [ReadUtfLetter] builds from the value [l] taken from
    the first byte and the continuation bytes [conts]: six bits of each,
    most significant first. *)
Definition accumulate (l : Z) (conts : list byte) : Z :=
  fold_left (fun l b => l * 64 + (u8 b - 128)) conts l.

(** [letter] and [li] are what one call of [ReadUtfLetter] at the offset
    of [li] gives. *)
Definition decodes_at (buffer : list byte) (letter : Z)
    (li : encoding.LetterInfo) : Prop :=
  exists j,
    encoding.ReadUtfLetter buffer (encoding.bufferOffset li) None
    = Returns (true, (j, Some letter)) /\
    (encoding.bufferOffset li < j <= length buffer)%nat /\
    encoding.bytesCount li = Z.of_nat (j - encoding.bufferOffset li).

(** The spans of [letterInfos] moved [n] bytes up. *)
Definition shift_infos (n : nat) (letterInfos : list encoding.LetterInfo)
  : list encoding.LetterInfo :=
  map (fun li => encoding.mkLetterInfo (n + encoding.bufferOffset li)
                   (encoding.bytesCount li))
      letterInfos.

(** A result of [ReadUtfLetter] with the index moved [n] bytes up. *)
Definition shift_letter (n : nat) (r : run (bool * (nat * option Z)))
  : run (bool * (nat * option Z)) :=
  match r with
  | Returns (ok, (j, l)) => Returns (ok, ((n + j)%nat, l))
  | _ => r
  end.

(** What decoding [bytes] gives after an accepted buffer of [n] bytes
    that gave [letters] and [letterInfos]. *)
Definition decoded_after (n : nat) (letters : list Z)
    (letterInfos : list encoding.LetterInfo)
    (r : run (option (list Z * list encoding.LetterInfo)))
  : run (option (list Z * list encoding.LetterInfo)) :=
  match r with
  | Returns (Some (letters', letterInfos')) =>
      Returns (Some (letters ++ letters',
                     letterInfos ++ shift_infos n letterInfos'))
  | _ => r
  end.

(** The UTF-8 encoding of a codepoint below [2^21], in one to four
    bytes. *)
Definition utf8_encode (c : Z) : list byte :=
  if c <? 128 then [byte_of_Z c]
  else if c <? 2048 then
    [byte_of_Z (192 + c / 64); byte_of_Z (128 + c mod 64)]
  else if c <? 65536 then
    [byte_of_Z (224 + c / 4096); byte_of_Z (128 + (c / 64) mod 64);
     byte_of_Z (128 + c mod 64)]
  else
    [byte_of_Z (240 + c / 262144); byte_of_Z (128 + (c / 4096) mod 64);
     byte_of_Z (128 + (c / 64) mod 64); byte_of_Z (128 + c mod 64)].

(** ** Runs of letters and counts *)

(** The [count] letters from [f] on are a word of the text: at least
    one letter, all alphabetic, with no alphabetic letter next to them on
    either side. *)
Definition maximal_run (letters : list Z) (f count : nat) : Prop :=
  (1 <= count)%nat /\
  (f + count <= length letters)%nat /\
  (forall i, (i < count)%nat -> IsAlpha (letter_at letters (f + i)) = true) /\
  (f = 0%nat \/ IsAlpha (letter_at letters (f - 1)) = false) /\
  ((f + count)%nat = length letters \/
   IsAlpha (letter_at letters (f + count)) = false).

(** The state of the segmenter before letter [letterIndex]: an open word
    starts at an alphabetic letter that follows none and holds only
    alphabetic letters; with no word open the letter before is not
    alphabetic. *)
Definition open_word (letters : list Z) (letterIndex : nat)
    (firstLetter : option nat) : Prop :=
  match firstLetter with
  | Some f =>
      (f < letterIndex)%nat /\
      (forall i, (f <= i < letterIndex)%nat ->
         IsAlpha (letter_at letters i) = true) /\
      (f = 0%nat \/ IsAlpha (letter_at letters (f - 1)) = false)
  | None =>
      letterIndex = 0%nat \/
      IsAlpha (letter_at letters (letterIndex - 1)) = false
  end.

(** How many of the words handed over have the codepoints of the word
    that [w] refers to. *)
Definition occurrences (letters : list Z) (calls : list (nat * nat))
    (w : WordInfo) : nat :=
  length (filter (fun call => matchesb letters (fst call) (snd call) w)
                 calls).

(** The sum of the counts of the records. *)
Definition total_entries (words : list WordInfo) : Z :=
  fold_right (fun w total => entries w + total) 0 words.

(** [a] is written before [b]: it has the greater count or, with the
    same count, the word that comes first. *)
Definition ranks_before (letters : list Z) (a b : WordInfo) : Prop :=
  entries b < entries a \/
  (entries a = entries b /\
   lexicographical_compare (word_letters letters a)
                           (word_letters letters b) = true).

(** The number of newline bytes of an output. *)
Definition newlines (out : list byte) : nat := count_occ byte_eq_dec out x0a.

(** A decimal digit. *)
Definition is_digit (b : byte) : Prop := 48 <= u8 b <= 57.

(** The descriptors of a table come in the order of their
    [upperCaseBegin]. *)
Definition ascending (table : list Alphabet) : Prop :=
  StronglySorted (fun a a' => upperCaseBegin a <= upperCaseBegin a') table.

(** * Properties *)

(** ** The first byte of a letter *)

Lemma highest_zero_bit_5_2_cases (b : byte) (p : Z) :
  highest_zero_bit 2 5 b p -> p = 2 \/ p = 3 \/ p = 4 \/ p = 5.
Proof. intros [Hp _]. lia. Qed.

Lemma InterpretFirstUtfByte_one_byte (b : byte)
    (bytesCount : option nat) (letter : option Z) :
  Z.testbit (u8 b) 7 = false ->
  encoding.InterpretFirstUtfByte b bytesCount letter
  = (true, (Some 1%nat, Some (u8 b))).
Proof.
  destruct b; vm_compute; intros H; try discriminate H; reflexivity.
Qed.

Lemma InterpretFirstUtfByte_lead (b : byte)
    (bytesCount : option nat) (letter : option Z) (p : Z) :
  Z.testbit (u8 b) 7 = true ->
  highest_zero_bit 2 5 b p ->
  encoding.InterpretFirstUtfByte b bytesCount letter
  = (true, (Some (1 + (6 - Z.to_nat p))%nat, Some (u8 b mod 2 ^ p))).
Proof.
  intros H7 Hp.
  pose proof (highest_zero_bit_5_2_cases b p Hp) as Hc.
  destruct Hp as (_ & Hz & Hhi).
  pose proof (Hhi 3) as H3. pose proof (Hhi 4) as H4.
  pose proof (Hhi 5) as H5. clear Hhi.
  destruct Hc as [-> | [-> | [-> | ->]]];
    destruct b;
    first [ discriminate H7
          | vm_compute in Hz; discriminate Hz
          | reflexivity
          | specialize (H5 ltac:(lia)); vm_compute in H5; discriminate H5
          | specialize (H4 ltac:(lia)); vm_compute in H4; discriminate H4
          | specialize (H3 ltac:(lia)); vm_compute in H3; discriminate H3 ].
Qed.

Lemma scan_falls_through_bytes (b : byte) :
  scan_falls_through b <->
  (188 <= u8 b <= 191 \/ 252 <= u8 b <= 255).
Proof.
  unfold scan_falls_through.
  destruct b; vm_compute; split; intros H;
    try (left; split; discriminate);
    try (right; split; discriminate);
    try (repeat split; reflexivity);
    try (decompose [and] H; discriminate);
    destruct H as [[H1 H2] | [H1 H2]];
    solve [ exfalso; apply H1; reflexivity
          | exfalso; apply H2; reflexivity ].
Qed.

Lemma scan_falls_through_first (b : byte) :
  scan_falls_through b ->
  forall bytesCount letter,
    encoding.InterpretFirstUtfByte b bytesCount letter
    = (true, (bytesCount, letter)).
Proof.
  intros (H7 & H5 & H4 & H3 & H2).
  destruct b; first [ discriminate H7 | discriminate H5 | discriminate H4
                    | discriminate H3 | discriminate H2
                    | intros; reflexivity ].
Qed.

(** ** Classification and case folding *)

Lemma IsAlpha_ranges (c : Z) :
  IsAlpha c = true <-> (65 <= c < 122 \/ 1040 <= c < 1104).
Proof.
  unfold IsAlpha, alphabets, IsAlpha_in; cbn [upperCaseBegin lowerCaseEnd].
  destruct (Z.ltb_spec c 65); [split; [discriminate | lia] |].
  destruct (Z.ltb_spec c 122); [split; [lia | reflexivity] |].
  destruct (Z.ltb_spec c 1040); [split; [discriminate | lia] |].
  destruct (Z.ltb_spec c 1104); split; solve [lia | reflexivity | discriminate].
Qed.

(** C3, as the code has it. [lowerCaseEnd] is an exclusive bound: every
    codepoint from the [upperCaseBegin] of a predefined alphabet up to,
    and not including, its [lowerCaseEnd] is alphabetic, the gap between
    the upper-case and the lower-case letters included; these are the
    codepoints 65 to 121 and 1040 to 1103. *)
Theorem IsAlpha_below_lowerCaseEnd (c : Z) :
  (forall a, In a alphabets ->
     upperCaseBegin a <= c < lowerCaseEnd a -> IsAlpha c = true) /\
  (65 <= c <= 121 \/ 1040 <= c <= 1103 -> IsAlpha c = true).
Proof.
  split.
  - intros a Hin Hc. unfold IsAlpha, alphabets in *.
    destruct Hin as [<- | [<- | []]];
      cbn [IsAlpha_in upperCaseBegin lowerCaseEnd] in *.
    + destruct (Z.ltb_spec c 65); [lia |].
      destruct (Z.ltb_spec c 122); [reflexivity | lia].
    + destruct (Z.ltb_spec c 65); [lia |].
      destruct (Z.ltb_spec c 122); [reflexivity |].
      destruct (Z.ltb_spec c 1040); [lia |].
      destruct (Z.ltb_spec c 1104); [reflexivity | lia].
  - intros Hc. apply IsAlpha_ranges. lia.
Qed.

Lemma IsAlpha_below_lowerCaseEnd_witness :
  IsAlpha 91 = true /\ IsAlpha 1103 = true.
Proof.
  split.
  - apply (proj2 (IsAlpha_below_lowerCaseEnd 91)). left. lia.
  - apply (proj1 (IsAlpha_below_lowerCaseEnd 1103)
             (mkAlphabet 1040 1072 1104)).
    + right. left. reflexivity.
    + cbn. lia.
Defined.

(** C3 as the specification words it fails at 1104, the last codepoint
    of the range "1072 through 1104". *)
Lemma IsAlpha_1104_counterexample :
  1072 <= 1104 <= 1104 /\ IsAlpha 1104 = false.
Proof. split; [lia | reflexivity]. Qed.

Lemma fold_letter_in_find (table : list Alphabet) (letter : Z) :
  fold_letter_in table letter =
  match find (folds letter) table with
  | Some a =>
      uint32_wrap (letter + uint32_wrap (lowerCaseBegin a - upperCaseBegin a))
  | None => letter
  end.
Proof.
  induction table as [| a table IH]; cbn [fold_letter_in find]; [reflexivity |].
  unfold folds at 1.
  destruct ((upperCaseBegin a <=? letter) && (letter <? lowerCaseBegin a));
    [reflexivity | exact IH].
Qed.

Lemma fold_letter_cases (c : Z) :
  fold_letter c =
  if ((65 <=? c) && (c <? 97)) || ((1040 <=? c) && (c <? 1072))
  then c + 32 else c.
Proof.
  unfold fold_letter, alphabets, fold_letter_in, uint32_wrap;
    cbn [upperCaseBegin lowerCaseBegin].
  destruct (Z.leb_spec 65 c), (Z.ltb_spec c 97),
           (Z.leb_spec 1040 c), (Z.ltb_spec c 1072);
    cbn [andb orb]; try reflexivity; try lia;
    change ((97 - 65) mod 2 ^ 32) with 32;
    change ((1072 - 1040) mod 2 ^ 32) with 32;
    rewrite Z.mod_small; lia.
Qed.

(** C7. A codepoint in the interval [upperCaseBegin, lowerCaseBegin) of a
    descriptor is moved up by [lowerCaseBegin - upperCaseBegin], the first
    descriptor that matches deciding; every other codepoint is left as it
    is. Cyrillic 1040 folds to 1072, so that in the letters 1072, 32, 1040
    the second word is counted with the first. *)
Theorem fold_letter_spec :
  (forall table c,
     fold_letter_in table c =
     match find (folds c) table with
     | Some a =>
         uint32_wrap (c + uint32_wrap (lowerCaseBegin a - upperCaseBegin a))
     | None => c
     end) /\
  (forall c a, In a alphabets ->
     upperCaseBegin a <= c < lowerCaseBegin a ->
     fold_letter c = c + (lowerCaseBegin a - upperCaseBegin a)) /\
  (forall c,
     (forall a, In a alphabets ->
        ~ upperCaseBegin a <= c < lowerCaseBegin a) ->
     fold_letter c = c) /\
  fold_letter 1040 = 1072 /\
  gather_words (fold_letters [1072; 32; 1040])
  = [ {| startLetterIndex := 0; lettersCount := 1; entries := 2 |} ] /\
  Main (run_on [xd0; xb0; x20; xd0; x90])
  = Returns (NoError, Some ([x32; x20; xd0; xb0] ++ endl)).
Proof.
  split; [exact fold_letter_in_find |].
  split; [| split; [| split; [reflexivity | split; reflexivity]]].
  - intros c a Hin Hc. rewrite fold_letter_cases.
    destruct Hin as [<- | [<- | []]]; cbn [upperCaseBegin lowerCaseBegin] in *.
    + destruct (Z.leb_spec 65 c), (Z.ltb_spec c 97); try lia. reflexivity.
    + destruct (Z.leb_spec 1040 c), (Z.ltb_spec c 1072); try lia.
      rewrite orb_true_r. reflexivity.
  - intros c Hno. rewrite fold_letter_cases.
    pose proof (Hno (mkAlphabet 65 97 122) (or_introl eq_refl)) as H1.
    pose proof (Hno (mkAlphabet 1040 1072 1104)
                    (or_intror (or_introl eq_refl))) as H2.
    cbn [upperCaseBegin lowerCaseBegin] in H1, H2.
    destruct (Z.leb_spec 65 c), (Z.ltb_spec c 97),
             (Z.leb_spec 1040 c), (Z.ltb_spec c 1072);
      cbn [andb orb]; try reflexivity; lia.
Qed.

Lemma fold_letter_spec_witness :
  fold_letter 1040 = 1040 + (1072 - 1040).
Proof.
  exact (proj1 (proj2 fold_letter_spec) 1040 (mkAlphabet 1040 1072 1104)
           (or_intror (or_introl eq_refl)) (conj (Z.le_refl 1040) eq_refl)).
Defined.

(** ** The decoder *)

Section Decoder.

Import encoding.

Lemma continuation_ok_true (buffer : list byte) (count i : nat) :
  continuation_ok buffer i count = true <->
  forall k, (1 <= k <= count)%nat ->
    exists b, nth_error buffer (i + k) = Some b /\ is_continuation b = true.
Proof.
  revert i. induction count as [| count IH]; intros i; cbn [continuation_ok].
  - split; [intros _ k Hk; lia | reflexivity].
  - split.
    + intros H k Hk.
      destruct (nth_error buffer (S i)) as [b |] eqn:Hb; [| discriminate].
      apply andb_true_iff in H as [Hc Hrest].
      destruct (Nat.eq_dec k 1) as [-> | Hne].
      * exists b. rewrite Nat.add_1_r. auto.
      * destruct (proj1 (IH (S i)) Hrest (k - 1)%nat ltac:(lia)) as (c & Hc1 & Hc2).
        exists c. replace (i + k)%nat with (S i + (k - 1))%nat by lia. auto.
    + intros H.
      destruct (H 1%nat ltac:(lia)) as (b & Hb & Hc).
      rewrite Nat.add_1_r in Hb. rewrite Hb, Hc. cbn [andb].
      apply IH. intros k Hk.
      destruct (H (S k) ltac:(lia)) as (c & Hc1 & Hc2).
      exists c. replace (S i + k)%nat with (i + S k)%nat by lia. auto.
Qed.

Lemma continuation_ok_false (buffer : list byte) (count i : nat) :
  continuation_ok buffer i count = false <->
  exists k, (1 <= k <= count)%nat /\
    (nth_error buffer (i + k) = None \/
     exists b, nth_error buffer (i + k) = Some b /\ is_continuation b = false).
Proof.
  revert i. induction count as [| count IH]; intros i; cbn [continuation_ok].
  - split; [discriminate | intros (k & Hk & _); lia].
  - split.
    + intros H.
      destruct (nth_error buffer (S i)) as [b |] eqn:Hb.
      * destruct (is_continuation b) eqn:Hc; cbn [andb] in H.
        -- apply IH in H as (k & Hk & Hbad).
           exists (S k). split; [lia |].
           replace (i + S k)%nat with (S i + k)%nat by lia. exact Hbad.
        -- exists 1%nat. split; [lia |]. rewrite Nat.add_1_r.
           right. exists b. auto.
      * exists 1%nat. split; [lia |]. rewrite Nat.add_1_r. left. exact Hb.
    + intros (k & Hk & Hbad).
      destruct (nth_error buffer (S i)) as [b |] eqn:Hb; [| reflexivity].
      destruct (is_continuation b) eqn:Hc; [| reflexivity]. cbn [andb].
      apply IH. destruct (Nat.eq_dec k 1) as [-> | Hne].
      * rewrite Nat.add_1_r in Hbad. rewrite Hb in Hbad.
        destruct Hbad as [Hbad | (c & Hc1 & Hc2)]; [discriminate |].
        injection Hc1 as <-. congruence.
      * exists (k - 1)%nat. split; [lia |].
        replace (S i + (k - 1))%nat with (i + k)%nat by lia. exact Hbad.
Qed.

Lemma continuation_test (b : byte) :
  (Z.land (u8 b) 128 =? 0) || negb (Z.land (u8 b) 64 =? 0)
  = negb (is_continuation b).
Proof. destruct b; reflexivity. Qed.

Lemma InterpretNextUtfByte_continuation (l : Z) (b : byte) :
  is_continuation b = true ->
  exists l', InterpretNextUtfByte (Some l) b = Returns (true, Some l').
Proof.
  intros H. unfold InterpretNextUtfByte.
  rewrite continuation_test, H. cbn [negb]. eexists. reflexivity.
Qed.

Lemma InterpretNextUtfByte_other (letter : option Z) (b : byte) :
  is_continuation b = false ->
  InterpretNextUtfByte letter b = Returns (false, letter).
Proof.
  intros H. unfold InterpretNextUtfByte.
  rewrite continuation_test, H. reflexivity.
Qed.

(** The continuation loop started on an assigned count [S count] and an
    assigned letter: it consumes [count] continuation bytes or fails. *)
Lemma ReadUtfLetter_loop_assigned (buffer : list byte) (count : nat) :
  forall i l,
    if continuation_ok buffer i count
    then exists l',
        ReadUtfLetter_loop buffer (S count) i (Some l)
        = Returns (true, (i + S count, Some l'))%nat
    else exists st,
        ReadUtfLetter_loop buffer (S count) i (Some l) = Returns (false, st).
Proof.
  induction count as [| count IH]; intros i l.
  - cbn. exists l. rewrite Nat.add_1_r. reflexivity.
  - cbn [continuation_ok].
    change (ReadUtfLetter_loop buffer (S (S count)) i (Some l))
      with (if (length buffer <=? S i)%nat
            then Returns (false, (S i, Some l))
            else
              match nth_error buffer (S i) with
              | None => Returns (false, (S i, Some l))
              | Some b =>
                  match InterpretNextUtfByte (Some l) b with
                  | Returns (true, letter') =>
                      ReadUtfLetter_loop buffer (S count) (S i) letter'
                  | Returns (false, letter') =>
                      Returns (false, (S i, letter'))
                  | Indeterminate => Indeterminate
                  | OutOfFuel => OutOfFuel
                  | Throws => Throws
                  end
              end).
    destruct (nth_error buffer (S i)) as [b |] eqn:Hb.
    + assert (Hlt : (S i < length buffer)%nat)
        by (apply nth_error_Some; congruence).
      destruct (Nat.leb_spec (length buffer) (S i)); [lia |].
      destruct (is_continuation b) eqn:Hc; cbn [andb].
      * destruct (InterpretNextUtfByte_continuation l b Hc) as (l1 & ->).
        specialize (IH (S i) l1).
        destruct (continuation_ok buffer (S i) count).
        -- destruct IH as (l' & ->). exists l'.
           replace (i + S (S count))%nat with (S i + S count)%nat by lia.
           reflexivity.
        -- exact IH.
      * rewrite (InterpretNextUtfByte_other _ b Hc). eexists. reflexivity.
    + destruct (length buffer <=? S i)%nat; eexists; reflexivity.
Qed.

(** What the first byte of a letter yields when no count and no letter
    were assigned before: a count between 1 and 5 with a letter, or
    nothing at all. *)
Lemma InterpretFirstUtfByte_cases (b : byte) (letter : option Z) :
  (exists count l, (count <= 4)%nat /\
     InterpretFirstUtfByte b None letter = (true, (Some (S count), Some l)))
  \/ (scan_falls_through b /\
      InterpretFirstUtfByte b None letter = (true, (None, letter))).
Proof.
  destruct b;
    first [ left; eexists; eexists; split; [| reflexivity]; cbn; lia
          | right; split; [repeat split | reflexivity] ].
Qed.

(** One call of [ReadUtfLetter] at a position inside the buffer. *)
Lemma ReadUtfLetter_cases (buffer : list byte) (i : nat) (b : byte) :
  nth_error buffer i = Some b ->
  (exists count l, (count <= 4)%nat /\
     InterpretFirstUtfByte b None None = (true, (Some (S count), Some l)) /\
     if continuation_ok buffer i count
     then exists l',
         ReadUtfLetter buffer i None
         = Returns (true, (i + S count, Some l'))%nat
     else exists st, ReadUtfLetter buffer i None = Returns (false, st))
  \/ (scan_falls_through b /\ ReadUtfLetter buffer i None = Indeterminate).
Proof.
  intros Hb.
  assert (Hlt : (i < length buffer)%nat) by (apply nth_error_Some; congruence).
  unfold ReadUtfLetter.
  destruct (Nat.leb_spec (length buffer) i); [lia |]. rewrite Hb.
  destruct (InterpretFirstUtfByte_cases b None)
    as [(count & l & Hcount & ->) | (Hfall & ->)].
  - left. exists count, l. split; [exact Hcount | split; [reflexivity |]].
    apply ReadUtfLetter_loop_assigned.
  - right. split; [exact Hfall | reflexivity].
Qed.

Lemma continuation_ok_length (buffer : list byte) (count i : nat) :
  (i < length buffer)%nat ->
  continuation_ok buffer i count = true ->
  (i + count < length buffer)%nat.
Proof.
  intros Hi H. destruct count as [| count]; [lia |].
  destruct (proj1 (continuation_ok_true buffer (S count) i) H (S count)
              ltac:(lia)) as (b & Hb & _).
  apply nth_error_Some. congruence.
Qed.

(** A successful [ReadUtfLetter] assigns the letter and consumes between
    one and five bytes, all inside the buffer. *)
Lemma ReadUtfLetter_true (buffer : list byte) (i j : nat) (l : option Z) :
  (i < length buffer)%nat ->
  ReadUtfLetter buffer i None = Returns (true, (j, l)) ->
  (exists v, l = Some v) /\ (i < j <= length buffer)%nat /\ (j - i <= 5)%nat.
Proof.
  intros Hi H.
  destruct (nth_error buffer i) as [b |] eqn:Hb;
    [| apply nth_error_None in Hb; lia].
  destruct (ReadUtfLetter_cases buffer i b Hb)
    as [(count & v & Hcount & _ & Hrun) | (_ & Hrun)];
    [| congruence].
  destruct (continuation_ok buffer i count) eqn:Hok.
  - destruct Hrun as (l' & Hrun). rewrite Hrun in H. injection H as <- <-.
    pose proof (continuation_ok_length buffer count i Hi Hok).
    split; [eexists; reflexivity | lia].
  - destruct Hrun as (st & Hrun). congruence.
Qed.

Lemma ReadUtfLetter_not_OutOfFuel (buffer : list byte) (i : nat) :
  ReadUtfLetter buffer i None <> OutOfFuel.
Proof.
  destruct (nth_error buffer i) as [b |] eqn:Hb.
  - destruct (ReadUtfLetter_cases buffer i b Hb)
      as [(count & v & _ & _ & Hrun) | (_ & Hrun)]; [| congruence].
    destruct (continuation_ok buffer i count);
      destruct Hrun as (x & Hrun); congruence.
  - unfold ReadUtfLetter. rewrite Hb.
    destruct (length buffer <=? i)%nat; discriminate.
Qed.

(** One round of the loop of [ReadUtfLetters]. *)
Lemma ReadUtfLetters_loop_S (fuel : nat) (buffer : list byte) (i : nat)
    (letters : list Z) (letterInfos : list LetterInfo) :
  ReadUtfLetters_loop (S fuel) buffer i letters letterInfos =
  if (i <? length buffer)%nat then
    match ReadUtfLetter buffer i None with
    | Returns (false, _) => Returns None
    | Returns (true, (_, None)) => Indeterminate
    | Returns (true, (j, Some letter)) =>
        ReadUtfLetters_loop fuel buffer j (letters ++ [letter])
          (letterInfos ++
             [ {| bufferOffset := i;
                  bytesCount := Z.of_nat (j - i) mod 256 |} ])
    | Indeterminate => Indeterminate
    | OutOfFuel => OutOfFuel
    | Throws => Throws
    end
  else Returns (Some (letters, letterInfos)).
Proof. reflexivity. Qed.

Lemma ReadUtfLetters_loop_done (fuel : nat) (buffer : list byte) (i : nat)
    (letters : list Z) (letterInfos : list LetterInfo) :
  (length buffer <= i)%nat ->
  ReadUtfLetters_loop fuel buffer i letters letterInfos
  = Returns (Some (letters, letterInfos)).
Proof.
  intros H. destruct fuel; cbn [ReadUtfLetters_loop];
    destruct (Nat.ltb_spec i (length buffer)); solve [lia | reflexivity].
Qed.

Lemma appended_appended (l1 l2 : list Z) (i1 i2 : list LetterInfo) r :
  appended l1 i1 (appended l2 i2 r) = appended (l1 ++ l2) (i1 ++ i2) r.
Proof.
  destruct r as [[[ls infos] |] | | |]; cbn [appended]; try reflexivity.
  now rewrite !app_assoc.
Qed.

Lemma ReadUtfLetters_loop_appended (buffer : list byte) (fuel : nat) :
  forall i letters letterInfos,
    ReadUtfLetters_loop fuel buffer i letters letterInfos
    = appended letters letterInfos (ReadUtfLetters_loop fuel buffer i [] []).
Proof.
  induction fuel as [| fuel IH]; intros i letters letterInfos.
  - cbn [ReadUtfLetters_loop].
    destruct (i <? length buffer)%nat; cbn [appended];
      now rewrite ?app_nil_r.
  - rewrite !ReadUtfLetters_loop_S.
    destruct (i <? length buffer)%nat;
      [| cbn [appended]; now rewrite !app_nil_r].
    destruct (ReadUtfLetter buffer i None) as [[[] [j [l |]]] | | |];
      try reflexivity.
    rewrite IH. rewrite (IH j ([] ++ [l])).
    now rewrite appended_appended.
Qed.

(** The loop never runs out of rounds when it is given one round for
    each byte that is left. *)
Lemma ReadUtfLetters_loop_fuel (buffer : list byte) (fuel : nat) :
  forall i letters letterInfos,
    (length buffer - i <= fuel)%nat ->
    ReadUtfLetters_loop fuel buffer i letters letterInfos <> OutOfFuel.
Proof.
  induction fuel as [| fuel IH]; intros i letters letterInfos Hfuel.
  - rewrite ReadUtfLetters_loop_done by lia. discriminate.
  - rewrite ReadUtfLetters_loop_S.
    destruct (Nat.ltb_spec i (length buffer)) as [Hi |]; [| discriminate].
    pose proof (ReadUtfLetter_not_OutOfFuel buffer i) as Hno.
    destruct (ReadUtfLetter buffer i None) as [[[] [j [l |]]] | | |] eqn:Hrun;
      try discriminate; try congruence.
    apply ReadUtfLetter_true in Hrun as (_ & Hj & _); [| exact Hi].
    apply IH. lia.
Qed.

Lemma ReadUtfLetters_terminates (buffer : list byte) :
  ReadUtfLetters buffer <> OutOfFuel.
Proof. apply ReadUtfLetters_loop_fuel. lia. Qed.

Lemma spans_tile_le (letterInfos : list LetterInfo) :
  forall offset stop,
    spans_tile offset letterInfos stop -> (offset <= stop)%nat.
Proof.
  induction letterInfos as [| li rest IH]; intros offset stop H.
  - cbn in H. lia.
  - destruct H as (_ & _ & H). apply IH in H. lia.
Qed.

Lemma spans_tile_app (a b : list LetterInfo) :
  forall offset stop,
    spans_tile offset (a ++ b) stop <->
    exists middle, spans_tile offset a middle /\ spans_tile middle b stop.
Proof.
  induction a as [| li a IH]; intros offset stop; cbn [app spans_tile].
  - split.
    + intros H. exists offset. auto.
    + intros (middle & -> & H). exact H.
  - rewrite IH. split.
    + intros (Ho & Hpos & middle & Ha & Hb). exists middle. auto.
    + intros (middle & (Ho & Hpos & Ha) & Hb).
      split; [exact Ho | split; [exact Hpos |]]. exists middle. auto.
Qed.

Lemma firstn_plus {A : Type} (n m : nat) (l : list A) :
  firstn (n + m) l = firstn n l ++ firstn m (skipn n l).
Proof.
  revert l. induction n as [| n IH]; intros l; [reflexivity |].
  destruct l as [| x l]; cbn [Nat.add firstn skipn app].
  - now rewrite firstn_nil.
  - now rewrite IH.
Qed.

(** Written one after the other, tiling spans give back the bytes that
    they cover. *)
Lemma write_letter_tile (buffer : list byte) (letterInfos : list LetterInfo) :
  forall offset stop,
    spans_tile offset letterInfos stop ->
    flat_map (write_letter buffer) letterInfos
    = firstn (stop - offset) (skipn offset buffer).
Proof.
  induction letterInfos as [| li rest IH]; intros offset stop H.
  - cbn in H. subst. now rewrite Nat.sub_diag.
  - destruct H as (Ho & Hpos & H). cbn [flat_map].
    pose proof (spans_tile_le _ _ _ H) as Hle.
    rewrite (IH _ _ H). unfold write_letter. rewrite Ho.
    set (n := Z.to_nat (bytesCount li)) in *.
    replace (stop - offset)%nat with (n + (stop - (offset + n)))%nat by lia.
    rewrite firstn_plus. f_equal.
    rewrite skipn_skipn. f_equal. f_equal. lia.
Qed.

Lemma ReadUtfLetters_loop_spans (buffer : list byte) (fuel : nat) :
  forall i letters letterInfos,
    (i <= length buffer)%nat ->
    ReadUtfLetters_loop fuel buffer i [] []
    = Returns (Some (letters, letterInfos)) ->
    spans_tile i letterInfos (length buffer) /\
    length letters = length letterInfos.
Proof.
  induction fuel as [| fuel IH]; intros i letters letterInfos Hi.
  - cbn [ReadUtfLetters_loop].
    destruct (Nat.ltb_spec i (length buffer)); [discriminate |].
    intros [= <- <-]. split; [cbn; lia | reflexivity].
  - rewrite ReadUtfLetters_loop_S.
    destruct (Nat.ltb_spec i (length buffer)) as [Hlt |].
    + destruct (ReadUtfLetter buffer i None) as [[[] [j [l |]]] | | |] eqn:Hrun;
        try discriminate.
      apply ReadUtfLetter_true in Hrun as (_ & Hj & Hfive); [| exact Hlt].
      rewrite ReadUtfLetters_loop_appended.
      destruct (ReadUtfLetters_loop fuel buffer j [] [])
        as [[[ls infos] |] | | |] eqn:Hrest; try discriminate.
      cbn [appended app]. intros [= <- <-].
      destruct (IH j ls infos ltac:(lia) Hrest) as (Htile & Hlen).
      split; [| cbn [length]; congruence].
      cbn [spans_tile bufferOffset bytesCount].
      rewrite Z.mod_small by lia.
      split; [reflexivity | split; [lia |]].
      replace (i + Z.to_nat (Z.of_nat (j - i)))%nat with j by lia.
      exact Htile.
    + intros [= <- <-]. split; [cbn; lia | reflexivity].
Qed.

End Decoder.

(** C4, as the code has it. A first byte with bit 7 clear is a letter of
    one byte whose value is the byte. Otherwise, when [p] is the highest
    zero bit among bits 5 down to 2 (bit 6 and bit 1 are not looked at),
    the byte count is [7 - p] and the letter starts as the low [p] bits
    of the byte; [ReadUtfLetter] then takes exactly [6 - p] continuation
    bytes, and fails when one of them is missing or is not one. *)
Theorem InterpretFirstUtfByte_spec (b : byte) :
  (Z.testbit (u8 b) 7 = false ->
   (forall bytesCount letter,
      encoding.InterpretFirstUtfByte b bytesCount letter
      = (true, (Some 1%nat, Some (u8 b)))) /\
   (forall buffer i,
      nth_error buffer i = Some b ->
      encoding.ReadUtfLetter buffer i None
      = Returns (true, (S i, Some (u8 b))))) /\
  (Z.testbit (u8 b) 7 = true ->
   forall p, highest_zero_bit 2 5 b p ->
   (forall bytesCount letter,
      encoding.InterpretFirstUtfByte b bytesCount letter
      = (true, (Some (1 + (6 - Z.to_nat p))%nat, Some (u8 b mod 2 ^ p)))) /\
   (forall buffer i,
      nth_error buffer i = Some b ->
      if continuation_ok buffer i (6 - Z.to_nat p)
      then exists l,
          encoding.ReadUtfLetter buffer i None
          = Returns (true, (i + 1 + (6 - Z.to_nat p), Some l))%nat
      else exists st,
          encoding.ReadUtfLetter buffer i None = Returns (false, st))).
Proof.
  split.
  - intros H7.
    pose proof (InterpretFirstUtfByte_one_byte b) as Hfirst.
    split; [intros; now apply Hfirst |].
    intros buffer i Hb.
    assert (Hi : (i < length buffer)%nat)
      by (apply nth_error_Some; congruence).
    unfold encoding.ReadUtfLetter.
    destruct (Nat.leb_spec (length buffer) i); [lia |].
    rewrite Hb, (Hfirst None None H7). reflexivity.
  - intros H7 p Hp.
    pose proof (fun bc l => InterpretFirstUtfByte_lead b bc l p H7 Hp)
      as Hfirst.
    split; [exact Hfirst |].
    intros buffer i Hb.
    destruct (ReadUtfLetter_cases buffer i b Hb)
      as [(count & l & _ & Hassigned & Hrun) | (Hfall & _)].
    + rewrite Hfirst in Hassigned.
      assert (Hcount : (1 + (6 - Z.to_nat p))%nat = S count) by congruence.
      replace (6 - Z.to_nat p)%nat with count by lia.
      replace (i + 1 + count)%nat with (i + S count)%nat by lia.
      exact Hrun.
    + specialize (Hfirst None None).
      rewrite (scan_falls_through_first b Hfall) in Hfirst.
      discriminate Hfirst.
Qed.

Lemma InterpretFirstUtfByte_spec_witness :
  encoding.InterpretFirstUtfByte xd0 None None
  = (true, (Some 2%nat, Some 16)) /\
  exists l, encoding.ReadUtfLetter [xd0; xb0] 0 None
            = Returns (true, (2%nat, Some l)).
Proof.
  assert (H7 : Z.testbit (u8 xd0) 7 = true) by reflexivity.
  assert (Hp : highest_zero_bit 2 5 xd0 5).
  { split; [lia | split; [reflexivity | intros q Hq; lia]]. }
  destruct (proj2 (InterpretFirstUtfByte_spec xd0) H7 5 Hp) as (H1 & H2).
  split; [exact (H1 None None) |].
  exact (H2 [xd0; xb0] 0%nat eq_refl).
Defined.

(** C4 as the specification words it fails at the first byte [0xFC]:
    bit 7 is set and the highest zero bit among bits 6 down to 1 is
    bit 1, yet no byte count of 6 and no letter is produced. *)
Lemma InterpretFirstUtfByte_bit1_counterexample :
  Z.testbit (u8 xfc) 7 = true /\
  highest_zero_bit 1 6 xfc 1 /\
  1 <= 1 <= 5 /\
  encoding.InterpretFirstUtfByte xfc None None
  <> (true, (Some (1 + (6 - Z.to_nat 1))%nat, Some (u8 xfc mod 2 ^ 1))).
Proof.
  split; [reflexivity | split; [| split; [lia | vm_compute; discriminate]]].
  split; [lia | split; [reflexivity |]].
  intros q Hq.
  assert (q = 2 \/ q = 3 \/ q = 4 \/ q = 5 \/ q = 6) as Hc by lia.
  destruct Hc as [-> | [-> | [-> | [-> | ->]]]]; reflexivity.
Qed.

(** C6. When the decoder accepts a buffer, the recorded spans start at
    offset 0, follow one another without gap or overlap, end at the end
    of the buffer, and written out in order they give the buffer back;
    there is one span for each letter. *)
Theorem ReadUtfLetters_spans_roundtrip (buffer : list byte)
    (letters : list Z) (letterInfos : list encoding.LetterInfo) :
  encoding.ReadUtfLetters buffer = Returns (Some (letters, letterInfos)) ->
  flat_map (write_letter buffer) letterInfos = buffer /\
  spans_tile 0 letterInfos (length buffer) /\
  length letterInfos = length letters.
Proof.
  intros H.
  destruct (ReadUtfLetters_loop_spans buffer (length buffer) 0 letters
              letterInfos (Nat.le_0_l _) H) as (Htile & Hlen).
  split; [| split; [exact Htile | now symmetry]].
  rewrite (write_letter_tile buffer letterInfos 0 (length buffer) Htile).
  rewrite Nat.sub_0_r. cbn [skipn]. apply firstn_all.
Qed.

Lemma ReadUtfLetters_spans_roundtrip_witness :
  flat_map (write_letter [xd0; xb0; x20; xd0; x90])
    [ encoding.mkLetterInfo 0 2; encoding.mkLetterInfo 2 1;
      encoding.mkLetterInfo 3 2 ]
  = [xd0; xb0; x20; xd0; x90].
Proof.
  exact (proj1 (ReadUtfLetters_spans_roundtrip
                  [xd0; xb0; x20; xd0; x90] [1072; 32; 1040]
                  [ encoding.mkLetterInfo 0 2; encoding.mkLetterInfo 2 1;
                    encoding.mkLetterInfo 3 2 ]
                  eq_refl)).
Defined.

(** ** Exit codes *)

Lemma ReadUtfLetters_loop_fails_at (buffer : list byte) (i s : nat) :
  reaches buffer i s ->
  forall fuel letters letterInfos st,
    (s < length buffer)%nat ->
    encoding.ReadUtfLetter buffer s None = Returns (false, st) ->
    (length buffer - i <= fuel)%nat ->
    encoding.ReadUtfLetters_loop fuel buffer i letters letterInfos
    = Returns None.
Proof.
  induction 1 as [i | i j s l Hi Hrun Hreach IH];
    intros fuel letters letterInfos st Hs Hfail Hfuel.
  - destruct fuel as [| fuel]; [lia |].
    rewrite ReadUtfLetters_loop_S.
    destruct (Nat.ltb_spec i (length buffer)); [| lia].
    rewrite Hfail. reflexivity.
  - destruct fuel as [| fuel]; [lia |].
    rewrite ReadUtfLetters_loop_S.
    destruct (Nat.ltb_spec i (length buffer)); [| lia].
    rewrite Hrun.
    apply ReadUtfLetter_true in Hrun as (_ & Hj & _); [| exact Hi].
    apply (IH fuel _ _ st Hs Hfail). lia.
Qed.

Lemma ReadUtfLetters_loop_fails (buffer : list byte) (fuel : nat) :
  forall i letters letterInfos,
    encoding.ReadUtfLetters_loop fuel buffer i letters letterInfos
    = Returns None ->
    exists s st,
      reaches buffer i s /\ (s < length buffer)%nat /\
      encoding.ReadUtfLetter buffer s None = Returns (false, st).
Proof.
  induction fuel as [| fuel IH]; intros i letters letterInfos.
  - cbn [encoding.ReadUtfLetters_loop].
    destruct (i <? length buffer)%nat; discriminate.
  - rewrite ReadUtfLetters_loop_S.
    destruct (Nat.ltb_spec i (length buffer)) as [Hi |]; [| discriminate].
    destruct (encoding.ReadUtfLetter buffer i None)
      as [[ok [j l]] | | |] eqn:Hrun; try discriminate.
    destruct ok.
    + destruct l as [l |]; [| discriminate].
      intros H. apply IH in H as (s & st & Hreach & Hs & Hfail).
      exists s, st. split; [| auto].
      exact (reaches_step buffer i j s l Hi Hrun Hreach).
    + intros _. exists i. eexists. split; [constructor | split; eauto].
Qed.

Lemma ReadUtfLetter_false_iff (buffer : list byte) (s : nat) :
  (s < length buffer)%nat ->
  (exists st, encoding.ReadUtfLetter buffer s None = Returns (false, st))
  <-> sequence_broken_at buffer s.
Proof.
  intros Hs.
  destruct (nth_error buffer s) as [b |] eqn:Hb;
    [| apply nth_error_None in Hb; lia].
  unfold sequence_broken_at.
  destruct (ReadUtfLetter_cases buffer s b Hb)
    as [(count & l & Hcount & Hfirst & Hrun) | (Hfall & Hrun)].
  - destruct (continuation_ok buffer s count) eqn:Hok.
    + destruct Hrun as (l' & Hrun). split.
      * intros (st & Hst). congruence.
      * intros (b' & count' & l1 & k & Hb' & Hfirst' & Hk & Hbad).
        assert (b' = b) by congruence. subst b'.
        assert (count' = count) by congruence. subst count'.
        assert (Hnot : continuation_ok buffer s count = false)
          by (apply continuation_ok_false; eauto).
        congruence.
    + split.
      * intros _. apply continuation_ok_false in Hok as (k & Hk & Hbad).
        exists b, count, l, k. auto.
      * intros _. exact Hrun.
  - split.
    + intros (st & Hst). congruence.
    + intros (b' & count' & l1 & k & Hb' & Hfirst' & _).
      assert (b' = b) by congruence. subst b'.
      destruct (InterpretFirstUtfByte_cases b None)
        as [(c2 & l2 & _ & H2) | (_ & H2)].
      * rewrite (scan_falls_through_first b Hfall) in H2. discriminate.
      * congruence.
Qed.

Lemma ReadUtfLetters_rejects_iff (buffer : list byte) :
  encoding.ReadUtfLetters buffer = Returns None <->
  exists s, letter_start buffer s /\ sequence_broken_at buffer s.
Proof.
  unfold encoding.ReadUtfLetters, letter_start. split.
  - intros H. apply ReadUtfLetters_loop_fails in H
      as (s & st & Hreach & Hs & Hfail).
    exists s. split; [exact Hreach |].
    apply ReadUtfLetter_false_iff; eauto.
  - intros (s & Hreach & Hbroken).
    assert (Hs : (s < length buffer)%nat).
    { destruct Hbroken as (b & _ & _ & _ & Hb & _).
      apply nth_error_Some. congruence. }
    apply ReadUtfLetter_false_iff in Hbroken as (st & Hfail); [| exact Hs].
    apply (ReadUtfLetters_loop_fails_at buffer 0 s Hreach _ _ _ st Hs Hfail).
    lia.
Qed.

Lemma ReadUtfLetter_falls_through (buffer : list byte) (s : nat) (b : byte) :
  nth_error buffer s = Some b ->
  scan_falls_through b ->
  forall letter, encoding.ReadUtfLetter buffer s letter = Indeterminate.
Proof.
  intros Hb Hfall letter. unfold encoding.ReadUtfLetter.
  assert (Hs : (s < length buffer)%nat) by (apply nth_error_Some; congruence).
  destruct (Nat.leb_spec (length buffer) s); [lia |].
  rewrite Hb, (scan_falls_through_first b Hfall). reflexivity.
Qed.

Lemma ReadUtfLetters_loop_indeterminate_at (buffer : list byte) (i s : nat) :
  reaches buffer i s ->
  forall fuel letters letterInfos,
    (s < length buffer)%nat ->
    encoding.ReadUtfLetter buffer s None = Indeterminate ->
    (length buffer - i <= fuel)%nat ->
    encoding.ReadUtfLetters_loop fuel buffer i letters letterInfos
    = Indeterminate.
Proof.
  induction 1 as [i | i j s l Hi Hrun Hreach IH];
    intros fuel letters letterInfos Hs Hind Hfuel;
    (destruct fuel as [| fuel]; [lia |]);
    rewrite ReadUtfLetters_loop_S;
    (destruct (Nat.ltb_spec i (length buffer)); [| lia]).
  - rewrite Hind. reflexivity.
  - rewrite Hrun.
    apply ReadUtfLetter_true in Hrun as (_ & Hj & _); [| exact Hi].
    apply (IH fuel _ _ Hs Hind). lia.
Qed.

(** ** Memory that holds values *)

(** A first byte either assigns both cells, whatever they held, or is
    one of those on which the scan assigns nothing. *)
Lemma InterpretFirstUtfByte_cells (b : byte) :
  (exists count l, (count <= 4)%nat /\
     forall bytesCount letter,
       encoding.InterpretFirstUtfByte b bytesCount letter
       = (true, (Some (S count), Some l)))
  \/ scan_falls_through b.
Proof.
  destruct b;
    first [ left; eexists; eexists; split; [| intros; reflexivity]; cbn; lia
          | right; repeat split ].
Qed.

(** Where the first byte assigns the count, what the memory held does
    not matter. *)
Lemma holding_ReadUtfLetter_assigned (buffer : list byte) (i : nat)
    (b : byte) :
  nth_error buffer i = Some b ->
  ~ scan_falls_through b ->
  forall count0 letter,
    holding.ReadUtfLetter count0 buffer i letter
    = encoding.ReadUtfLetter buffer i None.
Proof.
  intros Hb Hno count0 letter.
  assert (Hi : (i < length buffer)%nat) by (apply nth_error_Some; congruence).
  unfold holding.ReadUtfLetter, encoding.ReadUtfLetter.
  destruct (Nat.leb_spec (length buffer) i); [lia |]. rewrite Hb.
  destruct (InterpretFirstUtfByte_cells b)
    as [(count & l & _ & Hfirst) | Hfall]; [| contradiction].
  now rewrite !Hfirst.
Qed.

(** Where it assigns nothing, the loop runs on what the memory held. *)
Lemma holding_ReadUtfLetter_falls_through (buffer : list byte) (i : nat)
    (b : byte) :
  nth_error buffer i = Some b ->
  scan_falls_through b ->
  forall count0 letter,
    holding.ReadUtfLetter count0 buffer i letter
    = encoding.ReadUtfLetter_loop buffer count0 i letter.
Proof.
  intros Hb Hfall count0 letter.
  assert (Hi : (i < length buffer)%nat) by (apply nth_error_Some; congruence).
  unfold holding.ReadUtfLetter.
  destruct (Nat.leb_spec (length buffer) i); [lia |].
  now rewrite Hb, (scan_falls_through_first b Hfall).
Qed.

(** The loop of [ReadUtfLetter] on a count and a letter that hold
    values. *)
Lemma ReadUtfLetter_loop_held (buffer : list byte) (count0 i : nat)
    (letter0 : Z) :
  ((count0 <= 1)%nat ->
   encoding.ReadUtfLetter_loop buffer count0 i (Some letter0)
   = Returns (true, (S i, Some letter0))) /\
  ((2 <= count0)%nat ->
   if continuation_ok buffer i (count0 - 1)
   then exists l',
       encoding.ReadUtfLetter_loop buffer count0 i (Some letter0)
       = Returns (true, ((i + count0)%nat, Some l'))
   else exists st,
       encoding.ReadUtfLetter_loop buffer count0 i (Some letter0)
       = Returns (false, st)).
Proof.
  split; intros Hcount.
  - destruct count0 as [| [| count0]]; [reflexivity | reflexivity | lia].
  - destruct count0 as [| count0]; [lia |].
    replace (S count0 - 1)%nat with count0 by lia.
    exact (ReadUtfLetter_loop_assigned buffer count0 i letter0).
Qed.

(** On memory that holds values a call of [ReadUtfLetter] inside the
    buffer returns: [true] with a letter and an index further on, or
    [false]. *)
Lemma holding_ReadUtfLetter_returns (count0 : nat) (buffer : list byte)
    (i : nat) (letter0 : Z) :
  (i < length buffer)%nat ->
  (exists j l',
      holding.ReadUtfLetter count0 buffer i (Some letter0)
      = Returns (true, (j, Some l')) /\ (i < j <= length buffer)%nat)
  \/ exists st,
      holding.ReadUtfLetter count0 buffer i (Some letter0)
      = Returns (false, st).
Proof.
  intros Hi.
  destruct (nth_error buffer i) as [b |] eqn:Hb;
    [| apply nth_error_None in Hb; lia].
  destruct (InterpretFirstUtfByte_cells b)
    as [(count & l & _ & Hfirst) | Hfall].
  - assert (Hno : ~ scan_falls_through b).
    { intros Hfall. pose proof (Hfirst None None) as Hf.
      rewrite (scan_falls_through_first b Hfall None None) in Hf.
      discriminate Hf. }
    rewrite (holding_ReadUtfLetter_assigned buffer i b Hb Hno).
    destruct (ReadUtfLetter_cases buffer i b Hb)
      as [(c & v & _ & _ & Hrun) | (Hfall & _)]; [| contradiction].
    destruct (continuation_ok buffer i c) eqn:Hok.
    + destruct Hrun as (l' & Hrun). left. exists (i + S c)%nat, l'.
      split; [exact Hrun |].
      pose proof (continuation_ok_length buffer c i Hi Hok). lia.
    + right. exact Hrun.
  - rewrite (holding_ReadUtfLetter_falls_through buffer i b Hb Hfall).
    destruct (ReadUtfLetter_loop_held buffer count0 i letter0)
      as (Hsmall & Hlarge).
    destruct (Nat.le_gt_cases count0 1) as [Hle | Hgt].
    + left. exists (S i), letter0. split; [now apply Hsmall | lia].
    + specialize (Hlarge Hgt).
      destruct (continuation_ok buffer i (count0 - 1)) eqn:Hok.
      * destruct Hlarge as (l' & Hrun). left. exists (i + count0)%nat, l'.
        split; [exact Hrun |].
        pose proof (continuation_ok_length buffer _ i Hi Hok). lia.
      * right. exact Hlarge.
Qed.

Lemma holding_ReadUtfLetters_loop_S (held : holding.memory) (fuel : nat)
    (buffer : list byte) (i : nat) (letters : list Z)
    (letterInfos : list encoding.LetterInfo) :
  holding.ReadUtfLetters_loop held (S fuel) buffer i letters letterInfos =
  if (i <? length buffer)%nat then
    match holding.ReadUtfLetter (fst (held i)) buffer i
            (Some (snd (held i))) with
    | Returns (false, _) => Returns None
    | Returns (true, (_, None)) => Indeterminate
    | Returns (true, (j, Some letter)) =>
        holding.ReadUtfLetters_loop held fuel buffer j (letters ++ [letter])
          (letterInfos ++
             [ {| encoding.bufferOffset := i;
                  encoding.bytesCount := Z.of_nat (j - i) mod 256 |} ])
    | Indeterminate => Indeterminate
    | OutOfFuel => OutOfFuel
    | Throws => Throws
    end
  else Returns (Some (letters, letterInfos)).
Proof. reflexivity. Qed.

(** The loop of [ReadUtfLetters] on memory that holds values returns. *)
Lemma holding_ReadUtfLetters_loop_returns (held : holding.memory)
    (buffer : list byte) (fuel : nat) :
  forall i letters letterInfos,
    (length buffer - i <= fuel)%nat ->
    exists r,
      holding.ReadUtfLetters_loop held fuel buffer i letters letterInfos
      = Returns r.
Proof.
  induction fuel as [| fuel IH]; intros i letters letterInfos Hfuel.
  - cbn [holding.ReadUtfLetters_loop].
    destruct (Nat.ltb_spec i (length buffer)); [lia | eauto].
  - rewrite holding_ReadUtfLetters_loop_S.
    destruct (Nat.ltb_spec i (length buffer)) as [Hi |]; [| eauto].
    destruct (holding_ReadUtfLetter_returns (fst (held i)) buffer i
                (snd (held i)) Hi)
      as [(j & l' & -> & Hj) | (st & ->)]; [| eauto].
    apply IH. lia.
Qed.

(** Where the embedding that stops at the first read of an unassigned
    cell gives a result, the run on memory that holds values gives the
    same one. *)
Lemma holding_ReadUtfLetters_loop_agrees (held : holding.memory)
    (buffer : list byte) (fuel : nat) :
  forall i letters letterInfos r,
    encoding.ReadUtfLetters_loop fuel buffer i letters letterInfos
    = Returns r ->
    holding.ReadUtfLetters_loop held fuel buffer i letters letterInfos
    = Returns r.
Proof.
  induction fuel as [| fuel IH]; intros i letters letterInfos r.
  - cbn [encoding.ReadUtfLetters_loop holding.ReadUtfLetters_loop].
    destruct (i <? length buffer)%nat; [discriminate | auto].
  - rewrite ReadUtfLetters_loop_S, holding_ReadUtfLetters_loop_S.
    destruct (Nat.ltb_spec i (length buffer)) as [Hi |]; [| auto].
    destruct (nth_error buffer i) as [b |] eqn:Hb;
      [| apply nth_error_None in Hb; lia].
    destruct (ReadUtfLetter_cases buffer i b Hb)
      as [(count & l & _ & Hfirst & _) | (Hfall & ->)]; [| discriminate].
    assert (Hno : ~ scan_falls_through b).
    { intros Hfall.
      rewrite (scan_falls_through_first b Hfall None None) in Hfirst.
      discriminate Hfirst. }
    rewrite (holding_ReadUtfLetter_assigned buffer i b Hb Hno).
    destruct (encoding.ReadUtfLetter buffer i None)
      as [[[] [j [l' |]]] | | |]; auto.
Qed.

Lemma ReadUtfLetters_not_Throws (buffer : list byte) :
  encoding.ReadUtfLetters buffer <> Throws.
Proof.
  unfold encoding.ReadUtfLetters. generalize (length buffer) at 1.
  intros fuel. generalize 0%nat, (@nil Z), (@nil encoding.LetterInfo).
  induction fuel as [| fuel IH]; intros i letters letterInfos.
  - cbn [encoding.ReadUtfLetters_loop].
    destruct (i <? length buffer)%nat; discriminate.
  - rewrite ReadUtfLetters_loop_S.
    destruct (Nat.ltb_spec i (length buffer)) as [Hi |]; [| discriminate].
    destruct (nth_error buffer i) as [b |] eqn:Hb;
      [| apply nth_error_None in Hb; lia].
    destruct (ReadUtfLetter_cases buffer i b Hb)
      as [(count & l & _ & _ & Hrun) | (_ & ->)]; [| discriminate].
    destruct (continuation_ok buffer i count).
    + destruct Hrun as (l' & ->). apply IH.
    + destruct Hrun as (st & ->). discriminate.
Qed.

(** C10. On a first byte with bit 7 and bits 5, 4, 3, 2 all set (the
    bytes 0xBC..0xBF and 0xFC..0xFF), [InterpretFirstUtfByte] returns
    [true] and leaves both cells as they were. [ReadUtfLetter] therefore
    reports no failure at the first byte and comes to read its byte
    count, which nothing has assigned. Its loop then runs on whatever
    the memory of the count and of the letter holds: with a count of 0
    or 1 it takes the byte for a letter of the held value; with a
    greater count it reads that many bytes less one as continuation
    bytes of the held letter, and it reports a failure exactly if one of
    them is missing or is not a continuation byte. *)
Theorem InterpretFirstUtfByte_unassigned (b : byte) :
  scan_falls_through b ->
  (188 <= u8 b <= 191 \/ 252 <= u8 b <= 255) /\
  (forall bytesCount letter,
     encoding.InterpretFirstUtfByte b bytesCount letter
     = (true, (bytesCount, letter))) /\
  (forall buffer startIndex letter,
     nth_error buffer startIndex = Some b ->
     encoding.ReadUtfLetter buffer startIndex letter = Indeterminate) /\
  (forall buffer startIndex count0 letter,
     nth_error buffer startIndex = Some b ->
     holding.ReadUtfLetter count0 buffer startIndex letter
     = encoding.ReadUtfLetter_loop buffer count0 startIndex letter) /\
  (forall buffer startIndex count0 letter0,
     nth_error buffer startIndex = Some b ->
     ((count0 <= 1)%nat ->
      holding.ReadUtfLetter count0 buffer startIndex (Some letter0)
      = Returns (true, (S startIndex, Some letter0))) /\
     ((2 <= count0)%nat ->
      if continuation_ok buffer startIndex (count0 - 1)
      then exists l',
          holding.ReadUtfLetter count0 buffer startIndex (Some letter0)
          = Returns (true, ((startIndex + count0)%nat, Some l'))
      else exists st,
          holding.ReadUtfLetter count0 buffer startIndex (Some letter0)
          = Returns (false, st))).
Proof.
  intros H. split; [apply scan_falls_through_bytes; exact H |].
  split; [exact (scan_falls_through_first b H) |].
  split; [| split].
  - intros buffer startIndex letter Hnth.
    exact (ReadUtfLetter_falls_through buffer startIndex b Hnth H letter).
  - intros buffer startIndex count0 letter Hnth.
    exact (holding_ReadUtfLetter_falls_through buffer startIndex b Hnth H
             count0 letter).
  - intros buffer startIndex count0 letter0 Hnth.
    rewrite (holding_ReadUtfLetter_falls_through buffer startIndex b Hnth H).
    exact (ReadUtfLetter_loop_held buffer count0 startIndex letter0).
Qed.

Lemma InterpretFirstUtfByte_unassigned_witness :
  (forall bytesCount letter,
     encoding.InterpretFirstUtfByte xff bytesCount letter
     = (true, (bytesCount, letter))) /\
  encoding.ReadUtfLetter [x41; xff] 1 None = Indeterminate /\
  holding.ReadUtfLetter 1 [x41; xff] 1 (Some 7) = Returns (true, (2%nat, Some 7)) /\
  exists st, holding.ReadUtfLetter 3 [x41; xff] 1 (Some 7) = Returns (false, st).
Proof.
  assert (H : scan_falls_through xff) by (repeat split).
  pose proof (InterpretFirstUtfByte_unassigned xff H)
    as (_ & H1 & H2 & _ & H4).
  split; [exact H1 |].
  split; [exact (H2 [x41; xff] 1%nat None eq_refl) |].
  destruct (H4 [x41; xff] 1%nat 1%nat 7 eq_refl) as (Hsmall & _).
  destruct (H4 [x41; xff] 1%nat 3%nat 7 eq_refl) as (_ & Hlarge).
  split; [apply Hsmall; lia |].
  apply (Hlarge ltac:(lia)).
Defined.

(** ** Reading the input *)

Lemma ReadStreamToBuffer_Throws (input : istream) :
  ReadStreamToBuffer input = Throws <->
  PTRDIFF_MAX < size_t_wrap (stream_end input).
Proof.
  unfold ReadStreamToBuffer, new_uint8_array, istream_read.
  destruct (Z.ltb_spec PTRDIFF_MAX (size_t_wrap (stream_end input)));
    cbn [stream_bad stream_fail stream_eof].
  - tauto.
  - split; [| lia].
    destruct (stream_bad input || _ || _); discriminate.
Qed.


Lemma ReadStreamToBuffer_Some (input : istream) (buffer : list byte) :
  ReadStreamToBuffer input = Returns (Some buffer) <->
  size_t_wrap (stream_end input) <= PTRDIFF_MAX /\
  stream_bad input = false /\ stream_fail input = false /\
  stream_eof input = false /\
  Z.of_nat (length buffer) = size_t_wrap (stream_end input) /\
  buffer = firstn (length buffer) (stream_bytes input).
Proof.
  unfold ReadStreamToBuffer, new_uint8_array, istream_read.
  assert (Hsize : 0 <= size_t_wrap (stream_end input))
    by (apply Z.mod_pos_bound; reflexivity).
  destruct (Z.ltb_spec PTRDIFF_MAX (size_t_wrap (stream_end input)));
    cbn [stream_bad stream_fail stream_eof].
  - split; [discriminate | lia].
  - destruct (Nat.ltb_spec (length (stream_bytes input))
                (Z.to_nat (size_t_wrap (stream_end input)))) as [Hlt | Hge];
      destruct (stream_bad input), (stream_fail input), (stream_eof input);
      cbn [orb]; split; try discriminate;
        try (intros (_ & H1 & H2 & H3 & _); discriminate).
    + intros (_ & _ & _ & _ & Hlen & Heq).
      apply (f_equal (@length byte)) in Heq.
      rewrite length_firstn in Heq. lia.
    + intros [= <-]. rewrite length_firstn.
      rewrite Nat.min_l by lia. rewrite Z2Nat.id by lia. auto 10.
    + intros (_ & _ & _ & _ & Hlen & ->). do 3 f_equal. lia.
Qed.

Lemma ReadStreamToBuffer_run_on (buffer : list byte) :
  Z.of_nat (length buffer) <= PTRDIFF_MAX ->
  ReadStreamToBuffer (input (run_on buffer)) = Returns (Some buffer).
Proof.
  intros Hlen. apply ReadStreamToBuffer_Some.
  cbn [run_on input stream_end stream_bytes stream_bad stream_fail
       stream_eof].
  assert (Hwrap : size_t_wrap (Z.of_nat (length buffer))
                  = Z.of_nat (length buffer)).
  { unfold size_t_wrap. apply Z.mod_small.
    unfold PTRDIFF_MAX in Hlen. lia. }
  rewrite Hwrap, firstn_all. auto 10.
Qed.

(** ** The exit status *)

Lemma holding_ReadUtfLetters_returns (held : holding.memory)
    (buffer : list byte) :
  exists r, holding.ReadUtfLetters held buffer = Returns r.
Proof. apply holding_ReadUtfLetters_loop_returns. lia. Qed.

Lemma holding_ReadUtfLetters_agrees (held : holding.memory)
    (buffer : list byte) r :
  encoding.ReadUtfLetters buffer = Returns r ->
  holding.ReadUtfLetters held buffer = Returns r.
Proof. apply holding_ReadUtfLetters_loop_agrees. Qed.



Lemma Main_Throws (inv : invocation) :
  argc inv = 3 -> input_is_open inv = true -> output_is_open inv = true ->
  ReadStreamToBuffer (input inv) = Throws ->
  Main inv = Throws.
Proof.
  intros Hargc Hin Hout Hread. unfold Main.
  rewrite Hargc, Hin, Hout, Hread. reflexivity.
Qed.


(** C5. An input file that opens but whose size [tellg] does not give
    (it returns -1, as it does on a stream that cannot seek) is not
    answered with exit status 2. [ReadStreamToBuffer] does not test the
    stream before it allocates: it asks for [2^64 - 1] bytes, the
    allocation throws, nothing catches the exception, and [Main] does
    not return, so the process ends with none of the five exit
    statuses. The test that follows the [read] does answer with status
    2: a stream of known size that the read leaves with a state flag
    set makes [Main] return [InvalidInputFile]. *)
Theorem Main_input_without_size (inv : invocation) :
  argc inv = 3 ->
  input_is_open inv = true ->
  output_is_open inv = true ->
  stream_end (input inv) = -1 ->
  size_t_wrap (stream_end (input inv)) = 2 ^ 64 - 1 /\
  new_uint8_array (size_t_wrap (stream_end (input inv))) = None /\
  ReadStreamToBuffer (input inv) = Throws /\
  Main inv = Throws /\
  (forall e out, Main inv <> Returns (e, out)) /\
  (forall inv',
     argc inv' = 3 ->
     input_is_open inv' = true ->
     output_is_open inv' = true ->
     ReadStreamToBuffer (input inv') = Returns None ->
     Main inv' = Returns (InvalidInputFile, Some []) /\
     exit_status InvalidInputFile = 2).
Proof.
  intros Hargc Hin Hout Hend.
  assert (Hsize : size_t_wrap (stream_end (input inv)) = 2 ^ 64 - 1)
    by (rewrite Hend; reflexivity).
  assert (Hread : ReadStreamToBuffer (input inv) = Throws)
    by (apply ReadStreamToBuffer_Throws; rewrite Hsize; reflexivity).
  assert (Hmain : Main inv = Throws) by (now apply Main_Throws).
  split; [exact Hsize |].
  split; [rewrite Hsize; reflexivity |].
  split; [exact Hread |].
  split; [exact Hmain |].
  split; [intros e out; rewrite Hmain; discriminate |].
  intros inv' Hargc' Hin' Hout' Hread'.
  unfold Main. rewrite Hargc', Hin', Hout', Hread'.
  split; reflexivity.
Qed.

Lemma Main_input_without_size_witness :
  Main (mkInvocation 3 true true (mkIstream (-1) [] false true false))
  = Throws.
Proof.
  exact (proj1 (proj2 (proj2 (proj2
           (Main_input_without_size
              (mkInvocation 3 true true (mkIstream (-1) [] false true false))
              eq_refl eq_refl eq_refl eq_refl))))).
Defined.

(** ** The aggregator *)

Section Words.

Variable letters : list Z.

Lemma theSame_true (firstLetter wordStart remaining : nat) :
  forall k,
    theSame letters firstLetter wordStart k remaining = true <->
    forall i, (k <= i < k + remaining)%nat ->
      letter_at letters (firstLetter + i) = letter_at letters (wordStart + i).
Proof.
  induction remaining as [| remaining IH]; intros k; cbn [theSame].
  - split; [intros _ i Hi; lia | reflexivity].
  - destruct (Z.eqb_spec (letter_at letters (firstLetter + k))
                         (letter_at letters (wordStart + k))) as [He | Hne];
      cbn [negb].
    + rewrite IH. split.
      * intros H i Hi. destruct (Nat.eq_dec i k) as [-> | Hik]; [exact He |].
        apply H. lia.
      * intros H i Hi. apply H. lia.
    + split; [discriminate |]. intros H. exfalso. apply Hne, H. lia.
Qed.

Lemma matchesb_spec (firstLetter count : nat) (w : WordInfo) :
  matchesb letters firstLetter count w = true <-> matches letters firstLetter count w.
Proof.
  unfold matchesb, matches. rewrite andb_true_iff, Nat.eqb_eq, theSame_true.
  split.
  - intros [Hc H]. split; [exact Hc |]. intros i Hi. apply H. lia.
  - intros [Hc H]. split; [exact Hc |]. intros i Hi. apply H. lia.
Qed.

Lemma matchesb_false (firstLetter count : nat) (w : WordInfo) :
  matchesb letters firstLetter count w = false <-> ~ matches letters firstLetter count w.
Proof.
  rewrite <- matchesb_spec. destruct (matchesb letters firstLetter count w);
    split; congruence.
Qed.

Lemma matches_sym (a b : WordInfo) : same_content letters a b -> same_content letters b a.
Proof.
  unfold same_content, matches. intros [Hc H].
  split; [now symmetry |]. intros i Hi. symmetry. apply H. lia.
Qed.

Lemma matches_trans (firstLetter count : nat) (a b : WordInfo) :
  matches letters firstLetter count a -> same_content letters a b ->
  matches letters firstLetter count b.
Proof.
  unfold same_content, matches. intros [Hc H] [Hc' H'].
  split; [congruence |]. intros i Hi. rewrite H by exact Hi.
  apply H'. lia.
Qed.

(** One round of the search of [registerWord]. *)
Lemma registerWord_cons (word : WordInfo) (words : list WordInfo)
    (firstLetter count : nat) :
  registerWord letters (word :: words) firstLetter count =
  if matchesb letters firstLetter count word
  then {| startLetterIndex := startLetterIndex word;
          lettersCount := lettersCount word;
          entries := size_t_wrap (entries word + 1) |} :: words
  else word :: registerWord letters words firstLetter count.
Proof.
  cbn [registerWord]. unfold matchesb.
  destruct (lettersCount word =? count)%nat; cbn [negb andb];
    reflexivity.
Qed.

Lemma registerWord_new (words : list WordInfo) (firstLetter count : nat) :
  (forall w, In w words -> ~ matches letters firstLetter count w) ->
  registerWord letters words firstLetter count
  = words ++ [ {| startLetterIndex := firstLetter;
                  lettersCount := count;
                  entries := 1 |} ].
Proof.
  induction words as [| word words IH]; intros Hno; [reflexivity |].
  rewrite registerWord_cons.
  rewrite (proj2 (matchesb_false firstLetter count word))
    by (apply Hno; now left).
  cbn [app]. f_equal. apply IH. intros w Hw. apply Hno. now right.
Qed.

Lemma registerWord_found (pre post : list WordInfo) (word : WordInfo)
    (firstLetter count : nat) :
  (forall w, In w pre -> ~ matches letters firstLetter count w) ->
  matches letters firstLetter count word ->
  registerWord letters (pre ++ word :: post) firstLetter count
  = pre ++ {| startLetterIndex := startLetterIndex word;
              lettersCount := lettersCount word;
              entries := size_t_wrap (entries word + 1) |} :: post.
Proof.
  induction pre as [| x pre IH]; intros Hno Hword; cbn [app];
    rewrite registerWord_cons.
  - now rewrite (proj2 (matchesb_spec firstLetter count word) Hword).
  - rewrite (proj2 (matchesb_false firstLetter count x))
      by (apply Hno; now left).
    f_equal. apply IH; [| exact Hword]. intros w Hw. apply Hno. now right.
Qed.

(** The search either finds nothing or stops at the first record that
    matches. *)
Lemma registerWord_search (words : list WordInfo) (firstLetter count : nat) :
  (forall w, In w words -> ~ matches letters firstLetter count w) \/
  exists pre word post,
    words = pre ++ word :: post /\
    (forall w, In w pre -> ~ matches letters firstLetter count w) /\
    matches letters firstLetter count word.
Proof.
  induction words as [| x words IH]; [left; intros w [] |].
  destruct (matchesb letters firstLetter count x) eqn:Hx.
  - right. exists [], x, words. split; [reflexivity |].
    split; [intros w [] | now apply matchesb_spec].
  - apply matchesb_false in Hx.
    destruct IH as [Hno | (pre & word & post & -> & Hno & Hword)].
    + left. intros w [<- | Hw]; auto.
    + right. exists (x :: pre), word, post. split; [reflexivity |].
      split; [| exact Hword]. intros w [<- | Hw]; auto.
Qed.

End Words.

Section Invariant.

Variable letters : list Z.

Lemma same_content_keys (a b a' b' : WordInfo) :
  word_key a = word_key a' -> word_key b = word_key b' ->
  same_content letters a b -> same_content letters a' b'.
Proof.
  unfold word_key, same_content, matches.
  intros [= Ha1 Ha2] [= Hb1 Hb2]. now rewrite Ha1, Ha2, Hb1, Hb2.
Qed.

Lemma nth_error_same_keys (ws ws' : list WordInfo) (i : nat) (a : WordInfo) :
  map word_key ws = map word_key ws' ->
  nth_error ws' i = Some a ->
  exists a0, nth_error ws i = Some a0 /\ word_key a0 = word_key a.
Proof.
  intros Hk Ha.
  pose proof (nth_error_map word_key i ws) as H1.
  pose proof (nth_error_map word_key i ws') as H2.
  rewrite Hk, H2, Ha in H1.
  destruct (nth_error ws i) as [a0 |]; cbn [option_map] in H1;
    [| discriminate].
  exists a0. split; [reflexivity | congruence].
Qed.

Lemma distinct_words_keys (ws ws' : list WordInfo) :
  map word_key ws = map word_key ws' ->
  distinct_words letters ws -> distinct_words letters ws'.
Proof.
  intros Hk Hd i j a b Ha Hb Hsame.
  destruct (nth_error_same_keys ws ws' i a Hk Ha) as (a0 & Ha0 & Hka).
  destruct (nth_error_same_keys ws ws' j b Hk Hb) as (b0 & Hb0 & Hkb).
  apply (Hd i j a0 b0 Ha0 Hb0).
  now apply (same_content_keys a b a0 b0).
Qed.

Lemma distinct_words_snoc (words : list WordInfo) (w : WordInfo) :
  distinct_words letters words ->
  (forall x, In x words ->
     ~ matches letters (startLetterIndex w) (lettersCount w) x) ->
  distinct_words letters (words ++ [w]).
Proof.
  intros Hd Hno i j a b Ha Hb Hsame.
  assert (Hi : (i < length (words ++ [w]))%nat)
    by (apply nth_error_Some; congruence).
  assert (Hj : (j < length (words ++ [w]))%nat)
    by (apply nth_error_Some; congruence).
  rewrite length_app in Hi, Hj. cbn [length] in Hi, Hj.
  destruct (Nat.lt_ge_cases i (length words)) as [Hi' | Hi'];
    destruct (Nat.lt_ge_cases j (length words)) as [Hj' | Hj'].
  - rewrite nth_error_app1 in Ha, Hb by assumption. eauto.
  - rewrite nth_error_app1 in Ha by assumption.
    rewrite nth_error_app2 in Hb by assumption.
    replace (j - length words)%nat with 0%nat in Hb by lia.
    injection Hb as <-. exfalso.
    apply (Hno a); [eapply nth_error_In; eassumption |].
    now apply matches_sym.
  - rewrite nth_error_app2 in Ha by assumption.
    rewrite nth_error_app1 in Hb by assumption.
    replace (i - length words)%nat with 0%nat in Ha by lia.
    injection Ha as <-. exfalso.
    apply (Hno b); [eapply nth_error_In; eassumption | exact Hsame].
  - lia.
Qed.

Lemma registerWord_keys (words : list WordInfo) (firstLetter count : nat) :
  map word_key (registerWord letters words firstLetter count)
  = map word_key words
  \/ ((forall w, In w words -> ~ matches letters firstLetter count w) /\
      registerWord letters words firstLetter count
      = words ++ [ {| startLetterIndex := firstLetter;
                      lettersCount := count;
                      entries := 1 |} ]).
Proof.
  destruct (registerWord_search letters words firstLetter count)
    as [Hno | (pre & word & post & -> & Hno & Hword)].
  - right. split; [exact Hno | now apply registerWord_new].
  - left. rewrite (registerWord_found letters pre post word _ _ Hno Hword).
    now rewrite !map_app.
Qed.

Lemma size_t_increment (e : Z) :
  1 <= e < 2 ^ 64 - 1 -> size_t_wrap (e + 1) = e + 1.
Proof. intros H. unfold size_t_wrap. apply Z.mod_small. lia. Qed.

Lemma registerWord_preserves (words : list WordInfo)
    (firstLetter count : nat) :
  WordsInv letters words ->
  Forall (fun w => entries w < 2 ^ 64 - 1) words ->
  WordsInv letters (registerWord letters words firstLetter count).
Proof.
  intros [Hd He] Hmax. split.
  - destruct (registerWord_keys words firstLetter count)
      as [Hk | (Hno & ->)].
    + exact (distinct_words_keys _ _ (eq_sym Hk) Hd).
    + apply distinct_words_snoc; [exact Hd | exact Hno].
  - destruct (registerWord_search letters words firstLetter count)
      as [Hno | (pre & word & post & -> & Hno & Hword)].
    + rewrite (registerWord_new letters words _ _ Hno).
      apply Forall_app. split; [exact He |].
      constructor; [cbn; lia | constructor].
    + rewrite (registerWord_found letters pre post word _ _ Hno Hword).
      apply Forall_app in He as [Hpre Hrest].
      apply Forall_app in Hmax as [_ Hmax].
      inversion Hrest as [| ? ? Hw Hpost]; subst.
      inversion Hmax as [| ? ? Hw' _]; subst.
      apply Forall_app. split; [exact Hpre |].
      constructor; [| exact Hpost].
      cbn [entries]. rewrite size_t_increment; lia.
Qed.

End Invariant.

(** ** The segmenter *)

Lemma static_cast_int_small (n : nat) :
  Z.of_nat n < 2 ^ 31 -> static_cast_int n = Z.of_nat n.
Proof.
  intros H. unfold static_cast_int.
  rewrite Z.mod_small by lia.
  destruct (Z.ltb_spec (Z.of_nat n) (2 ^ 31)); lia.
Qed.

Lemma size_t_of_int_nat (n : nat) :
  Z.of_nat n < 2 ^ 31 -> size_t_of_int (Z.of_nat n) = n.
Proof.
  intros H. unfold size_t_of_int, size_t_wrap.
  rewrite Z.mod_small by lia. apply Nat2Z.id.
Qed.

Lemma size_t_sub_nat (index f : nat) :
  (f <= index)%nat -> Z.of_nat index < 2 ^ 31 ->
  size_t_sub index (Z.of_nat f) = (index - f)%nat.
Proof.
  intros Hle H. unfold size_t_sub, size_t_wrap.
  rewrite Z.mod_small by lia. lia.
Qed.

(** While fewer than [2^31] letters are scanned the [int] holds the
    start of the open word exactly, and the loop makes the calls of
    [segments_loop]. *)
Lemma gather_loop_segments (letters : list Z) (total : nat) (rest : list Z) :
  forall letterIndex firstLetter words,
    (letterIndex + length rest = total)%nat ->
    Z.of_nat total < 2 ^ 31 ->
    (forall f, firstLetter = Some f -> (f <= letterIndex)%nat) ->
    let '(firstLetter', words') :=
      gather_loop letters rest letterIndex
        (int_of_firstLetter firstLetter) words in
    (if negb (firstLetter' =? -1)
     then registerWord letters words' (size_t_of_int firstLetter')
            (size_t_sub total firstLetter')
     else words')
    = aggregate_from letters words (segments_loop rest letterIndex firstLetter).
Proof.
  induction rest as [| letter rest IH];
    intros letterIndex firstLetter words Htotal Hsmall Hf;
    cbn [gather_loop segments_loop length] in *.
  - destruct firstLetter as [f |]; cbn [int_of_firstLetter].
    + specialize (Hf f eq_refl).
      destruct (Z.eqb_spec (Z.of_nat f) (-1)); [lia |]. cbn [negb].
      rewrite size_t_of_int_nat, size_t_sub_nat by lia.
      replace total with letterIndex by lia. reflexivity.
    + reflexivity.
  - destruct (IsAlpha letter).
    + destruct firstLetter as [f |]; cbn [int_of_firstLetter].
      * specialize (Hf f eq_refl).
        destruct (Z.eqb_spec (Z.of_nat f) (-1)); [lia |].
        apply (IH (S letterIndex) (Some f) words); [lia | exact Hsmall |].
        intros f' [= <-]. lia.
      * change (-1 =? -1) with true. cbv iota.
        rewrite static_cast_int_small by lia.
        apply (IH (S letterIndex) (Some letterIndex) words);
          [lia | exact Hsmall |].
        intros f' [= <-]. lia.
    + destruct firstLetter as [f |]; cbn [int_of_firstLetter].
      * specialize (Hf f eq_refl).
        destruct (Z.eqb_spec (Z.of_nat f) (-1)); [lia |]. cbn [negb].
        rewrite size_t_of_int_nat, size_t_sub_nat by lia.
        apply (IH (S letterIndex) None); [lia | exact Hsmall |].
        intros f' [=].
      * change (-1 =? -1) with true. cbn [negb].
        apply (IH (S letterIndex) None words); [lia | exact Hsmall |].
        intros f' [=].
Qed.

Lemma gather_words_aggregate (letters : list Z) :
  Z.of_nat (length letters) < 2 ^ 31 ->
  gather_words letters = aggregate letters (segments letters).
Proof.
  intros Hsmall. unfold gather_words, aggregate, segments.
  pose proof (gather_loop_segments letters (length letters) letters
                0 None [] eq_refl Hsmall ltac:(discriminate)) as H.
  cbn [int_of_firstLetter] in H.
  destruct (gather_loop letters letters 0 (-1) []) as [fl ws].
  exact H.
Qed.

Lemma gather_loop_spaces (letters rest : list Z) (n : nat) :
  forall letterIndex words,
    gather_loop letters (repeat 32 n ++ rest) letterIndex (-1) words
    = gather_loop letters rest (letterIndex + n) (-1) words.
Proof.
  induction n as [| n IH]; intros letterIndex words; cbn [repeat app].
  - now rewrite Nat.add_0_r.
  - cbn [gather_loop]. change (IsAlpha 32) with false.
    change (-1 =? -1) with true. cbn [negb].
    rewrite IH. f_equal. lia.
Qed.

(** The bound on the number of letters is needed: a word that starts at
    letter [2^32 - 1] is taken for "no word open", since that index cast
    to [int] is [-1], and is never registered. *)
Remark gather_words_int_wraps (n : nat) :
  Z.of_nat n = 2 ^ 32 - 1 ->
  static_cast_int n = -1 /\
  gather_words (repeat 32 n ++ [97]) = [] /\
  segments (repeat 32 n ++ [97]) <> [].
Proof.
  intros Hn.
  assert (Hcast : static_cast_int n = -1).
  { unfold static_cast_int. rewrite Hn. reflexivity. }
  split; [exact Hcast | split].
  - unfold gather_words. rewrite gather_loop_spaces.
    cbn [gather_loop Nat.add]. change (IsAlpha 97) with true.
    change (-1 =? -1) with true. cbv iota.
    rewrite Hcast. reflexivity.
  - unfold segments.
    assert (Hseg : forall k i,
               segments_loop (repeat 32 k ++ [97]) i None <> []).
    { induction k as [| k IH]; intros i; cbn [repeat app segments_loop].
      - change (IsAlpha 97) with true. cbv iota. discriminate.
      - change (IsAlpha 32) with false. cbv iota. apply IH. }
    apply Hseg.
Qed.

(** Every word handed over has at least one letter and lies inside the
    letters. *)
Lemma segments_loop_bounds (rest : list Z) :
  forall letterIndex firstLetter f c,
    (forall f', firstLetter = Some f' -> (f' < letterIndex)%nat) ->
    In (f, c) (segments_loop rest letterIndex firstLetter) ->
    (1 <= c)%nat /\ (f + c <= letterIndex + length rest)%nat.
Proof.
  induction rest as [| letter rest IH];
    intros letterIndex firstLetter f c Hf Hin;
    cbn [segments_loop length] in *.
  - destruct firstLetter as [f' |]; [| destruct Hin].
    specialize (Hf f' eq_refl).
    destruct Hin as [[= <- <-] | []]. lia.
  - destruct (IsAlpha letter).
    + apply IH in Hin; [lia |].
      destruct firstLetter as [f' |]; intros f'' [= <-];
        [specialize (Hf f' eq_refl) |]; lia.
    + destruct firstLetter as [f' |].
      * specialize (Hf f' eq_refl).
        destruct Hin as [[= <- <-] | Hin]; [lia |].
        apply IH in Hin; [lia | intros f'' [=]].
      * apply IH in Hin; [lia | intros f'' [=]].
Qed.

Lemma segments_bounds (letters : list Z) (f c : nat) :
  In (f, c) (segments letters) ->
  (1 <= c)%nat /\ (f + c <= length letters)%nat.
Proof.
  intros Hin.
  apply (segments_loop_bounds letters 0 None f c) in Hin;
    [exact Hin | intros f' [=]].
Qed.

Lemma segments_loop_length (rest : list Z) :
  forall letterIndex firstLetter,
    (length (segments_loop rest letterIndex firstLetter)
     <= S (length rest))%nat.
Proof.
  induction rest as [| letter rest IH]; intros letterIndex firstLetter;
    cbn [segments_loop length].
  - destruct firstLetter; cbn; lia.
  - destruct (IsAlpha letter); [| destruct firstLetter; cbn [length]];
      match goal with
      | |- context [segments_loop rest ?i ?f] => specialize (IH i f)
      end; lia.
Qed.

Section Aggregate.

Variable letters : list Z.

Lemma matches_key_eq (f c : nat) (w : WordInfo) :
  matches letters f c w <-> key_eq letters (f, c) (word_key w).
Proof. reflexivity. Qed.

Lemma key_eq_refl (k : nat * nat) : key_eq letters k k.
Proof. split; [reflexivity | intros; reflexivity]. Qed.

Lemma key_eq_sym (k1 k2 : nat * nat) : key_eq letters k1 k2 -> key_eq letters k2 k1.
Proof.
  intros [Hc H]. split; [now symmetry |].
  intros i Hi. symmetry. apply H. lia.
Qed.

Lemma key_eq_trans (k1 k2 k3 : nat * nat) :
  key_eq letters k1 k2 -> key_eq letters k2 k3 -> key_eq letters k1 k3.
Proof.
  intros [Hc H] [Hc' H']. split; [congruence |].
  intros i Hi. rewrite H by exact Hi. apply H'. lia.
Qed.

(** What one call does to the references held by the aggregator. *)
Lemma registerWord_step (words : list WordInfo) (f c : nat) :
  (exists w', In w' (registerWord letters words f c) /\
              matches letters f c w') /\
  (forall w, In w words ->
     exists w', In w' (registerWord letters words f c) /\
                word_key w' = word_key w) /\
  (forall w', In w' (registerWord letters words f c) ->
     (exists w, In w words /\ word_key w = word_key w') \/
     (word_key w' = (f, c) /\
      forall w, In w words -> ~ matches letters f c w)).
Proof.
  destruct (registerWord_search letters words f c)
    as [Hno | (pre & word & post & -> & Hno & Hword)].
  - rewrite (registerWord_new letters words f c Hno).
    split; [| split].
    + eexists. split; [apply in_or_app; right; left; reflexivity |].
      apply matches_key_eq, key_eq_refl.
    + intros w Hw. exists w. split; [apply in_or_app; now left | reflexivity].
    + intros w' Hw'. apply in_app_or in Hw' as [Hw' | [<- | []]].
      * left. exists w'. auto.
      * right. split; [reflexivity | exact Hno].
  - rewrite (registerWord_found letters pre post word f c Hno Hword).
    set (word' := {| startLetterIndex := startLetterIndex word;
                     lettersCount := lettersCount word;
                     entries := size_t_wrap (entries word + 1) |}).
    split; [| split].
    + exists word'. split; [apply in_or_app; right; now left | exact Hword].
    + intros w Hw. apply in_app_or in Hw as [Hw | [<- | Hw]].
      * exists w. split; [apply in_or_app; now left | reflexivity].
      * exists word'. split; [apply in_or_app; right; now left | reflexivity].
      * exists w. split; [apply in_or_app; right; now right | reflexivity].
    + intros w' Hw'. left. apply in_app_or in Hw' as [Hw' | [<- | Hw']].
      * exists w'. split; [apply in_or_app; now left | reflexivity].
      * exists word. split; [apply in_or_app; right; now left | reflexivity].
      * exists w'. split; [apply in_or_app; right; now right | reflexivity].
Qed.

Lemma aggregate_snoc (calls : list (nat * nat)) (call : nat * nat) :
  aggregate letters (calls ++ [call])
  = registerWord letters (aggregate letters calls) (fst call) (snd call).
Proof. unfold aggregate, aggregate_from. now rewrite fold_left_app. Qed.

(** Every word handed over is referred to by some record. *)
Lemma aggregate_represents (calls : list (nat * nat)) :
  forall call, In call calls ->
    exists w, In w (aggregate letters calls) /\
              matches letters (fst call) (snd call) w.
Proof.
  induction calls as [| last calls IH] using rev_ind; intros call Hin;
    [destruct Hin |].
  rewrite aggregate_snoc.
  destruct (registerWord_step (aggregate letters calls) (fst last) (snd last))
    as (Hthis & Hold & _).
  apply in_app_or in Hin as [Hin | [<- | []]]; [| exact Hthis].
  destruct (IH call Hin) as (w & Hw & Hm).
  destruct (Hold w Hw) as (w' & Hw' & Hk).
  exists w'. split; [exact Hw' |].
  apply matches_key_eq. rewrite Hk. exact Hm.
Qed.

(** Every record refers to the first of the words handed over that has
    its codepoints. *)
Lemma aggregate_first_occurrence (calls : list (nat * nat)) :
  forall w, In w (aggregate letters calls) ->
    exists pre post,
      calls = pre ++ word_key w :: post /\
      forall call, In call pre -> ~ key_eq letters call (word_key w).
Proof.
  induction calls as [| last calls IH] using rev_ind; intros w Hw;
    [destruct Hw |].
  rewrite aggregate_snoc in Hw.
  destruct (registerWord_step (aggregate letters calls) (fst last) (snd last))
    as (_ & _ & Hnew).
  destruct (Hnew w Hw) as [(w0 & Hw0 & Hk) | (Hk & Hno)].
  - destruct (IH w0 Hw0) as (pre & post & Hcalls & Hpre).
    exists pre, (post ++ [last]). rewrite <- Hk. split.
    + rewrite Hcalls, <- app_assoc. reflexivity.
    + exact Hpre.
  - exists calls, []. rewrite Hk. split.
    + now destruct last.
    + intros call Hcall Heq.
      destruct (aggregate_represents calls call Hcall) as (w0 & Hw0 & Hm).
      apply (Hno w0 Hw0). apply matches_key_eq.
      apply key_eq_trans with call; [now apply key_eq_sym |].
      destruct call. exact Hm.
Qed.

Lemma registerWord_entries_bound (words : list WordInfo) (f c : nat) (n : Z) :
  0 <= n < 2 ^ 64 - 1 ->
  Forall (fun w => 1 <= entries w <= n) words ->
  Forall (fun w => 1 <= entries w <= n + 1)
         (registerWord letters words f c).
Proof.
  intros Hn Hall.
  assert (Hweak : Forall (fun w => 1 <= entries w <= n + 1) words)
    by (eapply Forall_impl; [| exact Hall]; cbn; intros; lia).
  destruct (registerWord_search letters words f c)
    as [Hno | (pre & word & post & -> & Hno & Hword)].
  - rewrite (registerWord_new letters words f c Hno).
    apply Forall_app. split; [exact Hweak |].
    constructor; [cbn; lia | constructor].
  - rewrite (registerWord_found letters pre post word f c Hno Hword).
    apply Forall_app in Hweak as [Hpre Hrest].
    apply Forall_app in Hall as [_ Hall].
    inversion Hrest as [| ? ? _ Hpost]; subst.
    inversion Hall as [| ? ? Hw _]; subst.
    apply Forall_app. split; [exact Hpre |].
    constructor; [| exact Hpost].
    cbn [entries]. rewrite size_t_increment; lia.
Qed.

End Aggregate.

Lemma aggregate_invariant (letters : list Z) (calls : list (nat * nat)) :
  Z.of_nat (length calls) < 2 ^ 64 - 1 ->
  WordsInv letters (aggregate letters calls) /\
  Forall (fun w => 1 <= entries w <= Z.of_nat (length calls))
         (aggregate letters calls).
Proof.
  induction calls as [| last calls IH] using rev_ind; intros Hlen.
  - split; [split |]; try constructor.
    intros i j a b Ha. destruct i; discriminate Ha.
  - rewrite length_app in Hlen. cbn [length] in Hlen.
    destruct IH as (Hinv & Hbound); [lia |].
    rewrite aggregate_snoc. split.
    + apply registerWord_preserves; [exact Hinv |].
      eapply Forall_impl; [| exact Hbound]. cbn. intros; lia.
    + rewrite length_app. cbn [length].
      replace (Z.of_nat (length calls + 1)) with (Z.of_nat (length calls) + 1)
        by lia.
      apply registerWord_entries_bound; [lia | exact Hbound].
Qed.

(** C8. [registerWord] appends a record with [entries = 1] when no record
    refers to the codepoints of the word, and otherwise adds one to
    [entries] of the first record that does and changes nothing else. It
    keeps the invariant: records at different places refer to unequal
    codepoint sequences, and every [entries] is at least 1 (no counter
    being at the top of [size_t]). In a run of the program over fewer
    than [2^31] letters the invariant holds after every call. *)
Theorem registerWord_invariant (letters : list Z) :
  (forall words f c,
     (forall w, In w words -> ~ matches letters f c w) ->
     registerWord letters words f c
     = words ++ [ {| startLetterIndex := f; lettersCount := c;
                     entries := 1 |} ]) /\
  (forall pre word post f c,
     (forall w, In w pre -> ~ matches letters f c w) ->
     matches letters f c word ->
     1 <= entries word < 2 ^ 64 - 1 ->
     registerWord letters (pre ++ word :: post) f c
     = pre ++ {| startLetterIndex := startLetterIndex word;
                 lettersCount := lettersCount word;
                 entries := entries word + 1 |} :: post) /\
  (forall words f c,
     WordsInv letters words ->
     Forall (fun w => entries w < 2 ^ 64 - 1) words ->
     WordsInv letters (registerWord letters words f c)) /\
  (Z.of_nat (length letters) < 2 ^ 31 ->
   gather_words letters = aggregate letters (segments letters) /\
   forall k,
     WordsInv letters (aggregate letters (firstn k (segments letters)))).
Proof.
  split; [exact (registerWord_new letters) |].
  split; [| split; [exact (registerWord_preserves letters) |]].
  - intros pre word post f c Hno Hword He.
    rewrite (registerWord_found letters pre post word f c Hno Hword).
    now rewrite size_t_increment.
  - intros Hsmall. split; [now apply gather_words_aggregate |].
    intros k. apply aggregate_invariant.
    pose proof (length_firstn k (segments letters)) as Hk.
    pose proof (segments_loop_length letters 0 None) as Hs.
    fold (segments letters) in Hs. lia.
Qed.

Lemma registerWord_invariant_witness :
  registerWord [99; 97; 116; 32; 99; 97; 116]
    ([] ++ [ {| startLetterIndex := 0; lettersCount := 3; entries := 1 |} ])
    4 3
  = [] ++ [ {| startLetterIndex := 0; lettersCount := 3; entries := 1 + 1 |} ].
Proof.
  apply (proj1 (proj2 (registerWord_invariant [99; 97; 116; 32; 99; 97; 116]))
           [] {| startLetterIndex := 0; lettersCount := 3; entries := 1 |} []).
  - intros w [].
  - split; [reflexivity |].
    intros i Hi. destruct i as [| [| [| i]]]; try reflexivity. lia.
  - cbn. lia.
Defined.

(** ** Input without letters *)

Lemma fold_letter_not_alpha (c : Z) :
  IsAlpha c = false -> fold_letter c = c.
Proof.
  intros H. rewrite fold_letter_cases.
  destruct (Z.leb_spec 65 c), (Z.ltb_spec c 97),
           (Z.leb_spec 1040 c), (Z.ltb_spec c 1072);
    cbn [andb orb]; try reflexivity;
    exfalso; enough (IsAlpha c = true) by congruence;
    apply IsAlpha_ranges; lia.
Qed.

Lemma fold_letters_not_alpha (letters : list Z) :
  Forall (fun c => IsAlpha c = false) letters ->
  fold_letters letters = letters.
Proof.
  induction 1 as [| c letters Hc _ IH]; [reflexivity |].
  cbn [fold_letters map]. rewrite fold_letter_not_alpha by exact Hc.
  f_equal. exact IH.
Qed.

Lemma gather_loop_not_alpha (letters rest : list Z) :
  Forall (fun c => IsAlpha c = false) rest ->
  forall letterIndex words,
    gather_loop letters rest letterIndex (-1) words = (-1, words).
Proof.
  induction 1 as [| c rest Hc _ IH]; intros letterIndex words;
    [reflexivity |].
  cbn [gather_loop]. rewrite Hc. change (-1 =? -1) with true.
  cbn [negb]. apply IH.
Qed.

(** C9. When the decoded codepoints are all non-alphabetic, the program
    succeeds and writes nothing to the output file. *)
Theorem Main_no_words (inv : invocation) (buffer : list byte)
    (letters : list Z) (letterInfos : list encoding.LetterInfo) :
  argc inv = 3 ->
  input_is_open inv = true ->
  output_is_open inv = true ->
  ReadStreamToBuffer (input inv) = Returns (Some buffer) ->
  encoding.ReadUtfLetters buffer = Returns (Some (letters, letterInfos)) ->
  Forall (fun c => IsAlpha c = false) letters ->
  Main inv = Returns (NoError, Some []).
Proof.
  intros Hargc Hin Hout Hread Hdec Hno.
  unfold Main. rewrite Hargc, Hin, Hout, Hread, Hdec. cbn [Z.eqb negb].
  change (3 =? 3) with true. cbn [negb].
  rewrite (fold_letters_not_alpha letters Hno).
  unfold gather_words.
  rewrite (gather_loop_not_alpha letters letters Hno 0 []).
  reflexivity.
Qed.

Lemma Main_no_words_witness :
  Main (run_on (list_byte_of_string "12, 34!"))
  = Returns (NoError, Some []).
Proof.
  eapply (Main_no_words (run_on (list_byte_of_string "12, 34!")));
    try reflexivity.
  repeat constructor.
Defined.

(** ** The ranker *)

Lemma insert_word_permutation (letters : list Z) (w : WordInfo)
    (sorted : list WordInfo) :
  Permutation (insert_word letters w sorted) (w :: sorted).
Proof.
  induction sorted as [| x sorted IH]; cbn [insert_word]; [reflexivity |].
  destruct (word_less letters w x); [reflexivity |].
  rewrite IH. apply perm_swap.
Qed.

Lemma sort_words_permutation (letters : list Z) (words : list WordInfo) :
  Permutation (sort_words letters words) words.
Proof.
  induction words as [| w words IH]; cbn [sort_words fold_right];
    [reflexivity |].
  rewrite insert_word_permutation. now constructor.
Qed.

(** ** The writer *)

Lemma skipn_nth_cons {A : Type} (d : A) (l : list A) :
  forall i, (i < length l)%nat -> skipn i l = nth i l d :: skipn (S i) l.
Proof.
  induction l as [| x l IH]; intros i Hi; cbn [length] in Hi; [lia |].
  destruct i as [| i]; [reflexivity |].
  cbn [skipn nth]. apply IH. lia.
Qed.

Lemma write_letters_flat_map (buffer : list byte)
    (lettersInfos : list encoding.LetterInfo) (start remaining : nat) :
  forall k,
    (start + k + remaining <= length lettersInfos)%nat ->
    write_letters buffer lettersInfos start k remaining
    = flat_map (write_letter buffer)
        (firstn remaining (skipn (start + k) lettersInfos)).
Proof.
  induction remaining as [| remaining IH]; intros k Hlen;
    cbn [write_letters]; [reflexivity |].
  rewrite (skipn_nth_cons (encoding.mkLetterInfo 0 0)) by lia.
  cbn [firstn flat_map]. unfold letterInfo_at. f_equal.
  rewrite IH by lia. now rewrite Nat.add_succ_r.
Qed.

Lemma spans_tile_length (letterInfos : list encoding.LetterInfo) :
  forall offset stop,
    spans_tile offset letterInfos stop ->
    (offset + length letterInfos <= stop)%nat.
Proof.
  induction letterInfos as [| li rest IH]; intros offset stop H.
  - cbn in *. lia.
  - destruct H as (_ & Hpos & H). apply IH in H. cbn [length]. lia.
Qed.

(** In a tiling, the spans of a run of consecutive letters tile a range
    of the buffer of their own, which starts where the first of them
    starts. *)
Lemma spans_tile_slice (letterInfos : list encoding.LetterInfo)
    (start count total : nat) :
  spans_tile 0 letterInfos total ->
  (1 <= count)%nat ->
  (start + count <= length letterInfos)%nat ->
  exists begin stop,
    spans_tile begin (firstn count (skipn start letterInfos)) stop /\
    begin = encoding.bufferOffset (letterInfo_at letterInfos start) /\
    (stop <= total)%nat.
Proof.
  intros Htile Hcount Hlen.
  rewrite <- (firstn_skipn start letterInfos) in Htile.
  apply spans_tile_app in Htile as (begin & _ & Htile).
  rewrite <- (firstn_skipn count (skipn start letterInfos)) in Htile.
  apply spans_tile_app in Htile as (stop & Hmid & Hpost).
  exists begin, stop. split; [exact Hmid |].
  split; [| now apply spans_tile_le in Hpost].
  rewrite (skipn_nth_cons (encoding.mkLetterInfo 0 0)) in Hmid by lia.
  destruct count as [| count]; [lia |].
  cbn [firstn spans_tile] in Hmid. symmetry. exact (proj1 Hmid).
Qed.

(** ** The order of the output *)

Section Order.

Variable letters : list Z.

Lemma lexicographical_compare_asym (a : list Z) :
  forall b, lexicographical_compare a b = true ->
            lexicographical_compare b a = false.
Proof.
  induction a as [| x a IH]; intros [| y b]; cbn [lexicographical_compare];
    try reflexivity; try discriminate.
  destruct (Z.ltb_spec x y), (Z.ltb_spec y x);
    try reflexivity; try discriminate; try lia.
  apply IH.
Qed.

Lemma lexicographical_compare_total (a : list Z) :
  forall b, lexicographical_compare a b = false ->
            lexicographical_compare b a = false -> a = b.
Proof.
  induction a as [| x a IH]; intros [| y b]; cbn [lexicographical_compare];
    try reflexivity; try discriminate.
  destruct (Z.ltb_spec x y), (Z.ltb_spec y x); try discriminate.
  intros Hab Hba. assert (x = y) by lia. subst y. f_equal. now apply IH.
Qed.

Lemma lexicographical_compare_trans (a : list Z) :
  forall b c, lexicographical_compare b a = false ->
              lexicographical_compare c b = false ->
              lexicographical_compare c a = false.
Proof.
  induction a as [| x a IH]; intros [| y b] [| z c];
    cbn [lexicographical_compare]; try reflexivity; try discriminate.
  destruct (Z.ltb_spec y x), (Z.ltb_spec x y), (Z.ltb_spec z y),
           (Z.ltb_spec y z), (Z.ltb_spec z x), (Z.ltb_spec x z);
    try reflexivity; try discriminate; try lia.
  apply IH.
Qed.

Lemma word_less_asym (a b : WordInfo) :
  word_less letters a b = true -> word_less letters b a = false.
Proof.
  unfold word_less.
  destruct (Z.eqb_spec (entries a) (entries b)),
           (Z.eqb_spec (entries b) (entries a)); try lia.
  apply lexicographical_compare_asym.
Qed.

Lemma word_le_trans (a b c : WordInfo) :
  word_le letters a b -> word_le letters b c -> word_le letters a c.
Proof.
  unfold word_le, word_less.
  destruct (Z.eqb_spec (entries b) (entries a)),
           (Z.eqb_spec (entries c) (entries b)),
           (Z.eqb_spec (entries c) (entries a)); try lia.
  apply lexicographical_compare_trans.
Qed.

(** Records that may stand in either order have the same count and the
    same letters. *)
Lemma word_le_antisym (a b : WordInfo) :
  word_le letters a b -> word_le letters b a ->
  entries a = entries b /\ word_letters letters a = word_letters letters b.
Proof.
  unfold word_le, word_less.
  destruct (Z.eqb_spec (entries b) (entries a)),
           (Z.eqb_spec (entries a) (entries b)); try lia.
  intros Hba Hab. split; [congruence |].
  now apply lexicographical_compare_total.
Qed.

Lemma insert_word_sorted (w : WordInfo) (sorted : list WordInfo) :
  StronglySorted (word_le letters) sorted ->
  StronglySorted (word_le letters) (insert_word letters w sorted).
Proof.
  induction 1 as [| x sorted Hsorted IH Hx]; cbn [insert_word].
  - constructor; constructor.
  - destruct (word_less letters w x) eqn:Hwx.
    + assert (Hle : word_le letters w x) by now apply word_less_asym.
      constructor; [now constructor |].
      constructor; [exact Hle |].
      eapply Forall_impl; [| exact Hx]. intros y Hy.
      now apply word_le_trans with x.
    + constructor; [exact IH |].
      eapply Permutation_Forall;
        [symmetry; apply insert_word_permutation |].
      constructor; [exact Hwx | exact Hx].
Qed.

Lemma sort_words_sorted (words : list WordInfo) :
  StronglySorted (word_le letters) (sort_words letters words).
Proof.
  induction words as [| w words IH]; cbn [sort_words fold_right].
  - constructor.
  - now apply insert_word_sorted.
Qed.

(** Two arrangements of the same records, both in order, are equal as
    soon as two records that may stand in either order are the same. *)
Lemma sorted_permutation_unique (l1 : list WordInfo) :
  forall l2,
    Permutation l1 l2 ->
    StronglySorted (word_le letters) l1 -> StronglySorted (word_le letters) l2 ->
    (forall a b, In a l1 -> In b l1 -> word_le letters a b -> word_le letters b a -> a = b) ->
    l1 = l2.
Proof.
  induction l1 as [| a l1 IH]; intros l2 Hperm H1 H2 Hanti.
  - symmetry. now apply Permutation_nil.
  - destruct l2 as [| b l2];
      [apply Permutation_sym, Permutation_nil in Hperm; discriminate |].
    inversion H1 as [| ? ? H1' Ha]; subst.
    inversion H2 as [| ? ? H2' Hb]; subst.
    assert (Hab : a = b).
    { assert (Hina : In a (b :: l2))
        by (eapply Permutation_in; [exact Hperm | now left]).
      assert (Hinb : In b (a :: l1))
        by (eapply Permutation_in;
            [apply Permutation_sym; exact Hperm | now left]).
      destruct Hina as [-> | Hina]; [reflexivity |].
      destruct Hinb as [-> | Hinb]; [reflexivity |].
      rewrite Forall_forall in Ha, Hb.
      apply Hanti; [now left | now right | now apply Ha | now apply Hb]. }
    subst b. f_equal.
    apply IH; [now apply Permutation_cons_inv in Hperm | exact H1' | exact H2' |].
    intros x y Hx Hy. apply Hanti; now right.
Qed.

End Order.

(** ** The records of a run *)

Lemma word_letters_length (letters : list Z) (w : WordInfo) :
  (startLetterIndex w + lettersCount w <= length letters)%nat ->
  length (word_letters letters w) = lettersCount w.
Proof.
  intros H. unfold word_letters. rewrite length_firstn, length_skipn. lia.
Qed.

Lemma word_letters_nth (letters : list Z) (w : WordInfo) (i : nat) :
  (i < lettersCount w)%nat ->
  nth i (word_letters letters w) 0
  = letter_at letters (startLetterIndex w + i).
Proof.
  intros H. unfold word_letters, letter_at.
  rewrite nth_firstn, nth_skipn.
  destruct (Nat.ltb_spec i (lettersCount w)); [reflexivity | lia].
Qed.

Lemma word_letters_same_content (letters : list Z) (a b : WordInfo) :
  (startLetterIndex a + lettersCount a <= length letters)%nat ->
  (startLetterIndex b + lettersCount b <= length letters)%nat ->
  word_letters letters a = word_letters letters b ->
  same_content letters a b.
Proof.
  intros Ha Hb Heq.
  assert (Hc : lettersCount b = lettersCount a).
  { rewrite <- (word_letters_length letters a Ha),
            <- (word_letters_length letters b Hb).
    now rewrite Heq. }
  split; [exact Hc |]. intros i Hi.
  rewrite <- (word_letters_nth letters a i Hi).
  rewrite <- (word_letters_nth letters b i) by lia.
  now rewrite Heq.
Qed.

(** The records that the gathering leaves, for fewer than [2^31]
    letters: the invariant of the aggregator holds, and every record
    refers to a word of at least one letter, inside the letters, that is
    the first word with its codepoints. *)
Lemma gather_words_records (letters : list Z) :
  Z.of_nat (length letters) < 2 ^ 31 ->
  WordsInv letters (gather_words letters) /\
  forall w, In w (gather_words letters) ->
    (1 <= lettersCount w)%nat /\
    (startLetterIndex w + lettersCount w <= length letters)%nat /\
    exists pre post,
      segments letters = pre ++ word_key w :: post /\
      forall call, In call pre -> ~ key_eq letters call (word_key w).
Proof.
  intros Hsmall. rewrite (gather_words_aggregate letters Hsmall). split.
  - apply aggregate_invariant.
    pose proof (segments_loop_length letters 0 None) as Hs.
    fold (segments letters) in Hs. lia.
  - intros w Hw.
    destruct (aggregate_first_occurrence letters (segments letters) w Hw)
      as (pre & post & Hseg & Hfirst).
    assert (Hin : In (startLetterIndex w, lettersCount w) (segments letters)).
    { rewrite Hseg. apply in_or_app. right. now left. }
    apply segments_bounds in Hin.
    split; [apply Hin | split; [apply Hin |]].
    exists pre, post. auto.
Qed.

(** For the records of a run there is one arrangement in the order of
    the comparator, the one that [sort_words] computes. *)
Lemma sorted_words_unique (letters : list Z) (result : list WordInfo) :
  Z.of_nat (length letters) < 2 ^ 31 ->
  Permutation result (gather_words letters) ->
  StronglySorted (word_le letters) result ->
  result = sort_words letters (gather_words letters).
Proof.
  intros Hsmall Hperm Hsorted.
  destruct (gather_words_records letters Hsmall) as ((Hdist & _) & Hrec).
  apply (sorted_permutation_unique letters).
  - rewrite Hperm. symmetry. apply sort_words_permutation.
  - exact Hsorted.
  - apply sort_words_sorted.
  - intros a b Ha Hb Hab Hba.
    apply (Permutation_in _ Hperm) in Ha, Hb.
    destruct (word_le_antisym letters a b Hab Hba) as (_ & Hletters).
    destruct (Hrec a Ha) as (_ & Hinside_a & _).
    destruct (Hrec b Hb) as (_ & Hinside_b & _).
    pose proof (word_letters_same_content letters a b
                  Hinside_a Hinside_b Hletters) as Hsame.
    apply In_nth_error in Ha as (i & Hi).
    apply In_nth_error in Hb as (j & Hj).
    assert (i = j) by (eapply Hdist; eassumption).
    congruence.
Qed.

(** X19. In a successful run that decodes fewer than [2^31] letters,
    the output is one line for each record, and for every record: the
    line is the decimal count, a space, the word bytes and the newline;
    the record refers to the first word, in the order of the text, that
    has its folded codepoints; the word bytes are the recorded spans of
    the letters of that occurrence written one after the other, and
    these spans tile one range of the input buffer, so that the word
    bytes are that range of the buffer, byte for byte. *)
Theorem Main_writes_original_bytes (inv : invocation) (buffer : list byte)
    (letters : list Z) (lettersInfos : list encoding.LetterInfo) :
  argc inv = 3 ->
  input_is_open inv = true ->
  output_is_open inv = true ->
  ReadStreamToBuffer (input inv) = Returns (Some buffer) ->
  Z.of_nat (length letters) < 2 ^ 31 ->
  encoding.ReadUtfLetters buffer = Returns (Some (letters, lettersInfos)) ->
  let folded := fold_letters letters in
  let words := sort_words folded (gather_words folded) in
  Main inv
  = Returns (NoError,
             Some (flat_map
                     (fun w => decimal (entries w) ++ [x20]
                               ++ word_bytes buffer lettersInfos w ++ endl)
                     words)) /\
  Permutation words (gather_words folded) /\
  forall w, In w words ->
    (exists pre post,
       segments folded = pre ++ word_key w :: post /\
       forall call, In call pre -> ~ key_eq folded call (word_key w)) /\
    (1 <= lettersCount w)%nat /\
    (startLetterIndex w + lettersCount w <= length lettersInfos)%nat /\
    word_bytes buffer lettersInfos w
    = flat_map (write_letter buffer) (word_infos lettersInfos w) /\
    exists begin stop,
      spans_tile begin (word_infos lettersInfos w) stop /\
      begin = encoding.bufferOffset
                (letterInfo_at lettersInfos (startLetterIndex w)) /\
      (stop <= length buffer)%nat /\
      word_bytes buffer lettersInfos w
      = firstn (stop - begin) (skipn begin buffer).
Proof.
  intros Hargc Hin Hout Hread Hsmall Hdec folded words.
  destruct (ReadUtfLetters_loop_spans buffer (length buffer) 0 letters
              lettersInfos (Nat.le_0_l _) Hdec) as (Htile & Hlen).
  pose proof (spans_tile_length _ _ _ Htile) as Hfit.
  assert (Hfolded : length folded = length lettersInfos)
    by (unfold folded, fold_letters; now rewrite length_map).
  assert (Hsmall' : Z.of_nat (length folded) < 2 ^ 31) by lia.
  clear Hfit.
  destruct (gather_words_records folded Hsmall') as (_ & Hrec).
  split; [| split].
  - unfold Main. rewrite Hargc, Hin, Hout, Hread, Hdec.
    change (3 =? 3) with true. reflexivity.
  - apply sort_words_permutation.
  - intros w Hw.
    apply (Permutation_in _ (sort_words_permutation folded _)) in Hw.
    destruct (Hrec w Hw) as (Hcount & Hinside & Hfirst).
    rewrite Hfolded in Hinside.
    split; [exact Hfirst | split; [exact Hcount | split; [exact Hinside |]]].
    assert (Hbytes : word_bytes buffer lettersInfos w
                     = flat_map (write_letter buffer)
                         (word_infos lettersInfos w)).
    { unfold word_bytes, word_infos.
      rewrite write_letters_flat_map by lia. now rewrite Nat.add_0_r. }
    split; [exact Hbytes |].
    destruct (spans_tile_slice lettersInfos (startLetterIndex w)
                (lettersCount w) (length buffer) Htile Hcount Hinside)
      as (begin & stop & Hmid & Hbegin & Hstop).
    exists begin, stop.
    split; [exact Hmid | split; [exact Hbegin | split; [exact Hstop |]]].
    rewrite Hbytes. now apply write_letter_tile.
Qed.

Lemma Main_writes_original_bytes_witness :
  Main (run_on (list_byte_of_string "Cat cat"))
  = Returns (NoError,
             Some (flat_map
                     (fun w => decimal (entries w) ++ [x20]
                               ++ word_bytes (list_byte_of_string "Cat cat")
                                    (map (fun i => encoding.mkLetterInfo i 1)
                                         (seq 0 7)) w
                               ++ endl)
                     (sort_words
                        (fold_letters [67; 97; 116; 32; 99; 97; 116])
                        (gather_words
                           (fold_letters [67; 97; 116; 32; 99; 97; 116]))))).
Proof.
  refine (proj1 (Main_writes_original_bytes
                   (run_on (list_byte_of_string "Cat cat"))
                   (list_byte_of_string "Cat cat")
                   [67; 97; 116; 32; 99; 97; 116]
                   (map (fun i => encoding.mkLetterInfo i 1) (seq 0 7))
                   eq_refl eq_refl eq_refl eq_refl _ eq_refl)).
  vm_compute. reflexivity.
Defined.

(** ** The example of the specification *)

(** C1, as the code has it. The run succeeds and writes three lines, for
    the folded words cat, sat and the in this order, each with count 2;
    the word of each line is spelled as its first occurrence was, so the
    third line reads "2 The". The order is the only one that the
    comparator allows for these records. *)
Theorem Main_the_cat_sat :
  let letters := map u8 the_cat_sat in
  let folded := fold_letters letters in
  let words := sort_words folded (gather_words folded) in
  encoding.ReadUtfLetters the_cat_sat
  = Returns (Some (letters,
                   map (fun i => encoding.mkLetterInfo i 1) (seq 0 25))) /\
  Main (run_on the_cat_sat)
  = Returns (NoError,
             Some (list_byte_of_string "2 cat" ++ endl ++
                   list_byte_of_string "2 sat" ++ endl ++
                   list_byte_of_string "2 The" ++ endl)) /\
  map entries words = [2; 2; 2] /\
  map (word_letters folded) words
  = [ [99; 97; 116]; [115; 97; 116]; [116; 104; 101] ] /\
  forall result,
    Permutation result (gather_words folded) ->
    StronglySorted (word_le folded) result ->
    result = words.
Proof.
  intros letters folded words.
  split; [vm_compute; reflexivity |].
  split; [vm_compute; reflexivity |].
  split; [vm_compute; reflexivity |].
  split; [vm_compute; reflexivity |].
  intros result Hperm Hsorted.
  apply sorted_words_unique; [vm_compute; reflexivity | exact Hperm |
                              exact Hsorted].
Qed.

Lemma Main_the_cat_sat_witness :
  [ mkWordInfo 4 3 2; mkWordInfo 8 3 2; mkWordInfo 0 3 2 ]
  = sort_words (fold_letters (map u8 the_cat_sat))
      (gather_words (fold_letters (map u8 the_cat_sat))).
Proof.
  apply (proj2 (proj2 (proj2 (proj2 Main_the_cat_sat)))).
  - change (gather_words (fold_letters (map u8 the_cat_sat)))
      with [ mkWordInfo 0 3 2; mkWordInfo 4 3 2; mkWordInfo 8 3 2 ].
    apply Permutation_sym, Permutation_cons_append.
  - repeat constructor.
Defined.

(** C1 as the specification words it: the third line is not "2 the". *)
Lemma Main_the_cat_sat_counterexample :
  Main (run_on the_cat_sat)
  <> Returns (NoError,
              Some (list_byte_of_string "2 cat" ++ endl ++
                    list_byte_of_string "2 sat" ++ endl ++
                    list_byte_of_string "2 the" ++ endl)).
Proof. vm_compute. discriminate. Qed.

(** * Further properties of the decoder *)

(** ** Bytes *)

Lemma u8_range (b : byte) : 0 <= u8 b < 256.
Proof.
  assert (H : (0 <=? u8 b) && (u8 b <? 256) = true)
    by (destruct b; reflexivity).
  apply andb_true_iff in H as [H1 H2]. lia.
Qed.

Lemma u8_byte_of_Z (z : Z) : 0 <= z < 256 -> u8 (byte_of_Z z) = z.
Proof.
  intros Hz. unfold byte_of_Z, u8.
  pose proof (Byte.to_of_N_option_map (Z.to_N z)) as H.
  destruct (N.leb_spec (Z.to_N z) 255) as [_ | Hgt]; [| lia].
  destruct (Byte.of_N (Z.to_N z)) as [b |]; [| discriminate H].
  cbn [option_map] in H. injection H as ->. lia.
Qed.

Lemma bit7_clear_iff (b : byte) : Z.testbit (u8 b) 7 = false <-> u8 b < 128.
Proof.
  assert (H : Z.testbit (u8 b) 7 = negb (u8 b <? 128))
    by (destruct b; reflexivity).
  rewrite H. destruct (Z.ltb_spec (u8 b) 128); cbn [negb];
    split; solve [lia | reflexivity | discriminate].
Qed.

Lemma is_continuation_range (b : byte) :
  is_continuation b = true <-> 128 <= u8 b < 192.
Proof.
  assert (H : is_continuation b = (128 <=? u8 b) && (u8 b <? 192))
    by (destruct b; reflexivity).
  rewrite H, andb_true_iff. lia.
Qed.

Lemma continuation_low_bits (b : byte) :
  is_continuation b = true ->
  Z.land (u8 b) (Z.shiftr 255 2) = u8 b - 128.
Proof. destruct b; intros H; try discriminate H; reflexivity. Qed.

Lemma land_mul64_low (l r : Z) : 0 <= r < 64 -> Z.land (l * 64) r = 0.
Proof.
  intros Hr. apply Z.bits_inj'. intros n Hn.
  rewrite Z.land_spec, Z.bits_0.
  destruct (Z.lt_ge_cases n 6) as [Hlow | Hhigh].
  - change 64 with (2 ^ 6). now rewrite Z.mul_pow2_bits_low by lia.
  - assert (Hbit : Z.testbit r n = false).
    { destruct (Z.eq_dec r 0) as [-> | Hne]; [apply Z.bits_0 |].
      apply Z.bits_above_log2; [lia |].
      assert (Z.log2 r < 6) by (apply Z.log2_lt_pow2; lia). lia. }
    rewrite Hbit. apply andb_false_r.
Qed.

Lemma lor_mul64_low (l r : Z) :
  0 <= r < 64 -> Z.lor (l * 64) r = l * 64 + r.
Proof.
  intros Hr. pose proof (Z.add_lor_land (l * 64) r) as H.
  rewrite (land_mul64_low l r Hr) in H. lia.
Qed.

Lemma InterpretNextUtfByte_value (l : Z) (b : byte) :
  0 <= l < 2 ^ 26 ->
  is_continuation b = true ->
  encoding.InterpretNextUtfByte (Some l) b
  = Returns (true, Some (l * 64 + (u8 b - 128))).
Proof.
  intros Hl Hb. unfold encoding.InterpretNextUtfByte.
  rewrite continuation_test, Hb. cbn [negb].
  rewrite (continuation_low_bits b Hb).
  apply is_continuation_range in Hb.
  rewrite Z.shiftl_mul_pow2 by lia. change (2 ^ 6) with 64.
  unfold uint32_wrap. rewrite Z.mod_small by lia.
  rewrite lor_mul64_low by lia. reflexivity.
Qed.

(** ** The first byte and the continuation bytes, in values *)

Lemma InterpretFirstUtfByte_assigned_bound (b : byte)
    (bytesCount : option nat) (letter : option Z) :
  (exists count v,
     encoding.InterpretFirstUtfByte b bytesCount letter
     = (true, (Some (S count), Some v)) /\
     (count <=? 4)%nat && (0 <=? v)
     && ((v + 1) * 64 ^ Z.of_nat count <=? 2 ^ 26) = true)
  \/ (scan_falls_through b /\
      encoding.InterpretFirstUtfByte b bytesCount letter
      = (true, (bytesCount, letter))).
Proof.
  destruct b;
    first [ left; eexists; eexists; split; [reflexivity |];
            vm_compute; reflexivity
          | right; split; [repeat split | reflexivity] ].
Qed.

(** X1. [InterpretFirstUtfByte] never returns [false]: its "invalid
    format" return cannot be reached. It assigns a byte count between 1
    and 5 together with a start value small enough for the finished
    letter to stay below [2^26], or, on the bytes 0xBC..0xBF and
    0xFC..0xFF only, it assigns nothing. *)
Theorem InterpretFirstUtfByte_never_fails (b : byte)
    (bytesCount : option nat) (letter : option Z) :
  fst (encoding.InterpretFirstUtfByte b bytesCount letter) = true /\
  ((exists n v,
      encoding.InterpretFirstUtfByte b bytesCount letter
      = (true, (Some n, Some v)) /\
      (1 <= n <= 5)%nat /\ 0 <= v /\
      (v + 1) * 64 ^ (Z.of_nat n - 1) <= 2 ^ 26)
   \/ ((188 <= u8 b <= 191 \/ 252 <= u8 b <= 255) /\
       encoding.InterpretFirstUtfByte b bytesCount letter
       = (true, (bytesCount, letter)))).
Proof.
  destruct (InterpretFirstUtfByte_assigned_bound b bytesCount letter)
    as [(count & v & Heq & Hb) | (Hfall & Heq)]; rewrite Heq.
  - split; [reflexivity |]. left. exists (S count), v.
    apply andb_true_iff in Hb as [Hb Hbound].
    apply andb_true_iff in Hb as [Hcount Hv].
    apply Nat.leb_le in Hcount. apply Z.leb_le in Hv, Hbound.
    split; [reflexivity | split; [lia | split; [exact Hv |]]].
    replace (Z.of_nat (S count) - 1) with (Z.of_nat count) by lia.
    exact Hbound.
  - split; [reflexivity |]. right.
    split; [now apply scan_falls_through_bytes | reflexivity].
Qed.

Lemma InterpretFirstUtfByte_bit6 (b : byte) :
  (128 <=? u8 b) && (u8 b <? 192) = true ->
  forall bytesCount letter,
    encoding.InterpretFirstUtfByte b bytesCount letter
    = encoding.InterpretFirstUtfByte (byte_of_Z (u8 b + 64))
        bytesCount letter.
Proof.
  destruct b; intros H; try discriminate H; intros; reflexivity.
Qed.

(** X2. Bit 6 of a first byte is never looked at: a first byte of the
    form 10xxxxxx, which in UTF-8 can only be a continuation byte, is
    taken exactly as the lead byte 11xxxxxx with the same low six bits,
    and is therefore not rejected. *)
Theorem InterpretFirstUtfByte_stray_continuation (b : byte) :
  128 <= u8 b < 192 ->
  u8 (byte_of_Z (u8 b + 64)) = u8 b + 64 /\
  forall bytesCount letter,
    encoding.InterpretFirstUtfByte b bytesCount letter
    = encoding.InterpretFirstUtfByte (byte_of_Z (u8 b + 64))
        bytesCount letter.
Proof.
  intros Hb. split; [apply u8_byte_of_Z; lia |].
  apply InterpretFirstUtfByte_bit6.
  apply andb_true_iff. split; [apply Z.leb_le | apply Z.ltb_lt]; lia.
Qed.

Lemma InterpretFirstUtfByte_stray_continuation_witness :
  encoding.InterpretFirstUtfByte x80 None None
  = encoding.InterpretFirstUtfByte xc0 None None.
Proof.
  apply (proj2 (InterpretFirstUtfByte_stray_continuation x80
                  ltac:(vm_compute; split; [discriminate | reflexivity])) None None).
Defined.

(** X3. [InterpretNextUtfByte] accepts exactly the bytes 0x80..0xBF. On
    such a byte a letter below [2^26] becomes the letter times 64 plus
    the low six bits of the byte, without wrapping; on any other byte
    the function returns [false] and neither reads nor changes the
    letter. *)
Theorem InterpretNextUtfByte_spec (b : byte) :
  (128 <= u8 b < 192 ->
   forall l, 0 <= l < 2 ^ 26 ->
     encoding.InterpretNextUtfByte (Some l) b
     = Returns (true, Some (l * 64 + (u8 b - 128)))) /\
  (~ 128 <= u8 b < 192 ->
   forall letter,
     encoding.InterpretNextUtfByte letter b = Returns (false, letter)).
Proof.
  split.
  - intros Hb l Hl. apply InterpretNextUtfByte_value; [exact Hl |].
    now apply is_continuation_range.
  - intros Hb letter. apply InterpretNextUtfByte_other.
    destruct (is_continuation b) eqn:Hc; [| reflexivity].
    apply is_continuation_range in Hc. contradiction.
Qed.

Lemma InterpretNextUtfByte_spec_witness :
  encoding.InterpretNextUtfByte (Some 16) xb0 = Returns (true, Some 1072) /\
  encoding.InterpretNextUtfByte None x41 = Returns (false, None).
Proof.
  split.
  - apply (proj1 (InterpretNextUtfByte_spec xb0));
      [vm_compute; split; [discriminate | reflexivity] | lia].
  - apply (proj2 (InterpretNextUtfByte_spec x41)).
    vm_compute. intros [H _]. now apply H.
Defined.

Lemma skipn_nth_error_cons {A : Type} (l : list A) :
  forall i x, nth_error l i = Some x -> skipn i l = x :: skipn (S i) l.
Proof.
  induction l as [| y l IH]; intros [| i] x H; try discriminate H.
  - injection H as ->. reflexivity.
  - cbn [skipn]. now apply IH.
Qed.

(** The continuation loop in values: no letter wraps. *)
Lemma ReadUtfLetter_loop_value (buffer : list byte) (count : nat) :
  forall i l,
    0 <= l ->
    (l + 1) * 64 ^ Z.of_nat count <= 2 ^ 26 ->
    continuation_ok buffer i count = true ->
    encoding.ReadUtfLetter_loop buffer (S count) i (Some l)
    = Returns (true,
               ((i + S count)%nat,
                Some (accumulate l (firstn count (skipn (S i) buffer)))))
    /\ 0 <= accumulate l (firstn count (skipn (S i) buffer))
       < (l + 1) * 64 ^ Z.of_nat count.
Proof.
  induction count as [| count IH]; intros i l Hl Hbound Hok.
  - cbn [firstn accumulate fold_left]. split; [| cbn; lia].
    cbn. now rewrite Nat.add_1_r.
  - cbn [continuation_ok] in Hok.
    destruct (nth_error buffer (S i)) as [c |] eqn:Hc; [| discriminate].
    apply andb_true_iff in Hok as [Hcont Hok].
    assert (Hlt : (S i < length buffer)%nat)
      by (apply nth_error_Some; congruence).
    rewrite Nat2Z.inj_succ, Z.pow_succ_r in Hbound by lia.
    assert (Hpow : 0 < 64 ^ Z.of_nat count) by (apply Z.pow_pos_nonneg; lia).
    assert (Hl26 : 0 <= l < 2 ^ 26) by nia.
    pose proof (proj1 (is_continuation_range c) Hcont) as Hrange.
    set (l1 := l * 64 + (u8 c - 128)).
    destruct (IH (S i) l1) as (Hrun & Hval);
      [unfold l1; lia | unfold l1; nia | exact Hok |].
    rewrite (skipn_nth_error_cons buffer (S i) c Hc).
    cbn [firstn accumulate fold_left]. fold (accumulate l1).
    split.
    + change (encoding.ReadUtfLetter_loop buffer (S (S count)) i (Some l))
        with (if (length buffer <=? S i)%nat
              then Returns (false, (S i, Some l))
              else
                match nth_error buffer (S i) with
                | None => Returns (false, (S i, Some l))
                | Some b =>
                    match encoding.InterpretNextUtfByte (Some l) b with
                    | Returns (true, letter') =>
                        encoding.ReadUtfLetter_loop buffer (S count) (S i)
                          letter'
                    | Returns (false, letter') =>
                        Returns (false, (S i, letter'))
                    | Indeterminate => Indeterminate
                    | OutOfFuel => OutOfFuel
                    | Throws => Throws
                    end
                end).
      destruct (Nat.leb_spec (length buffer) (S i)); [lia |].
      rewrite Hc, (InterpretNextUtfByte_value l c Hl26 Hcont).
      fold l1. rewrite Hrun.
      replace (i + S (S count))%nat with (S i + S count)%nat by lia.
      reflexivity.
    + rewrite Nat2Z.inj_succ, Z.pow_succ_r by lia.
      assert (Hstep : (l1 + 1) * 64 ^ Z.of_nat count
                      <= (l + 1) * 64 * 64 ^ Z.of_nat count)
        by (apply Z.mul_le_mono_nonneg_r; unfold l1; lia).
      replace ((l + 1) * (64 * 64 ^ Z.of_nat count))
        with ((l + 1) * 64 * 64 ^ Z.of_nat count) by ring.
      unfold accumulate in Hval. change (l * 64 + (u8 c - 128)) with l1.
      split; [apply Hval | eapply Z.lt_le_trans; [apply Hval | exact Hstep]].
Qed.

Lemma ReadUtfLetter_value_at (buffer : list byte) (i count : nat)
    (b : byte) (v : Z) :
  nth_error buffer i = Some b ->
  encoding.InterpretFirstUtfByte b None None
  = (true, (Some (S count), Some v)) ->
  continuation_ok buffer i count = true ->
  encoding.ReadUtfLetter buffer i None
  = Returns (true,
             ((i + S count)%nat,
              Some (accumulate v (firstn count (skipn (S i) buffer)))))
  /\ 0 <= accumulate v (firstn count (skipn (S i) buffer)) < 2 ^ 26.
Proof.
  intros Hb Hfirst Hok.
  destruct (InterpretFirstUtfByte_assigned_bound b None None)
    as [(count' & v' & Heq & Hbound) | (_ & Heq)];
    rewrite Heq in Hfirst; [| discriminate Hfirst].
  injection Hfirst as -> ->.
  apply andb_true_iff in Hbound as [Hbound Hpow].
  apply andb_true_iff in Hbound as [_ Hv].
  apply Z.leb_le in Hv, Hpow.
  destruct (ReadUtfLetter_loop_value buffer count i v Hv Hpow Hok)
    as (Hrun & Hval).
  split; [| lia].
  assert (Hi : (i < length buffer)%nat) by (apply nth_error_Some; congruence).
  unfold encoding.ReadUtfLetter.
  destruct (Nat.leb_spec (length buffer) i); [lia |].
  rewrite Hb, Heq. exact Hrun.
Qed.

(** X4. The value of a letter. When the first byte announces [count]
    continuation bytes and they are all there, [ReadUtfLetter] succeeds,
    moves the index past them, and the letter is the start value of the
    first byte followed by the low six bits of each continuation byte,
    most significant first; it lies below [2^26], so the 32-bit letter
    never wraps. When one of the announced bytes is missing or is not a
    continuation byte, [ReadUtfLetter] returns [false]. *)
Theorem ReadUtfLetter_value (buffer : list byte) (i count : nat)
    (b : byte) (v : Z) :
  nth_error buffer i = Some b ->
  encoding.InterpretFirstUtfByte b None None
  = (true, (Some (S count), Some v)) ->
  (continuation_ok buffer i count = true ->
   encoding.ReadUtfLetter buffer i None
   = Returns (true,
              ((i + S count)%nat,
               Some (accumulate v (firstn count (skipn (S i) buffer)))))
   /\ 0 <= accumulate v (firstn count (skipn (S i) buffer)) < 2 ^ 26) /\
  (continuation_ok buffer i count = false ->
   exists st, encoding.ReadUtfLetter buffer i None = Returns (false, st)).
Proof.
  intros Hb Hfirst. split.
  - exact (ReadUtfLetter_value_at buffer i count b v Hb Hfirst).
  - intros Hok.
    destruct (ReadUtfLetter_cases buffer i b Hb)
      as [(count' & v' & _ & Hfirst' & Hcase) | (Hfall & _)].
    + assert (count' = count) by congruence. subst count'.
      now rewrite Hok in Hcase.
    + rewrite (scan_falls_through_first b Hfall) in Hfirst.
      discriminate Hfirst.
Qed.

Lemma ReadUtfLetter_value_witness :
  encoding.ReadUtfLetter [xe2; x82; xac] 0 None
  = Returns (true, (3%nat, Some 8364)).
Proof.
  exact (proj1 (proj1 (ReadUtfLetter_value [xe2; x82; xac] 0 2 xe2 2
                         eq_refl eq_refl) eq_refl)).
Defined.

(** ** The letters and spans of an accepted buffer *)

Lemma ReadUtfLetter_true_value (buffer : list byte) (i j : nat) (l : Z) :
  encoding.ReadUtfLetter buffer i None = Returns (true, (j, Some l)) ->
  (i < length buffer)%nat ->
  0 <= l < 2 ^ 26.
Proof.
  intros Hrun Hi.
  destruct (nth_error buffer i) as [b |] eqn:Hb;
    [| apply nth_error_None in Hb; lia].
  destruct (ReadUtfLetter_cases buffer i b Hb)
    as [(count & v & _ & Hfirst & Hcase) | (_ & Hind)]; [| congruence].
  destruct (continuation_ok buffer i count) eqn:Hok.
  - destruct (ReadUtfLetter_value_at buffer i count b v Hb Hfirst Hok)
      as (Hval & Hbound).
    rewrite Hval in Hrun. injection Hrun as _ <-. exact Hbound.
  - destruct Hcase as (st & Hfail). congruence.
Qed.

Lemma ReadUtfLetters_loop_decodes (buffer : list byte) (fuel : nat) :
  forall i letters letterInfos,
    encoding.ReadUtfLetters_loop fuel buffer i [] []
    = Returns (Some (letters, letterInfos)) ->
    Forall2 (decodes_at buffer) letters letterInfos.
Proof.
  induction fuel as [| fuel IH]; intros i letters letterInfos.
  - cbn [encoding.ReadUtfLetters_loop].
    destruct (i <? length buffer)%nat; [discriminate |].
    intros [= <- <-]. constructor.
  - rewrite ReadUtfLetters_loop_S.
    destruct (Nat.ltb_spec i (length buffer)) as [Hlt |];
      [| intros [= <- <-]; constructor].
    destruct (encoding.ReadUtfLetter buffer i None)
      as [[ok [j l]] | | |] eqn:Hrun; try discriminate.
    destruct ok; [| discriminate].
    destruct l as [l |]; [| discriminate].
    pose proof (ReadUtfLetter_true buffer i j (Some l) Hlt Hrun)
      as (_ & Hj & Hfive).
    rewrite ReadUtfLetters_loop_appended.
    destruct (encoding.ReadUtfLetters_loop fuel buffer j [] [])
      as [[[ls infos] |] | | |] eqn:Hrest; try discriminate.
    cbn [appended app]. intros [= <- <-].
    constructor; [| exact (IH j ls infos Hrest)].
    exists j. cbn [encoding.bufferOffset encoding.bytesCount].
    split; [exact Hrun | split; [lia |]].
    apply Z.mod_small. lia.
Qed.

Lemma spans_tile_at_most (letterInfos : list encoding.LetterInfo) :
  forall offset stop,
    Forall (fun li => encoding.bytesCount li <= 5) letterInfos ->
    spans_tile offset letterInfos stop ->
    (stop <= offset + 5 * length letterInfos)%nat.
Proof.
  induction letterInfos as [| li rest IH]; intros offset stop Hall H.
  - cbn in *. lia.
  - inversion Hall as [| ? ? Hli Hrest]; subst.
    destruct H as (_ & Hpos & H).
    apply (IH _ _ Hrest) in H. cbn [length]. lia.
Qed.

(** X5. What an accepted buffer gives. Each letter with its span is the
    result of one call of [ReadUtfLetter] at the offset of the span; every
    letter is below [2^26]; every span is 1 to 5 bytes long, so that the
    cast of the length to [uint8_t] loses nothing; and the number of
    letters lies between a fifth of the number of bytes and the number of
    bytes. *)
Theorem ReadUtfLetters_accepted (buffer : list byte)
    (letters : list Z) (letterInfos : list encoding.LetterInfo) :
  encoding.ReadUtfLetters buffer = Returns (Some (letters, letterInfos)) ->
  Forall2 (decodes_at buffer) letters letterInfos /\
  Forall (fun l => 0 <= l < 2 ^ 26) letters /\
  Forall (fun li => 1 <= encoding.bytesCount li <= 5) letterInfos /\
  (length letters <= length buffer <= 5 * length letters)%nat.
Proof.
  intros Hdec.
  pose proof (ReadUtfLetters_loop_decodes buffer _ 0 _ _ Hdec) as Hall.
  destruct (ReadUtfLetters_loop_spans buffer (length buffer) 0 letters
              letterInfos (Nat.le_0_l _) Hdec) as (Htile & Hlen).
  assert (Hletters : Forall (fun l => 0 <= l < 2 ^ 26) letters).
  { clear Hdec Htile Hlen.
    induction Hall as [| l li ls lis (j & Hrun & Hj & _) _ IH];
      constructor; [| exact IH].
    apply (ReadUtfLetter_true_value buffer _ j l Hrun). lia. }
  assert (Hspans : Forall (fun li => 1 <= encoding.bytesCount li <= 5)
                     letterInfos).
  { clear Hdec Htile Hlen Hletters.
    induction Hall as [| l li ls lis (j & Hrun & Hj & Hcount) _ IH];
      constructor; [| exact IH].
    apply ReadUtfLetter_true in Hrun as (_ & _ & Hfive); lia. }
  split; [exact Hall | split; [exact Hletters | split; [exact Hspans |]]].
  pose proof (spans_tile_length _ _ _ Htile) as Hlow.
  assert (Hhigh : (length buffer <= 0 + 5 * length letterInfos)%nat).
  { apply spans_tile_at_most; [| exact Htile].
    eapply Forall_impl; [| exact Hspans]. cbn. intros; lia. }
  lia.
Qed.

Lemma ReadUtfLetters_accepted_witness :
  Forall (fun l => 0 <= l < 2 ^ 26) [1072; 32; 1040].
Proof.
  exact (proj1 (proj2 (ReadUtfLetters_accepted
                         [xd0; xb0; x20; xd0; x90] [1072; 32; 1040]
                         [ encoding.mkLetterInfo 0 2;
                           encoding.mkLetterInfo 2 1;
                           encoding.mkLetterInfo 3 2 ]
                         eq_refl))).
Defined.

(** ** Buffers of one-byte letters *)

Lemma ReadUtfLetter_one_byte (buffer : list byte) (i : nat) (b : byte) :
  nth_error buffer i = Some b ->
  u8 b < 128 ->
  encoding.ReadUtfLetter buffer i None = Returns (true, (S i, Some (u8 b))).
Proof.
  intros Hb Hlow.
  assert (Hi : (i < length buffer)%nat) by (apply nth_error_Some; congruence).
  unfold encoding.ReadUtfLetter.
  destruct (Nat.leb_spec (length buffer) i); [lia |].
  rewrite Hb, (InterpretFirstUtfByte_one_byte b None None);
    [reflexivity | now apply bit7_clear_iff].
Qed.

Lemma ReadUtfLetters_loop_ascii (buffer : list byte) :
  Forall (fun b => u8 b < 128) buffer ->
  forall fuel i letters letterInfos,
    (length buffer - i <= fuel)%nat ->
    encoding.ReadUtfLetters_loop fuel buffer i letters letterInfos
    = Returns
        (Some (letters ++ map u8 (skipn i buffer),
               letterInfos
               ++ map (fun k => encoding.mkLetterInfo k 1)
                    (seq i (length buffer - i)))).
Proof.
  intros Hascii.
  induction fuel as [| fuel IH]; intros i letters letterInfos Hfuel.
  - rewrite ReadUtfLetters_loop_done by lia.
    rewrite skipn_all2 by lia.
    replace (length buffer - i)%nat with 0%nat by lia.
    cbn [map seq]. now rewrite !app_nil_r.
  - rewrite ReadUtfLetters_loop_S.
    destruct (Nat.ltb_spec i (length buffer)) as [Hi | Hi].
    + destruct (nth_error buffer i) as [b |] eqn:Hb;
        [| apply nth_error_None in Hb; lia].
      assert (Hlow : u8 b < 128).
      { rewrite Forall_forall in Hascii. apply Hascii.
        eapply nth_error_In. exact Hb. }
      rewrite (ReadUtfLetter_one_byte buffer i b Hb Hlow).
      rewrite IH by lia.
      rewrite (skipn_nth_error_cons buffer i b Hb).
      replace (length buffer - i)%nat with (S (length buffer - S i)) by lia.
      cbn [map seq]. rewrite <- !app_assoc. cbn [app].
      replace (Z.of_nat (S i - i) mod 256) with 1; [reflexivity |].
      replace (S i - i)%nat with 1%nat by lia. reflexivity.
    + rewrite skipn_all2 by lia.
      replace (length buffer - i)%nat with 0%nat by lia.
      cbn [map seq]. now rewrite !app_nil_r.
Qed.

(** X6. A buffer all of whose bytes are below 0x80 is accepted, and each
    byte is a letter of its own: the letters are the byte values and the
    [k]-th span is the single byte at offset [k]. *)
Theorem ReadUtfLetters_ascii (buffer : list byte) :
  Forall (fun b => u8 b < 128) buffer ->
  encoding.ReadUtfLetters buffer
  = Returns
      (Some (map u8 buffer,
             map (fun k => encoding.mkLetterInfo k 1)
                 (seq 0 (length buffer)))).
Proof.
  intros Hascii. unfold encoding.ReadUtfLetters.
  rewrite (ReadUtfLetters_loop_ascii buffer Hascii) by lia.
  now rewrite Nat.sub_0_r.
Qed.

Lemma ReadUtfLetters_ascii_witness :
  encoding.ReadUtfLetters (list_byte_of_string "a b")
  = Returns (Some ([97; 32; 98],
                   [ encoding.mkLetterInfo 0 1; encoding.mkLetterInfo 1 1;
                     encoding.mkLetterInfo 2 1 ])).
Proof.
  apply (ReadUtfLetters_ascii (list_byte_of_string "a b")).
  repeat constructor.
Defined.

(** ** Rounds of the loop *)

Lemma ReadUtfLetters_loop_more_fuel (buffer : list byte) (fuel : nat) :
  forall fuel' i letters letterInfos,
    (length buffer - i <= fuel)%nat ->
    (length buffer - i <= fuel')%nat ->
    encoding.ReadUtfLetters_loop fuel buffer i letters letterInfos
    = encoding.ReadUtfLetters_loop fuel' buffer i letters letterInfos.
Proof.
  induction fuel as [| fuel IH]; intros fuel' i letters letterInfos H H'.
  - now rewrite !ReadUtfLetters_loop_done by lia.
  - destruct fuel' as [| fuel'];
      [now rewrite !ReadUtfLetters_loop_done by lia |].
    rewrite !ReadUtfLetters_loop_S.
    destruct (Nat.ltb_spec i (length buffer)) as [Hi |]; [| reflexivity].
    destruct (encoding.ReadUtfLetter buffer i None)
      as [[ok [j l]] | | |] eqn:Hrun; try reflexivity.
    destruct ok; [| reflexivity].
    destruct l as [l |]; [| reflexivity].
    apply ReadUtfLetter_true in Hrun as (_ & Hj & _); [| exact Hi].
    apply IH; lia.
Qed.

(** X7. The loop of [ReadUtfLetters] ends: every round moves the byte
    index forward, so one round for each byte that is left is enough, the
    loop then returns, and further rounds would not change the result. *)
Theorem ReadUtfLetters_loop_ends (buffer : list byte) (fuel i : nat)
    (letters : list Z) (letterInfos : list encoding.LetterInfo) :
  (length buffer - i <= fuel)%nat ->
  encoding.ReadUtfLetters_loop fuel buffer i letters letterInfos
  <> OutOfFuel /\
  encoding.ReadUtfLetters_loop fuel buffer i letters letterInfos
  = encoding.ReadUtfLetters_loop (length buffer - i) buffer i
      letters letterInfos.
Proof.
  intros Hfuel. split.
  - now apply ReadUtfLetters_loop_fuel.
  - apply ReadUtfLetters_loop_more_fuel; lia.
Qed.

Lemma ReadUtfLetters_loop_ends_witness :
  encoding.ReadUtfLetters_loop 9 [xd0; xb0; x20] 0 [] []
  = encoding.ReadUtfLetters_loop 3 [xd0; xb0; x20] 0 [] [].
Proof.
  apply (proj2 (ReadUtfLetters_loop_ends [xd0; xb0; x20] 9 0 [] []
                  ltac:(cbn; lia))).
Defined.

(** ** Decoding one buffer after another *)

Section Concatenation.

Variables a b : list byte.

Lemma ReadUtfLetter_loop_shift (n : nat) :
  forall i l,
    encoding.ReadUtfLetter_loop (a ++ b) n (length a + i) l
    = shift_letter (length a) (encoding.ReadUtfLetter_loop b n i l).
Proof.
  induction n as [| n IH]; intros i l; [cbn; now rewrite Nat.add_succ_r |].
  destruct n as [| n]; [cbn; now rewrite Nat.add_succ_r |].
  change (encoding.ReadUtfLetter_loop (a ++ b) (S (S n)) (length a + i) l)
    with (if (length (a ++ b) <=? S (length a + i))%nat
          then Returns (false, (S (length a + i), l))
          else
            match nth_error (a ++ b) (S (length a + i)) with
            | None => Returns (false, (S (length a + i), l))
            | Some c =>
                match encoding.InterpretNextUtfByte l c with
                | Returns (true, letter') =>
                    encoding.ReadUtfLetter_loop (a ++ b) (S n)
                      (S (length a + i)) letter'
                | Returns (false, letter') =>
                    Returns (false, (S (length a + i), letter'))
                | Indeterminate => Indeterminate
                | OutOfFuel => OutOfFuel
                | Throws => Throws
                end
            end).
  change (encoding.ReadUtfLetter_loop b (S (S n)) i l)
    with (if (length b <=? S i)%nat
          then Returns (false, (S i, l))
          else
            match nth_error b (S i) with
            | None => Returns (false, (S i, l))
            | Some c =>
                match encoding.InterpretNextUtfByte l c with
                | Returns (true, letter') =>
                    encoding.ReadUtfLetter_loop b (S n) (S i) letter'
                | Returns (false, letter') => Returns (false, (S i, letter'))
                | Indeterminate => Indeterminate
                | OutOfFuel => OutOfFuel
                | Throws => Throws
                end
            end).
  rewrite length_app.
  replace (S (length a + i)) with (length a + S i)%nat by lia.
  rewrite nth_error_app2 by lia.
  replace (length a + S i - length a)%nat with (S i) by lia.
  destruct (Nat.leb_spec (length b) (S i)),
           (Nat.leb_spec (length a + length b) (length a + S i));
    try lia; [reflexivity |].
  destruct (nth_error b (S i)) as [c |]; [| reflexivity].
  destruct (encoding.InterpretNextUtfByte l c) as [[[] l'] | | |];
    try reflexivity.
  apply IH.
Qed.

Lemma ReadUtfLetter_shift (i : nat) (l : option Z) :
  encoding.ReadUtfLetter (a ++ b) (length a + i) l
  = shift_letter (length a) (encoding.ReadUtfLetter b i l).
Proof.
  unfold encoding.ReadUtfLetter.
  rewrite length_app, nth_error_app2 by lia.
  replace (length a + i - length a)%nat with i by lia.
  destruct (Nat.leb_spec (length b) i),
           (Nat.leb_spec (length a + length b) (length a + i));
    try lia; [reflexivity |].
  destruct (nth_error b i) as [c |]; [| reflexivity].
  destruct (encoding.InterpretFirstUtfByte c None l) as [[] [[n |] l']];
    try reflexivity.
  apply ReadUtfLetter_loop_shift.
Qed.

Lemma ReadUtfLetter_loop_prefix (n : nat) :
  forall i l j l',
    encoding.ReadUtfLetter_loop a n i l = Returns (true, (j, l')) ->
    encoding.ReadUtfLetter_loop (a ++ b) n i l = Returns (true, (j, l')).
Proof.
  induction n as [| n IH]; intros i l j l'; [exact (fun H => H) |].
  destruct n as [| n]; [exact (fun H => H) |].
  change (encoding.ReadUtfLetter_loop (a ++ b) (S (S n)) i l)
    with (if (length (a ++ b) <=? S i)%nat
          then Returns (false, (S i, l))
          else
            match nth_error (a ++ b) (S i) with
            | None => Returns (false, (S i, l))
            | Some c =>
                match encoding.InterpretNextUtfByte l c with
                | Returns (true, letter') =>
                    encoding.ReadUtfLetter_loop (a ++ b) (S n) (S i) letter'
                | Returns (false, letter') => Returns (false, (S i, letter'))
                | Indeterminate => Indeterminate
                | OutOfFuel => OutOfFuel
                | Throws => Throws
                end
            end).
  change (encoding.ReadUtfLetter_loop a (S (S n)) i l)
    with (if (length a <=? S i)%nat
          then Returns (false, (S i, l))
          else
            match nth_error a (S i) with
            | None => Returns (false, (S i, l))
            | Some c =>
                match encoding.InterpretNextUtfByte l c with
                | Returns (true, letter') =>
                    encoding.ReadUtfLetter_loop a (S n) (S i) letter'
                | Returns (false, letter') => Returns (false, (S i, letter'))
                | Indeterminate => Indeterminate
                | OutOfFuel => OutOfFuel
                | Throws => Throws
                end
            end).
  rewrite length_app.
  destruct (Nat.leb_spec (length a) (S i)); [discriminate |].
  destruct (Nat.leb_spec (length a + length b) (S i)); [lia |].
  rewrite nth_error_app1 by lia.
  destruct (nth_error a (S i)) as [c |]; [| discriminate].
  destruct (encoding.InterpretNextUtfByte l c) as [[[] l1] | | |];
    try discriminate.
  apply IH.
Qed.

Lemma ReadUtfLetter_prefix (i j : nat) (l : option Z) :
  encoding.ReadUtfLetter a i None = Returns (true, (j, l)) ->
  encoding.ReadUtfLetter (a ++ b) i None = Returns (true, (j, l)).
Proof.
  unfold encoding.ReadUtfLetter. rewrite length_app.
  destruct (Nat.leb_spec (length a) i); [discriminate |].
  destruct (Nat.leb_spec (length a + length b) i); [lia |].
  rewrite nth_error_app1 by lia.
  destruct (nth_error a i) as [c |]; [| discriminate].
  destruct (encoding.InterpretFirstUtfByte c None None) as [[] [[n |] l']];
    try discriminate.
  apply ReadUtfLetter_loop_prefix.
Qed.

Lemma ReadUtfLetters_loop_shift (fuel : nat) :
  forall i,
    encoding.ReadUtfLetters_loop fuel (a ++ b) (length a + i) [] []
    = decoded_after (length a) [] []
        (encoding.ReadUtfLetters_loop fuel b i [] []).
Proof.
  induction fuel as [| fuel IH]; intros i.
  - cbn [encoding.ReadUtfLetters_loop]. rewrite length_app.
    destruct (Nat.ltb_spec i (length b)),
             (Nat.ltb_spec (length a + i) (length a + length b));
      try lia; reflexivity.
  - rewrite !ReadUtfLetters_loop_S, length_app, ReadUtfLetter_shift.
    destruct (Nat.ltb_spec i (length b)),
             (Nat.ltb_spec (length a + i) (length a + length b));
      try lia; [| reflexivity].
    destruct (encoding.ReadUtfLetter b i None) as [[ok [j l]] | | |];
      cbn [shift_letter]; try reflexivity.
    destruct ok; [| reflexivity].
    destruct l as [l |]; [| reflexivity].
    replace (length a + j - (length a + i))%nat with (j - i)%nat by lia.
    rewrite (ReadUtfLetters_loop_appended (a ++ b) fuel (length a + j)
               ([] ++ [l])), IH.
    rewrite (ReadUtfLetters_loop_appended b fuel j ([] ++ [l])).
    destruct (encoding.ReadUtfLetters_loop fuel b j [] [])
      as [[[ls infos] |] | | |]; reflexivity.
Qed.

Lemma ReadUtfLetters_loop_prefix (fuel : nat) :
  forall i letters letterInfos fuel',
    encoding.ReadUtfLetters_loop fuel a i [] []
    = Returns (Some (letters, letterInfos)) ->
    (i <= length a)%nat ->
    (length b <= fuel')%nat ->
    encoding.ReadUtfLetters_loop (fuel + fuel') (a ++ b) i [] []
    = appended letters letterInfos
        (encoding.ReadUtfLetters_loop fuel' (a ++ b) (length a) [] []).
Proof.
  induction fuel as [| fuel IH]; intros i letters letterInfos fuel' Hrun Hi Hb.
  - cbn [encoding.ReadUtfLetters_loop] in Hrun.
    destruct (Nat.ltb_spec i (length a)); [discriminate |].
    injection Hrun as <- <-.
    assert (i = length a) by lia. subst i. cbn [Nat.add].
    apply (ReadUtfLetters_loop_appended (a ++ b) fuel' (length a) [] []).
  - rewrite ReadUtfLetters_loop_S in Hrun.
    destruct (Nat.ltb_spec i (length a)) as [Hlt | Hge].
    + destruct (encoding.ReadUtfLetter a i None)
        as [[ok [j l]] | | |] eqn:Hletter; try discriminate.
      destruct ok; [| discriminate].
      destruct l as [l |]; [| discriminate].
      pose proof (ReadUtfLetter_true a i j (Some l) Hlt Hletter)
        as (_ & Hj & _).
      cbn [Nat.add]. rewrite ReadUtfLetters_loop_S, length_app.
      destruct (Nat.ltb_spec i (length a + length b)); [| lia].
      rewrite (ReadUtfLetter_prefix i j (Some l) Hletter).
      rewrite ReadUtfLetters_loop_appended in Hrun.
      destruct (encoding.ReadUtfLetters_loop fuel a j [] [])
        as [[[ls infos] |] | | |] eqn:Hrest; try discriminate.
      cbn [appended app] in Hrun. injection Hrun as <- <-.
      rewrite ReadUtfLetters_loop_appended.
      rewrite (IH j ls infos fuel' Hrest) by lia.
      now rewrite appended_appended.
    + injection Hrun as <- <-.
      assert (i = length a) by lia. subst i.
      rewrite <- (ReadUtfLetters_loop_appended (a ++ b) fuel' (length a) [] []).
      apply ReadUtfLetters_loop_more_fuel; rewrite length_app; lia.
Qed.

End Concatenation.

(** X8. Decoding composes. After a buffer that the decoder accepts, the
    decoder goes on as it would on the rest alone: the result for the two
    buffers put together is the result for the second one, with the
    letters of the first put in front and the spans of the second moved
    up by the length of the first. *)
Theorem ReadUtfLetters_app (a b : list byte)
    (letters : list Z) (letterInfos : list encoding.LetterInfo) :
  encoding.ReadUtfLetters a = Returns (Some (letters, letterInfos)) ->
  encoding.ReadUtfLetters (a ++ b)
  = decoded_after (length a) letters letterInfos
      (encoding.ReadUtfLetters b).
Proof.
  intros Ha. unfold encoding.ReadUtfLetters in *. rewrite length_app.
  rewrite (ReadUtfLetters_loop_prefix a b (length a) 0 letters letterInfos
             (length b) Ha (Nat.le_0_l _) (Nat.le_refl _)).
  pose proof (ReadUtfLetters_loop_shift a b (length b) 0) as Hshift.
  rewrite Nat.add_0_r in Hshift. rewrite Hshift.
  destruct (encoding.ReadUtfLetters_loop (length b) b 0 [] [])
    as [[[ls infos] |] | | |]; reflexivity.
Qed.

Lemma ReadUtfLetters_app_witness :
  encoding.ReadUtfLetters ([xd0; xb0] ++ [x20; xd0; x90])
  = Returns (Some ([1072] ++ [32; 1040],
                   [encoding.mkLetterInfo 0 2]
                   ++ shift_infos 2 [ encoding.mkLetterInfo 0 1;
                                      encoding.mkLetterInfo 1 2 ])).
Proof.
  exact (ReadUtfLetters_app [xd0; xb0] [x20; xd0; x90] [1072]
           [encoding.mkLetterInfo 0 2] eq_refl).
Defined.

(** ** Standard UTF-8 *)

Lemma InterpretFirstUtfByte_lead_bytes (b : byte) :
  ((192 <=? u8 b) && (u8 b <? 224) = true ->
   encoding.InterpretFirstUtfByte b None None
   = (true, (Some 2%nat, Some (u8 b - 192)))) /\
  ((224 <=? u8 b) && (u8 b <? 240) = true ->
   encoding.InterpretFirstUtfByte b None None
   = (true, (Some 3%nat, Some (u8 b - 224)))) /\
  ((240 <=? u8 b) && (u8 b <? 248) = true ->
   encoding.InterpretFirstUtfByte b None None
   = (true, (Some 4%nat, Some (u8 b - 240)))).
Proof.
  destruct b; repeat split; intros H; try discriminate H; reflexivity.
Qed.

Lemma continuation_byte_of_Z (r : Z) :
  0 <= r < 64 ->
  is_continuation (byte_of_Z (128 + r)) = true /\
  u8 (byte_of_Z (128 + r)) - 128 = r.
Proof.
  intros Hr. rewrite is_continuation_range, u8_byte_of_Z by lia. lia.
Qed.

(** A buffer that is one letter. *)
Lemma ReadUtfLetters_single (buffer : list byte) (b : byte)
    (count : nat) (v : Z) :
  nth_error buffer 0 = Some b ->
  encoding.InterpretFirstUtfByte b None None
  = (true, (Some (S count), Some v)) ->
  continuation_ok buffer 0 count = true ->
  length buffer = S count ->
  encoding.ReadUtfLetters buffer
  = Returns
      (Some ([accumulate v (firstn count (skipn 1 buffer))],
             [encoding.mkLetterInfo 0 (Z.of_nat (S count) mod 256)])).
Proof.
  intros Hb Hfirst Hok Hlen. unfold encoding.ReadUtfLetters.
  rewrite Hlen, ReadUtfLetters_loop_S, Hlen. cbn [Nat.ltb Nat.leb].
  rewrite (proj1 (ReadUtfLetter_value_at buffer 0 count b v Hb Hfirst Hok)).
  cbn [Nat.add]. rewrite ReadUtfLetters_loop_done by lia.
  now rewrite Nat.sub_0_r.
Qed.

(** X9. Standard UTF-8 is decoded to the codepoint it encodes: for every
    codepoint below [2^21], the one to four bytes of its UTF-8 encoding
    are accepted and give that codepoint as the only letter, with one
    span over all the bytes. *)
Theorem ReadUtfLetters_utf8_encode (c : Z) :
  0 <= c < 2 ^ 21 ->
  encoding.ReadUtfLetters (utf8_encode c)
  = Returns
      (Some ([c],
             [encoding.mkLetterInfo 0
                (Z.of_nat (length (utf8_encode c)))])).
Proof.
  intros Hc. unfold utf8_encode.
  destruct (Z.ltb_spec c 128) as [H1 | H1];
    [| destruct (Z.ltb_spec c 2048) as [H2 | H2];
       [| destruct (Z.ltb_spec c 65536) as [H3 | H3]]].
  - unfold encoding.ReadUtfLetters.
    rewrite ReadUtfLetters_loop_ascii;
      [| constructor; [rewrite u8_byte_of_Z; lia | constructor]
       | cbn [length]; lia ].
    cbn [map seq length skipn app Nat.sub]. now rewrite u8_byte_of_Z by lia.
  - assert (Hq : 0 <= c / 64 < 32) by (Z.div_mod_to_equations; lia).
    assert (Hr : 0 <= c mod 64 < 64) by (Z.div_mod_to_equations; lia).
    destruct (continuation_byte_of_Z (c mod 64) Hr) as (Hk1 & Hv1).
    rewrite (ReadUtfLetters_single
               [byte_of_Z (192 + c / 64); byte_of_Z (128 + c mod 64)]
               (byte_of_Z (192 + c / 64)) 1 (c / 64) eq_refl).
    + cbn [length skipn firstn accumulate fold_left]. rewrite Hv1.
      do 3 f_equal. f_equal. Z.div_mod_to_equations. lia.
    + rewrite (proj1 (InterpretFirstUtfByte_lead_bytes _));
        rewrite u8_byte_of_Z by lia;
        [do 3 f_equal; lia |].
      apply andb_true_iff. split; [apply Z.leb_le | apply Z.ltb_lt]; lia.
    + cbn [continuation_ok nth_error]. now rewrite Hk1.
    + reflexivity.
  - assert (Hq : 0 <= c / 4096 < 16) by (Z.div_mod_to_equations; lia).
    assert (Hm : 0 <= (c / 64) mod 64 < 64) by (Z.div_mod_to_equations; lia).
    assert (Hr : 0 <= c mod 64 < 64) by (Z.div_mod_to_equations; lia).
    destruct (continuation_byte_of_Z _ Hm) as (Hk1 & Hv1).
    destruct (continuation_byte_of_Z _ Hr) as (Hk2 & Hv2).
    rewrite (ReadUtfLetters_single
               [byte_of_Z (224 + c / 4096);
                byte_of_Z (128 + (c / 64) mod 64);
                byte_of_Z (128 + c mod 64)]
               (byte_of_Z (224 + c / 4096)) 2 (c / 4096) eq_refl).
    + cbn [length skipn firstn accumulate fold_left]. rewrite Hv1, Hv2.
      do 3 f_equal. f_equal. Z.div_mod_to_equations. lia.
    + rewrite (proj1 (proj2 (InterpretFirstUtfByte_lead_bytes _)));
        rewrite u8_byte_of_Z by lia;
        [do 3 f_equal; lia |].
      apply andb_true_iff. split; [apply Z.leb_le | apply Z.ltb_lt]; lia.
    + cbn [continuation_ok nth_error]. now rewrite Hk1, Hk2.
    + reflexivity.
  - assert (Hq : 0 <= c / 262144 < 8)
      by (change (2 ^ 21) with 2097152 in Hc; Z.div_mod_to_equations; lia).
    assert (Hm1 : 0 <= (c / 4096) mod 64 < 64)
      by (Z.div_mod_to_equations; lia).
    assert (Hm2 : 0 <= (c / 64) mod 64 < 64) by (Z.div_mod_to_equations; lia).
    assert (Hr : 0 <= c mod 64 < 64) by (Z.div_mod_to_equations; lia).
    destruct (continuation_byte_of_Z _ Hm1) as (Hk1 & Hv1).
    destruct (continuation_byte_of_Z _ Hm2) as (Hk2 & Hv2).
    destruct (continuation_byte_of_Z _ Hr) as (Hk3 & Hv3).
    rewrite (ReadUtfLetters_single
               [byte_of_Z (240 + c / 262144);
                byte_of_Z (128 + (c / 4096) mod 64);
                byte_of_Z (128 + (c / 64) mod 64);
                byte_of_Z (128 + c mod 64)]
               (byte_of_Z (240 + c / 262144)) 3 (c / 262144) eq_refl).
    + cbn [length skipn firstn accumulate fold_left].
      rewrite Hv1, Hv2, Hv3.
      do 3 f_equal. f_equal. Z.div_mod_to_equations. lia.
    + rewrite (proj2 (proj2 (InterpretFirstUtfByte_lead_bytes _)));
        rewrite u8_byte_of_Z by lia;
        [do 3 f_equal; lia |].
      apply andb_true_iff. split; [apply Z.leb_le | apply Z.ltb_lt]; lia.
    + cbn [continuation_ok nth_error]. now rewrite Hk1, Hk2, Hk3.
    + reflexivity.
Qed.

Lemma ReadUtfLetters_utf8_encode_witness :
  encoding.ReadUtfLetters [xe2; x82; xac]
  = Returns (Some ([8364], [encoding.mkLetterInfo 0 3])).
Proof.
  exact (ReadUtfLetters_utf8_encode 8364 ltac:(lia)).
Defined.

(** * Further properties of the classifier and the ranker *)

(** ** Tables of alphabets *)

Lemma IsAlpha_in_sound (table : list Alphabet) (c : Z) :
  IsAlpha_in table c = true ->
  exists a, In a table /\ upperCaseBegin a <= c < lowerCaseEnd a.
Proof.
  induction table as [| a table IH]; cbn [IsAlpha_in]; [discriminate |].
  destruct (Z.ltb_spec c (upperCaseBegin a)); [discriminate |].
  destruct (Z.ltb_spec c (lowerCaseEnd a)).
  - intros _. exists a. split; [now left | lia].
  - intros Hrest. destruct (IH Hrest) as (a' & Hin & Hc).
    exists a'. split; [now right | exact Hc].
Qed.

Lemma IsAlpha_in_complete (table : list Alphabet) (c : Z) :
  ascending table ->
  (exists a, In a table /\ upperCaseBegin a <= c < lowerCaseEnd a) ->
  IsAlpha_in table c = true.
Proof.
  induction 1 as [| a table Hsorted IH Hfirst]; intros (a' & Hin & Hc);
    [destruct Hin |].
  cbn [IsAlpha_in]. rewrite Forall_forall in Hfirst.
  assert (Hge : upperCaseBegin a <= c).
  { destruct Hin as [-> | Hin]; [lia |]. specialize (Hfirst a' Hin). lia. }
  destruct (Z.ltb_spec c (upperCaseBegin a)); [lia |].
  destruct (Z.ltb_spec c (lowerCaseEnd a)); [reflexivity |].
  apply IH. exists a'. split; [| exact Hc].
  destruct Hin as [-> | Hin]; [lia | exact Hin].
Qed.

(** X10. The early exit of [IsAlpha] is sound for a table in ascending
    order of [upperCaseBegin], as the predefined one is: a codepoint is
    alphabetic exactly when it lies in the interval
    [upperCaseBegin, lowerCaseEnd) of some descriptor. For a table that
    is not in that order the early exit loses letters. *)
Theorem IsAlpha_in_ascending (table : list Alphabet) (c : Z) :
  ascending alphabets /\
  (ascending table ->
   (IsAlpha_in table c = true <->
    exists a, In a table /\ upperCaseBegin a <= c < lowerCaseEnd a)) /\
  IsAlpha_in [mkAlphabet 1040 1072 1104; mkAlphabet 65 97 122] 70 = false.
Proof.
  split; [| split; [| reflexivity]].
  - repeat constructor. cbn. lia.
  - intros Hsorted. split.
    + apply IsAlpha_in_sound.
    + now apply IsAlpha_in_complete.
Qed.

Lemma IsAlpha_in_ascending_witness :
  IsAlpha_in alphabets 1050 = true <->
  exists a, In a alphabets /\ upperCaseBegin a <= 1050 < lowerCaseEnd a.
Proof.
  apply (proj1 (proj2 (IsAlpha_in_ascending alphabets 1050))).
  apply (proj1 (IsAlpha_in_ascending alphabets 1050)).
Defined.

(** ** Folding and classification together *)

(** X11. Which codepoints end up inside words. Folding is idempotent and
    leaves no codepoint in an upper-case interval. A codepoint is
    alphabetic after folding exactly when it is one of 65..89, 97..121
    or 1040..1103: the letters Z and z, and the codes 91..96 that
    [IsAlpha] accepts before folding, separate words. *)
Theorem IsAlpha_fold_letter (c : Z) :
  fold_letter (fold_letter c) = fold_letter c /\
  ~ (65 <= fold_letter c < 97 \/ 1040 <= fold_letter c < 1072) /\
  (IsAlpha (fold_letter c) = true <->
   65 <= c <= 89 \/ 97 <= c <= 121 \/ 1040 <= c <= 1103) /\
  (90 <= c <= 96 -> IsAlpha c = true /\ IsAlpha (fold_letter c) = false) /\
  IsAlpha 122 = false.
Proof.
  assert (Hfold : fold_letter c = c + 32 /\ (65 <= c < 97 \/ 1040 <= c < 1072)
                  \/ fold_letter c = c /\
                     ~ (65 <= c < 97 \/ 1040 <= c < 1072)).
  { rewrite fold_letter_cases.
    destruct (Z.leb_spec 65 c), (Z.ltb_spec c 97),
             (Z.leb_spec 1040 c), (Z.ltb_spec c 1072);
      cbn [andb orb]; first [left; split; [reflexivity | lia]
                            | right; split; [reflexivity | lia]]. }
  split; [| split; [| split; [| split; [| reflexivity]]]].
  - destruct Hfold as [[-> Hc] | [-> Hc]].
    + rewrite fold_letter_cases.
      destruct (Z.leb_spec 65 (c + 32)), (Z.ltb_spec (c + 32) 97),
               (Z.leb_spec 1040 (c + 32)), (Z.ltb_spec (c + 32) 1072);
        cbn [andb orb]; solve [reflexivity | lia].
    + rewrite fold_letter_cases.
      destruct (Z.leb_spec 65 c), (Z.ltb_spec c 97),
               (Z.leb_spec 1040 c), (Z.ltb_spec c 1072);
        cbn [andb orb]; solve [reflexivity | lia].
  - destruct Hfold as [[-> Hc] | [-> Hc]]; lia.
  - rewrite IsAlpha_ranges. destruct Hfold as [[-> Hc] | [-> Hc]]; lia.
  - intros Hc. rewrite <- Bool.not_true_iff_false, !IsAlpha_ranges.
    destruct Hfold as [[-> Hc'] | [-> Hc']]; lia.
Qed.

Lemma IsAlpha_fold_letter_witness :
  IsAlpha 90 = true /\ IsAlpha (fold_letter 90) = false.
Proof.
  apply (proj1 (proj2 (proj2 (proj2 (IsAlpha_fold_letter 90))))). lia.
Defined.

(** ** The comparator *)

(** X12. The comparator that [Main] hands to [std::sort] is a strict
    weak ordering, as [std::sort] requires of it: no record is less than
    itself, "less" is transitive, and so is "neither is less". *)
Theorem word_less_strict_weak_order (letters : list Z) (a b c : WordInfo) :
  word_less letters a a = false /\
  (word_less letters a b = true -> word_less letters b a = false) /\
  (word_less letters a b = true -> word_less letters b c = true ->
   word_less letters a c = true) /\
  (word_less letters a b = false -> word_less letters b a = false ->
   word_less letters b c = false -> word_less letters c b = false ->
   word_less letters a c = false /\ word_less letters c a = false).
Proof.
  split; [| split; [| split]].
  - destruct (word_less letters a a) eqn:H; [| reflexivity].
    pose proof (word_less_asym letters a a H). congruence.
  - apply word_less_asym.
  - intros Hab Hbc.
    destruct (word_less letters a c) eqn:Hac; [reflexivity |].
    apply word_less_asym in Hbc.
    pose proof (word_le_trans letters b c a Hbc Hac) as Hba.
    unfold word_le in Hba. congruence.
  - intros Hab Hba Hbc Hcb. split.
    + exact (word_le_trans letters c b a Hbc Hab).
    + exact (word_le_trans letters a b c Hba Hcb).
Qed.

Lemma word_less_strict_weak_order_witness :
  word_less [97; 32; 98; 32; 99] (mkWordInfo 0 1 1) (mkWordInfo 4 1 1) = true.
Proof.
  apply (proj1 (proj2 (proj2 (word_less_strict_weak_order
                                [97; 32; 98; 32; 99]
                                (mkWordInfo 0 1 1) (mkWordInfo 2 1 1)
                                (mkWordInfo 4 1 1))))); reflexivity.
Defined.

(** * Further properties of the segmenter and the aggregator *)

(** ** Words are the maximal runs of letters *)

Lemma skipn_cons_inv (letters rest : list Z) (l : Z) :
  forall i,
    skipn i letters = l :: rest ->
    letter_at letters i = l /\ skipn (S i) letters = rest /\
    (i < length letters)%nat.
Proof.
  induction letters as [| x letters IH]; intros [| i] H; cbn [skipn] in H;
    try discriminate H.
  - injection H as -> ->. cbn. repeat split. lia.
  - destruct (IH i H) as (H1 & H2 & H3).
    cbn [letter_at nth length skipn] in *. repeat split; [exact H1 | exact H2 | lia].
Qed.

Lemma open_word_step (letters : list Z) (letterIndex : nat)
    (firstLetter : option nat) :
  open_word letters letterIndex firstLetter ->
  IsAlpha (letter_at letters letterIndex) = true ->
  open_word letters (S letterIndex)
    (match firstLetter with
     | None => Some letterIndex
     | Some f => Some f
     end).
Proof.
  intros Hopen Halpha. destruct firstLetter as [f |]; cbn [open_word] in *.
  - destruct Hopen as (Hf & Hall & Hleft).
    split; [lia | split; [| exact Hleft]].
    intros i Hi. destruct (Nat.eq_dec i letterIndex) as [-> | Hne];
      [exact Halpha | apply Hall; lia].
  - split; [lia | split; [| exact Hopen]].
    intros i Hi. replace i with letterIndex by lia. exact Halpha.
Qed.

Lemma open_word_close (letters : list Z) (letterIndex : nat) :
  IsAlpha (letter_at letters letterIndex) = false ->
  open_word letters (S letterIndex) None.
Proof.
  intros H. cbn [open_word]. right.
  now replace (S letterIndex - 1)%nat with letterIndex by lia.
Qed.

Lemma segments_loop_runs (letters rest : list Z) :
  forall letterIndex firstLetter,
    skipn letterIndex letters = rest ->
    (letterIndex <= length letters)%nat ->
    open_word letters letterIndex firstLetter ->
    forall f c,
      In (f, c) (segments_loop rest letterIndex firstLetter) ->
      maximal_run letters f c.
Proof.
  induction rest as [| l rest IH];
    intros letterIndex firstLetter Hskip Hle Hopen f c Hin;
    cbn [segments_loop] in Hin.
  - assert (Hend : letterIndex = length letters).
    { apply (f_equal (@length Z)) in Hskip.
      rewrite length_skipn in Hskip. cbn in Hskip. lia. }
    destruct firstLetter as [f0 |]; [| destruct Hin].
    destruct Hin as [[= <- <-] | []].
    destruct Hopen as (Hf & Hall & Hleft).
    repeat split; [lia | lia | | exact Hleft | left; lia].
    intros i Hi. apply Hall. lia.
  - destruct (skipn_cons_inv letters rest l letterIndex Hskip)
      as (Hl & Hskip' & Hlt).
    destruct (IsAlpha l) eqn:Halpha.
    + apply (IH (S letterIndex) _ Hskip' Hlt) in Hin; [exact Hin |].
      apply open_word_step; [exact Hopen | now rewrite Hl].
    + assert (Hclose : open_word letters (S letterIndex) None)
        by (apply open_word_close; now rewrite Hl).
      destruct firstLetter as [f0 |].
      * destruct Hin as [[= <- <-] | Hin];
          [| exact (IH (S letterIndex) None Hskip' Hlt Hclose f c Hin)].
        destruct Hopen as (Hf & Hall & Hleft).
        repeat split; [lia | lia | | exact Hleft |].
        -- intros i Hi. apply Hall. lia.
        -- right. replace (f0 + (letterIndex - f0))%nat with letterIndex
             by lia.
           now rewrite Hl.
      * exact (IH (S letterIndex) None Hskip' Hlt Hclose f c Hin).
Qed.

Lemma segments_loop_covers (letters rest : list Z) :
  forall letterIndex firstLetter i,
    skipn letterIndex letters = rest ->
    (letterIndex <= length letters)%nat ->
    (forall f0, firstLetter = Some f0 -> (f0 <= letterIndex)%nat) ->
    ((letterIndex <= i < length letters)%nat /\
     IsAlpha (letter_at letters i) = true) \/
    (exists f0, firstLetter = Some f0 /\ (f0 <= i < letterIndex)%nat) ->
    exists f c,
      In (f, c) (segments_loop rest letterIndex firstLetter) /\
      (f <= i < f + c)%nat.
Proof.
  induction rest as [| l rest IH];
    intros letterIndex firstLetter i Hskip Hle Hf Hi; cbn [segments_loop].
  - assert (Hend : letterIndex = length letters).
    { apply (f_equal (@length Z)) in Hskip.
      rewrite length_skipn in Hskip. cbn in Hskip. lia. }
    destruct Hi as [[Hi _] | (f0 & -> & Hi)]; [lia |].
    exists f0, (letterIndex - f0)%nat. split; [now left | lia].
  - destruct (skipn_cons_inv letters rest l letterIndex Hskip)
      as (Hl & Hskip' & Hlt).
    destruct (IsAlpha l) eqn:Halpha.
    + apply (IH (S letterIndex) _ i Hskip' Hlt).
      * destruct firstLetter as [f0 |]; intros f1 [= <-];
          [specialize (Hf f0 eq_refl) |]; lia.
      * destruct Hi as [[Hi Hai] | (f0 & -> & Hi)].
        -- destruct (Nat.eq_dec i letterIndex) as [-> | Hne];
             [| left; split; [lia | exact Hai]].
           right. destruct firstLetter as [f0 |].
           ++ exists f0. split; [reflexivity |].
              specialize (Hf f0 eq_refl). lia.
           ++ exists letterIndex. split; [reflexivity | lia].
        -- right. exists f0. split; [reflexivity | lia].
    + assert (Hne : IsAlpha (letter_at letters i) = true -> i <> letterIndex)
        by (intros Hai ->; congruence).
      assert (Hnone : forall f0 : nat, None = Some f0 -> (f0 <= S letterIndex)%nat)
        by (intros f0 [=]).
      destruct firstLetter as [f0 |].
      * destruct Hi as [[Hi Hai] | (f1 & [= <-] & Hi)].
        -- specialize (Hne Hai).
           destruct (IH (S letterIndex) None i Hskip' Hlt Hnone)
             as (f & c & Hin & Hc);
             [left; split; [lia | exact Hai] |].
           exists f, c. split; [now right | exact Hc].
        -- exists f0, (letterIndex - f0)%nat. split; [now left | lia].
      * destruct Hi as [[Hi Hai] | (f1 & [=] & _)].
        specialize (Hne Hai).
        apply (IH (S letterIndex) None i Hskip' Hlt Hnone).
        left. split; [lia | exact Hai].
Qed.

Lemma gather_words_runs (letters : list Z) :
  Z.of_nat (length letters) < 2 ^ 31 ->
  forall w, In w (gather_words letters) ->
    maximal_run letters (startLetterIndex w) (lettersCount w).
Proof.
  intros Hsmall w Hw.
  destruct (proj2 (gather_words_records letters Hsmall) w Hw)
    as (_ & _ & pre & post & Hseg & _).
  apply (segments_loop_runs letters letters 0 None eq_refl (Nat.le_0_l _)).
  - now left.
  - fold (segments letters). rewrite Hseg.
    apply in_or_app. right. now left.
Qed.

Lemma gather_words_covered (letters : list Z) :
  Z.of_nat (length letters) < 2 ^ 31 ->
  forall i, (i < length letters)%nat ->
    IsAlpha (letter_at letters i) = true ->
    exists f c w,
      In (f, c) (segments letters) /\ (f <= i < f + c)%nat /\
      In w (gather_words letters) /\ matches letters f c w.
Proof.
  intros Hsmall i Hi Halpha.
  destruct (segments_loop_covers letters letters 0 None i eq_refl
              (Nat.le_0_l _) ltac:(intros f0 [=]))
    as (f & c & Hin & Hc);
    [left; split; [lia | exact Halpha] |].
  fold (segments letters) in Hin.
  destruct (aggregate_represents letters (segments letters) (f, c) Hin)
    as (w & Hw & Hm).
  exists f, c, w. rewrite (gather_words_aggregate letters Hsmall). auto.
Qed.

(** X13. The words of a text of fewer than [2^31] letters. Every record
    refers to a maximal run of alphabetic letters: at least one letter,
    all of them alphabetic, and no alphabetic letter directly before or
    after. No letter is lost: every alphabetic letter lies in a word that
    was handed to [registerWord] and whose codepoints some record refers
    to. *)
Theorem gather_words_maximal_runs (letters : list Z) :
  Z.of_nat (length letters) < 2 ^ 31 ->
  (forall w, In w (gather_words letters) ->
     maximal_run letters (startLetterIndex w) (lettersCount w)) /\
  (forall i, (i < length letters)%nat ->
     IsAlpha (letter_at letters i) = true ->
     exists f c w,
       In (f, c) (segments letters) /\ (f <= i < f + c)%nat /\
       In w (gather_words letters) /\ matches letters f c w).
Proof.
  intros Hsmall. split.
  - exact (gather_words_runs letters Hsmall).
  - exact (gather_words_covered letters Hsmall).
Qed.

Lemma gather_words_maximal_runs_witness :
  maximal_run [97; 98; 32; 99] 0 2.
Proof.
  apply (proj1 (gather_words_maximal_runs [97; 98; 32; 99]
                  ltac:(vm_compute; reflexivity))
           (mkWordInfo 0 2 1)).
  now left.
Defined.

(** ** Counts are the numbers of occurrences *)

Section Counting.

Variable letters : list Z.

Lemma matchesb_key (f c : nat) (w w' : WordInfo) :
  word_key w = word_key w' ->
  matchesb letters f c w = matchesb letters f c w'.
Proof.
  unfold word_key, matchesb. intros [= -> ->]. reflexivity.
Qed.

Lemma occurrences_key (calls : list (nat * nat)) (w w' : WordInfo) :
  word_key w = word_key w' ->
  occurrences letters calls w = occurrences letters calls w'.
Proof.
  intros Hk. unfold occurrences. f_equal.
  apply filter_ext. intros call. now apply matchesb_key.
Qed.

Lemma occurrences_snoc (calls : list (nat * nat)) (call : nat * nat)
    (w : WordInfo) :
  occurrences letters (calls ++ [call]) w
  = (occurrences letters calls w
     + if matchesb letters (fst call) (snd call) w then 1 else 0)%nat.
Proof.
  unfold occurrences. rewrite filter_app, length_app. cbn [filter].
  destruct (matchesb letters (fst call) (snd call) w); reflexivity.
Qed.

Lemma occurrences_none (calls : list (nat * nat)) (w : WordInfo) :
  (forall call, In call calls ->
     ~ matches letters (fst call) (snd call) w) ->
  occurrences letters calls w = 0%nat.
Proof.
  intros Hno. unfold occurrences.
  induction calls as [| call calls IH]; [reflexivity |].
  cbn [filter].
  rewrite (proj2 (matchesb_false letters (fst call) (snd call) w))
    by (apply Hno; now left).
  apply IH. intros call' Hin. apply Hno. now right.
Qed.

Lemma total_entries_app (ws ws' : list WordInfo) :
  total_entries (ws ++ ws') = total_entries ws + total_entries ws'.
Proof.
  induction ws as [| w ws IH]; [reflexivity |].
  cbn [app]. unfold total_entries in *. cbn [fold_right]. rewrite IH. lia.
Qed.

(** One call adds one to the sum of the counts. *)
Lemma registerWord_total (words : list WordInfo) (f c : nat) :
  Forall (fun w => 1 <= entries w < 2 ^ 64 - 1) words ->
  total_entries (registerWord letters words f c) = total_entries words + 1.
Proof.
  intros Hall.
  destruct (registerWord_search letters words f c)
    as [Hno | (pre & word & post & -> & Hno & Hword)].
  - rewrite (registerWord_new letters words f c Hno), total_entries_app.
    cbn. lia.
  - rewrite (registerWord_found letters pre post word f c Hno Hword).
    rewrite !total_entries_app.
    apply Forall_app in Hall as [_ Hall].
    inversion Hall as [| ? ? Hw _]; subst.
    cbn [total_entries fold_right entries].
    rewrite size_t_increment by lia. lia.
Qed.

Lemma aggregate_counts (calls : list (nat * nat)) :
  Z.of_nat (length calls) < 2 ^ 64 - 1 ->
  (forall w, In w (aggregate letters calls) ->
     entries w = Z.of_nat (occurrences letters calls w)) /\
  total_entries (aggregate letters calls) = Z.of_nat (length calls).
Proof.
  induction calls as [| last calls IH] using rev_ind; intros Hlen.
  - split; [intros w [] | reflexivity].
  - rewrite length_app in Hlen. cbn [length] in Hlen.
    destruct IH as (IHw & IHtotal); [lia |].
    destruct (aggregate_invariant letters calls ltac:(lia))
      as ((Hdist & _) & Hbound).
    rewrite aggregate_snoc. split.
    + intros w Hw. rewrite occurrences_snoc.
      destruct (registerWord_search letters (aggregate letters calls)
                  (fst last) (snd last))
        as [Hno | (pre & word & post & Hagg & Hno & Hword)].
      * rewrite (registerWord_new letters _ _ _ Hno) in Hw.
        apply in_app_or in Hw as [Hw | [<- | []]].
        -- rewrite (proj2 (matchesb_false letters _ _ w) (Hno w Hw)).
           rewrite (IHw w Hw). lia.
        -- rewrite (proj2 (matchesb_spec letters (fst last) (snd last) _))
             by (apply matches_key_eq, key_eq_refl).
           rewrite occurrences_none; [reflexivity |].
           intros call Hcall Hm.
           destruct (aggregate_represents letters calls call Hcall)
             as (w0 & Hw0 & Hm0).
           apply (Hno w0 Hw0). apply matches_key_eq.
           apply key_eq_trans with call;
             [apply key_eq_sym; exact Hm | destruct call; exact Hm0].
      * rewrite Hagg in Hw, Hdist, IHw, Hbound.
        rewrite (registerWord_found letters pre post word _ _ Hno Hword)
          in Hw.
        set (word' := {| startLetterIndex := startLetterIndex word;
                         lettersCount := lettersCount word;
                         entries := size_t_wrap (entries word + 1) |}) in *.
        assert (Hother : forall k x,
                   nth_error (pre ++ word :: post) k = Some x ->
                   k <> length pre ->
                   matchesb letters (fst last) (snd last) x = false).
        { intros k x Hk Hne. apply matchesb_false. intros Hm.
          apply Hne. apply (Hdist k (length pre) x word Hk).
          - rewrite nth_error_app2 by lia. now rewrite Nat.sub_diag.
          - apply matches_key_eq in Hm, Hword. apply matches_key_eq.
            apply key_eq_trans with (fst last, snd last);
              [now apply key_eq_sym | exact Hword]. }
        apply in_app_or in Hw as [Hw | [<- | Hw]].
        -- apply In_nth_error in Hw as (k & Hk).
           assert (Hklt : (k < length pre)%nat)
             by (apply nth_error_Some; congruence).
           rewrite (Hother k w) by
             (rewrite ?nth_error_app1 by lia; solve [exact Hk | lia]).
           rewrite (IHw w) by (apply in_or_app; left;
                               eapply nth_error_In; exact Hk).
           lia.
        -- rewrite (matchesb_key _ _ word' word eq_refl).
           rewrite (proj2 (matchesb_spec letters _ _ word) Hword).
           rewrite (occurrences_key calls word' word eq_refl).
           assert (Hin : In word (pre ++ word :: post))
             by (apply in_or_app; right; now left).
           rewrite Forall_forall in Hbound.
           specialize (Hbound word Hin).
           unfold word'. cbn [entries].
           rewrite size_t_increment by lia.
           rewrite (IHw word Hin). lia.
        -- apply In_nth_error in Hw as (k & Hk).
           rewrite (Hother (length pre + S k)%nat w).
           ++ rewrite (IHw w) by (apply in_or_app; right; right;
                                  eapply nth_error_In; exact Hk).
              lia.
           ++ rewrite nth_error_app2 by lia.
              replace (length pre + S k - length pre)%nat with (S k) by lia.
              exact Hk.
           ++ lia.
    + rewrite registerWord_total.
      * rewrite IHtotal, length_app. cbn [length]. lia.
      * eapply Forall_impl; [| exact Hbound]. cbn. intros; lia.
Qed.

End Counting.

(** X14. The counts of a run over fewer than [2^31] letters. The
    [entries] of every record is the number of words of the text that
    have its codepoints, and the counts of all records add up to the
    number of words of the text. *)
Theorem gather_words_counts (letters : list Z) :
  Z.of_nat (length letters) < 2 ^ 31 ->
  (forall w, In w (gather_words letters) ->
     entries w = Z.of_nat (occurrences letters (segments letters) w)) /\
  total_entries (gather_words letters)
  = Z.of_nat (length (segments letters)).
Proof.
  intros Hsmall. rewrite (gather_words_aggregate letters Hsmall).
  apply aggregate_counts.
  pose proof (segments_loop_length letters 0 None) as Hs.
  fold (segments letters) in Hs. lia.
Qed.

Lemma gather_words_counts_witness :
  total_entries (gather_words [97; 32; 98; 32; 97])
  = Z.of_nat (length (segments [97; 32; 98; 32; 97])).
Proof.
  apply (proj2 (gather_words_counts [97; 32; 98; 32; 97]
                  ltac:(vm_compute; reflexivity))).
Defined.

(** * Further properties of the output *)

(** ** The order of the lines *)

Lemma distinct_words_NoDup (letters : list Z) (words : list WordInfo) :
  distinct_words letters words -> NoDup words.
Proof.
  intros Hd. apply NoDup_nth_error. intros i j Hi Heq.
  destruct (nth_error words i) as [a |] eqn:Ha;
    [| apply nth_error_None in Ha; lia].
  apply (Hd i j a a Ha (eq_sym Heq)).
  apply matches_key_eq, key_eq_refl.
Qed.

Lemma ranks_before_of_word_le (letters : list Z) (a b : WordInfo) :
  word_le letters a b ->
  (word_le letters b a -> a = b) ->
  a <> b ->
  ranks_before letters a b.
Proof.
  unfold word_le, ranks_before. intros Hab Hanti Hne.
  destruct (lexicographical_compare (word_letters letters a)
              (word_letters letters b)) eqn:Hlex.
  - unfold word_less in Hab.
    destruct (Z.eqb_spec (entries b) (entries a)); [right; auto | left; lia].
  - unfold word_less in Hab, Hanti.
    destruct (Z.eqb_spec (entries b) (entries a)) as [He | He];
      [| left; lia].
    exfalso. apply Hne, Hanti.
    destruct (Z.eqb_spec (entries a) (entries b)); [exact Hlex | lia].
Qed.

Lemma sorted_ranks_before (letters : list Z) (words : list WordInfo) :
  StronglySorted (word_le letters) words ->
  NoDup words ->
  (forall a b, In a words -> In b words ->
     word_le letters a b -> word_le letters b a -> a = b) ->
  StronglySorted (ranks_before letters) words.
Proof.
  induction 1 as [| a words Hsorted IH Ha]; intros Hnodup Hanti;
    constructor.
  - inversion Hnodup; subst.
    apply IH; [assumption |]. intros x y Hx Hy. apply Hanti; now right.
  - inversion Hnodup as [| ? ? Hnotin _]; subst.
    rewrite Forall_forall in *. intros b Hb.
    apply ranks_before_of_word_le; [now apply Ha | |].
    + apply Hanti; [now left | now right | now apply Ha].
    + intros ->. contradiction.
Qed.

Lemma gather_words_antisym (letters : list Z) (a b : WordInfo) :
  Z.of_nat (length letters) < 2 ^ 31 ->
  In a (gather_words letters) -> In b (gather_words letters) ->
  word_le letters a b -> word_le letters b a -> a = b.
Proof.
  intros Hsmall Ha Hb Hab Hba.
  destruct (gather_words_records letters Hsmall) as ((Hdist & _) & Hrec).
  destruct (word_le_antisym letters a b Hab Hba) as (_ & Hletters).
  destruct (Hrec a Ha) as (_ & Hinside_a & _).
  destruct (Hrec b Hb) as (_ & Hinside_b & _).
  pose proof (word_letters_same_content letters a b
                Hinside_a Hinside_b Hletters) as Hsame.
  apply In_nth_error in Ha as (i & Hi).
  apply In_nth_error in Hb as (j & Hj).
  assert (i = j) by (eapply Hdist; eassumption).
  congruence.
Qed.

(** X15. The order of the output of a successful run that decodes fewer
    than [2^31] letters: no record is written twice, and of any two lines
    the earlier one has the greater count or, the counts being equal,
    the folded word that is strictly first in the lexicographic order of
    the codepoints. *)
Theorem Main_output_ranked (inv : invocation) (buffer : list byte)
    (letters : list Z) (lettersInfos : list encoding.LetterInfo) :
  argc inv = 3 ->
  input_is_open inv = true ->
  output_is_open inv = true ->
  ReadStreamToBuffer (input inv) = Returns (Some buffer) ->
  encoding.ReadUtfLetters buffer = Returns (Some (letters, lettersInfos)) ->
  Z.of_nat (length letters) < 2 ^ 31 ->
  exists words,
    Main inv
    = Returns (NoError,
               Some (flat_map (write_word buffer lettersInfos) words)) /\
    Permutation words (gather_words (fold_letters letters)) /\
    NoDup words /\
    StronglySorted (ranks_before (fold_letters letters)) words.
Proof.
  intros Hargc Hin Hout Hread Hdec Hsmall.
  set (folded := fold_letters letters).
  assert (Hsmall' : Z.of_nat (length folded) < 2 ^ 31)
    by (unfold folded, fold_letters; now rewrite length_map).
  exists (sort_words folded (gather_words folded)).
  pose proof (sort_words_permutation folded (gather_words folded)) as Hperm.
  destruct (gather_words_records folded Hsmall') as ((Hdist & _) & _).
  assert (Hnodup : NoDup (sort_words folded (gather_words folded))).
  { eapply Permutation_NoDup;
      [apply Permutation_sym; exact Hperm |].
    now apply (distinct_words_NoDup folded). }
  split; [| split; [exact Hperm | split; [exact Hnodup |]]].
  - unfold Main. rewrite Hargc, Hin, Hout, Hread, Hdec.
    change (3 =? 3) with true. reflexivity.
  - apply sorted_ranks_before;
      [apply sort_words_sorted | exact Hnodup |].
    intros a b Ha Hb.
    apply (Permutation_in _ Hperm) in Ha, Hb.
    now apply gather_words_antisym.
Qed.

Lemma Main_output_ranked_witness :
  exists words,
    Main (run_on (list_byte_of_string "b a b"))
    = Returns (NoError,
               Some (flat_map
                       (write_word (list_byte_of_string "b a b")
                          (map (fun k => encoding.mkLetterInfo k 1)
                               (seq 0 5)))
                       words)) /\
    Permutation words (gather_words (fold_letters [98; 32; 97; 32; 98])) /\
    NoDup words /\
    StronglySorted (ranks_before (fold_letters [98; 32; 97; 32; 98])) words.
Proof.
  apply (Main_output_ranked (run_on (list_byte_of_string "b a b"))
           (list_byte_of_string "b a b") [98; 32; 97; 32; 98]
           (map (fun k => encoding.mkLetterInfo k 1) (seq 0 5))
           eq_refl eq_refl eq_refl eq_refl eq_refl).
  vm_compute. reflexivity.
Defined.

(** ** Empty output *)

Lemma write_word_not_nil (buffer : list byte)
    (lettersInfos : list encoding.LetterInfo) (w : WordInfo) :
  write_word buffer lettersInfos w <> [].
Proof.
  unfold write_word. intros H.
  apply app_eq_nil in H as [_ H]. discriminate H.
Qed.

(** X16. When the output is empty. A successful run writes nothing if no
    decoded letter is alphabetic after folding; and a run that decodes
    fewer than [2^31] letters and writes nothing has no letter that is
    alphabetic after folding. *)
Theorem Main_output_empty (inv : invocation) (buffer : list byte)
    (letters : list Z) (lettersInfos : list encoding.LetterInfo) :
  argc inv = 3 ->
  input_is_open inv = true ->
  output_is_open inv = true ->
  ReadStreamToBuffer (input inv) = Returns (Some buffer) ->
  encoding.ReadUtfLetters buffer = Returns (Some (letters, lettersInfos)) ->
  (Forall (fun c => IsAlpha (fold_letter c) = false) letters ->
   Main inv = Returns (NoError, Some [])) /\
  (Z.of_nat (length letters) < 2 ^ 31 ->
   Main inv = Returns (NoError, Some []) ->
   Forall (fun c => IsAlpha (fold_letter c) = false) letters).
Proof.
  intros Hargc Hin Hout Hread Hdec.
  assert (Hmain : Main inv
                  = Returns (NoError,
                             Some (write_words buffer lettersInfos
                                     (sort_words (fold_letters letters)
                                        (gather_words
                                           (fold_letters letters)))))).
  { unfold Main. rewrite Hargc, Hin, Hout, Hread, Hdec.
    change (3 =? 3) with true. reflexivity. }
  set (folded := fold_letters letters) in *.
  split.
  - intros Hno. rewrite Hmain.
    assert (Hfolded : Forall (fun c => IsAlpha c = false) folded).
    { unfold folded, fold_letters. now apply Forall_map. }
    unfold gather_words.
    rewrite (gather_loop_not_alpha folded folded Hfolded 0 []).
    reflexivity.
  - intros Hsmall Hempty. rewrite Hmain in Hempty.
    injection Hempty as Hempty.
    assert (Hsmall' : Z.of_nat (length folded) < 2 ^ 31)
      by (unfold folded, fold_letters; now rewrite length_map).
    apply Forall_nth. intros i d Hi.
    destruct (IsAlpha (fold_letter (nth i letters d))) eqn:Halpha;
      [| reflexivity].
    exfalso.
    assert (Hat : letter_at folded i = fold_letter (nth i letters d)).
    { unfold letter_at, folded, fold_letters.
      rewrite (nth_indep _ 0 (fold_letter d))
        by (now rewrite length_map).
      apply map_nth. }
    destruct (gather_words_covered folded Hsmall' i)
      as (f & c & w & _ & _ & Hw & _).
    + unfold folded, fold_letters. now rewrite length_map.
    + now rewrite Hat.
    + apply (Permutation_in _
               (Permutation_sym (sort_words_permutation folded _))) in Hw.
      unfold write_words in Hempty.
      apply in_split in Hw as (l1 & l2 & Hsplit).
      rewrite Hsplit, flat_map_app in Hempty. cbn [flat_map] in Hempty.
      apply app_eq_nil in Hempty as [_ Hempty].
      apply app_eq_nil in Hempty as [Hempty _].
      now apply write_word_not_nil in Hempty.
Qed.

Lemma Main_output_empty_witness :
  Main (run_on (list_byte_of_string "Zz 1"))
  = Returns (NoError, Some []).
Proof.
  apply (proj1 (Main_output_empty (run_on (list_byte_of_string "Zz 1"))
                  (list_byte_of_string "Zz 1") [90; 122; 32; 49]
                  (map (fun k => encoding.mkLetterInfo k 1) (seq 0 4))
                  eq_refl eq_refl eq_refl eq_refl eq_refl)).
  repeat constructor.
Defined.

(** ** The lines of the output *)

Lemma string_of_uint_digits (u : Decimal.uint) :
  Forall is_digit (list_byte_of_string (NilEmpty.string_of_uint u)).
Proof.
  induction u; cbn [NilEmpty.string_of_uint];
    first [ solve [constructor]
          | change (list_byte_of_string (String ?c ?s))
              with (byte_of_ascii c :: list_byte_of_string s);
            constructor;
            [unfold is_digit; vm_compute; split; discriminate | exact IHu] ].
Qed.

Lemma decimal_digits (n : Z) : Forall is_digit (decimal n).
Proof.
  unfold decimal, NilZero.string_of_uint.
  destruct (N.to_uint (Z.to_N n)) eqn:Hu;
    try (rewrite <- Hu; apply string_of_uint_digits).
  change (list_byte_of_string "0") with [x30].
  constructor; [unfold is_digit; vm_compute; split; discriminate |].
  constructor.
Qed.

Lemma first_byte_of_letter (b : byte) :
  match encoding.InterpretFirstUtfByte b None None with
  | (true, (Some n, Some v)) =>
      if (n =? 1)%nat then (v =? u8 b) && (u8 b <? 128) else 128 <=? u8 b
  | _ => true
  end = true.
Proof. destruct b; reflexivity. Qed.

Lemma continuation_ok_Forall (buffer : list byte) (count : nat) :
  forall i,
    continuation_ok buffer i count = true ->
    Forall (fun c => is_continuation c = true)
           (firstn count (skipn (S i) buffer)).
Proof.
  induction count as [| count IH]; intros i Hok; [constructor |].
  cbn [continuation_ok] in Hok.
  destruct (nth_error buffer (S i)) as [c |] eqn:Hc; [| discriminate].
  apply andb_true_iff in Hok as [Hcont Hok].
  rewrite (skipn_nth_error_cons buffer (S i) c Hc). cbn [firstn].
  constructor; [exact Hcont | now apply IH].
Qed.

(** The bytes of a letter: the letter itself, or bytes from 0x80 up. *)
Lemma decodes_at_bytes (buffer : list byte) (l : Z)
    (li : encoding.LetterInfo) :
  decodes_at buffer l li ->
  Forall (fun byte => 128 <= u8 byte \/ u8 byte = l)
         (write_letter buffer li).
Proof.
  intros (j & Hrun & Hj & Hcount). unfold write_letter.
  set (off := encoding.bufferOffset li) in *.
  destruct (nth_error buffer off) as [b |] eqn:Hb;
    [| apply nth_error_None in Hb; lia].
  destruct (ReadUtfLetter_cases buffer off b Hb)
    as [(count & v & _ & Hfirst & Hcase) | (_ & Hind)]; [| congruence].
  destruct (continuation_ok buffer off count) eqn:Hok;
    [| destruct Hcase as (st & Hfail); congruence].
  destruct (ReadUtfLetter_value_at buffer off count b v Hb Hfirst Hok)
    as (Hval & _).
  rewrite Hval in Hrun. injection Hrun as Hjeq Hl.
  rewrite Hcount, <- Hjeq.
  replace (Z.to_nat (Z.of_nat (off + S count - off))) with (S count) by lia.
  rewrite (skipn_nth_error_cons buffer off b Hb). cbn [firstn].
  pose proof (first_byte_of_letter b) as Hbyte. rewrite Hfirst in Hbyte.
  constructor.
  - destruct count as [| count]; cbn [Nat.eqb] in Hbyte.
    + apply andb_true_iff in Hbyte as [Hv _]. apply Z.eqb_eq in Hv.
      right. rewrite <- Hl, <- Hv. reflexivity.
    + left. now apply Z.leb_le.
  - eapply Forall_impl; [| exact (continuation_ok_Forall buffer count off Hok)].
    intros c Hc. left. apply is_continuation_range in Hc. lia.
Qed.

Lemma Forall2_skipn {A B : Type} (R : A -> B -> Prop) (n : nat) :
  forall l1 l2, Forall2 R l1 l2 -> Forall2 R (skipn n l1) (skipn n l2).
Proof.
  induction n as [| n IH]; intros l1 l2 H; [exact H |].
  destruct H; cbn [skipn]; [constructor | now apply IH].
Qed.

Lemma Forall2_firstn {A B : Type} (R : A -> B -> Prop) (n : nat) :
  forall l1 l2, Forall2 R l1 l2 -> Forall2 R (firstn n l1) (firstn n l2).
Proof.
  induction n as [| n IH]; intros l1 l2 H; [constructor |].
  destruct H; cbn [firstn]; constructor; [assumption | now apply IH].
Qed.

Lemma letter_at_fold_letters (letters : list Z) (i : nat) :
  letter_at (fold_letters letters) i = fold_letter (letter_at letters i).
Proof.
  unfold letter_at, fold_letters.
  change 0 with (fold_letter 0) at 1. apply map_nth.
Qed.

Lemma alpha_folded_at_least (l : Z) :
  IsAlpha (fold_letter l) = true -> 65 <= l.
Proof.
  rewrite fold_letter_cases, IsAlpha_ranges.
  destruct (Z.leb_spec 65 l), (Z.ltb_spec l 97),
           (Z.leb_spec 1040 l), (Z.ltb_spec l 1072);
    cbn [andb orb]; lia.
Qed.

(** The bytes written for a word that is a run of letters. *)
Lemma word_bytes_letters (buffer : list byte) (letters : list Z)
    (lettersInfos : list encoding.LetterInfo) (w : WordInfo) :
  Forall2 (decodes_at buffer) letters lettersInfos ->
  maximal_run (fold_letters letters) (startLetterIndex w) (lettersCount w) ->
  Forall (fun byte => 65 <= u8 byte) (word_bytes buffer lettersInfos w).
Proof.
  intros Hall (Hc & Hinside & Halpha & _).
  assert (Hlen : length lettersInfos = length letters)
    by (symmetry; eapply Forall2_length; exact Hall).
  unfold fold_letters in Hinside. rewrite length_map in Hinside.
  unfold word_bytes. rewrite write_letters_flat_map by lia.
  rewrite Nat.add_0_r.
  assert (Hslice : Forall2 (decodes_at buffer)
                     (word_letters letters w)
                     (firstn (lettersCount w)
                        (skipn (startLetterIndex w) lettersInfos)))
    by (apply Forall2_firstn, Forall2_skipn; exact Hall).
  assert (Hletters : Forall (fun l => 65 <= l) (word_letters letters w)).
  { apply Forall_nth. intros i d Hi.
    rewrite word_letters_length in Hi by exact Hinside.
    rewrite (nth_indep _ d 0) by (now rewrite word_letters_length).
    rewrite word_letters_nth by exact Hi.
    apply alpha_folded_at_least.
    rewrite <- letter_at_fold_letters. now apply Halpha. }
  induction Hslice as [| l li ls lis Hdec _ IH]; [constructor |].
  inversion Hletters as [| ? ? Hl Hls]; subst.
  cbn [flat_map]. apply Forall_app. split; [| now apply IH].
  eapply Forall_impl; [| exact (decodes_at_bytes buffer l li Hdec)].
  cbn. intros byte [Hb | Hb]; lia.
Qed.

Lemma newlines_none (bytes : list byte) :
  Forall (fun b => u8 b <> 10) bytes -> newlines bytes = 0%nat.
Proof.
  intros H. unfold newlines. apply count_occ_not_In.
  intros Hin. rewrite Forall_forall in H. now apply (H x0a Hin).
Qed.

Lemma newlines_write_word (buffer : list byte)
    (lettersInfos : list encoding.LetterInfo) (w : WordInfo) :
  Forall (fun byte => 65 <= u8 byte) (word_bytes buffer lettersInfos w) ->
  newlines (write_word buffer lettersInfos w) = 1%nat.
Proof.
  intros Hbytes. unfold write_word. fold (word_bytes buffer lettersInfos w).
  unfold newlines. rewrite !count_occ_app.
  fold (newlines (decimal (entries w))).
  fold (newlines (word_bytes buffer lettersInfos w)).
  rewrite !newlines_none; [reflexivity | |].
  - eapply Forall_impl; [| exact Hbytes]. cbn. intros; lia.
  - eapply Forall_impl; [| apply decimal_digits].
    unfold is_digit. intros; lia.
Qed.

(** X17. The lines of the output of a successful run that decodes fewer
    than [2^31] letters. In every line the count is written in decimal
    digits and the word in bytes of value 65 and up, so that neither
    holds a space or a newline: the first space of a line ends the count,
    the only newline ends the line, and the output has as many newlines
    as there are records. *)
Theorem Main_output_lines (inv : invocation) (buffer : list byte)
    (letters : list Z) (lettersInfos : list encoding.LetterInfo) :
  argc inv = 3 ->
  input_is_open inv = true ->
  output_is_open inv = true ->
  ReadStreamToBuffer (input inv) = Returns (Some buffer) ->
  encoding.ReadUtfLetters buffer = Returns (Some (letters, lettersInfos)) ->
  Z.of_nat (length letters) < 2 ^ 31 ->
  exists words out,
    Main inv = Returns (NoError, Some out) /\
    out = flat_map
            (fun w => decimal (entries w) ++ [x20]
                      ++ word_bytes buffer lettersInfos w ++ endl)
            words /\
    (forall w, In w words ->
       Forall is_digit (decimal (entries w)) /\
       Forall (fun byte => 65 <= u8 byte)
              (word_bytes buffer lettersInfos w)) /\
    newlines out = length words.
Proof.
  intros Hargc Hin Hout Hread Hdec Hsmall.
  set (folded := fold_letters letters).
  assert (Hsmall' : Z.of_nat (length folded) < 2 ^ 31)
    by (unfold folded, fold_letters; now rewrite length_map).
  set (words := sort_words folded (gather_words folded)).
  exists words, (write_words buffer lettersInfos words).
  pose proof (ReadUtfLetters_loop_decodes buffer _ 0 _ _ Hdec) as Hall.
  assert (Hbytes : forall w, In w words ->
             Forall (fun byte => 65 <= u8 byte)
                    (word_bytes buffer lettersInfos w)).
  { intros w Hw.
    apply (Permutation_in _ (sort_words_permutation folded _)) in Hw.
    apply (word_bytes_letters buffer letters); [exact Hall |].
    now apply (gather_words_runs folded Hsmall'). }
  split; [| split; [reflexivity | split]].
  - unfold Main. rewrite Hargc, Hin, Hout, Hread, Hdec.
    change (3 =? 3) with true. reflexivity.
  - intros w Hw. split; [apply decimal_digits | now apply Hbytes].
  - unfold write_words. clearbody words.
    induction words as [| w words IH]; [reflexivity |].
    cbn [flat_map length]. unfold newlines in *. rewrite count_occ_app.
    fold (newlines (write_word buffer lettersInfos w)).
    rewrite newlines_write_word by (apply Hbytes; now left).
    rewrite IH; [reflexivity |]. intros x Hx. apply Hbytes. now right.
Qed.

Lemma Main_output_lines_witness :
  exists words out,
    Main (run_on (list_byte_of_string "b a b")) = Returns (NoError, Some out)
    /\ out = flat_map
               (fun w => decimal (entries w) ++ [x20]
                         ++ word_bytes (list_byte_of_string "b a b")
                              (map (fun k => encoding.mkLetterInfo k 1)
                                   (seq 0 5)) w
                         ++ endl)
               words
    /\ (forall w, In w words ->
          Forall is_digit (decimal (entries w)) /\
          Forall (fun byte => 65 <= u8 byte)
                 (word_bytes (list_byte_of_string "b a b")
                    (map (fun k => encoding.mkLetterInfo k 1) (seq 0 5)) w))
    /\ newlines out = length words.
Proof.
  apply (Main_output_lines (run_on (list_byte_of_string "b a b"))
           (list_byte_of_string "b a b") [98; 32; 97; 32; 98]
           (map (fun k => encoding.mkLetterInfo k 1) (seq 0 5))
           eq_refl eq_refl eq_refl eq_refl eq_refl).
  vm_compute. reflexivity.
Defined.

(** * The three outcomes of decoding *)

Lemma ReadUtfLetters_loop_indeterminate (buffer : list byte) (fuel : nat) :
  forall i letters letterInfos,
    encoding.ReadUtfLetters_loop fuel buffer i letters letterInfos
    = Indeterminate ->
    exists s b,
      reaches buffer i s /\ nth_error buffer s = Some b /\
      scan_falls_through b.
Proof.
  induction fuel as [| fuel IH]; intros i letters letterInfos.
  - cbn [encoding.ReadUtfLetters_loop].
    destruct (i <? length buffer)%nat; discriminate.
  - rewrite ReadUtfLetters_loop_S.
    destruct (Nat.ltb_spec i (length buffer)) as [Hi |]; [| discriminate].
    destruct (nth_error buffer i) as [b |] eqn:Hb;
      [| apply nth_error_None in Hb; lia].
    destruct (ReadUtfLetter_cases buffer i b Hb)
      as [(count & v & _ & _ & Hcase) | (Hfall & Hind)].
    + destruct (continuation_ok buffer i count).
      * destruct Hcase as (l' & Hrun). rewrite Hrun.
        intros H. apply IH in H as (s & b' & Hreach & Hb' & Hfall).
        exists s, b'. split; [| auto].
        exact (reaches_step buffer i _ s l' Hi Hrun Hreach).
      * destruct Hcase as (st & Hrun). rewrite Hrun. discriminate.
    + intros _. exists i, b. split; [constructor | auto].
Qed.

(** X18. The three outcomes of [ReadUtfLetters]. The result is not
    determined exactly when some letter that the loop comes to starts
    with one of the bytes on which [InterpretFirstUtfByte] assigns
    nothing; the buffer is accepted exactly when no letter the loop comes
    to starts with such a byte or lacks a continuation byte; in every
    other case it is rejected. *)
Theorem ReadUtfLetters_outcomes (buffer : list byte) :
  (encoding.ReadUtfLetters buffer = Indeterminate <->
   exists s b, letter_start buffer s /\ nth_error buffer s = Some b /\
               scan_falls_through b) /\
  ((exists letters letterInfos,
      encoding.ReadUtfLetters buffer
      = Returns (Some (letters, letterInfos))) <->
   forall s, letter_start buffer s ->
     ~ sequence_broken_at buffer s /\
     forall b, nth_error buffer s = Some b -> ~ scan_falls_through b) /\
  (encoding.ReadUtfLetters buffer = Returns None \/
   encoding.ReadUtfLetters buffer = Indeterminate \/
   exists letters letterInfos,
     encoding.ReadUtfLetters buffer = Returns (Some (letters, letterInfos))).
Proof.
  assert (Hind : encoding.ReadUtfLetters buffer = Indeterminate <->
                 exists s b, letter_start buffer s /\
                             nth_error buffer s = Some b /\
                             scan_falls_through b).
  { split.
    - apply ReadUtfLetters_loop_indeterminate.
    - intros (s & b & Hstart & Hb & Hfall).
      assert (Hs : (s < length buffer)%nat)
        by (apply nth_error_Some; congruence).
      apply (ReadUtfLetters_loop_indeterminate_at buffer 0 s Hstart);
        [exact Hs | | lia].
      now apply (ReadUtfLetter_falls_through buffer s b). }
  assert (Hcases : encoding.ReadUtfLetters buffer = Returns None \/
                   encoding.ReadUtfLetters buffer = Indeterminate \/
                   exists letters letterInfos,
                     encoding.ReadUtfLetters buffer
                     = Returns (Some (letters, letterInfos))).
  { pose proof (ReadUtfLetters_terminates buffer) as Hfuel.
    pose proof (ReadUtfLetters_not_Throws buffer) as Hthrows.
    destruct (encoding.ReadUtfLetters buffer) as [[[ls infos] |] | | |];
      [right; right; eauto | now left | right; now left
      | congruence | congruence]. }
  split; [exact Hind | split; [| exact Hcases]].
  split.
  - intros (letters & letterInfos & Hacc) s Hstart. split.
    + intros Hbroken.
      assert (Hrej : encoding.ReadUtfLetters buffer = Returns None)
        by (apply ReadUtfLetters_rejects_iff; eauto).
      congruence.
    + intros b Hb Hfall.
      assert (Hi : encoding.ReadUtfLetters buffer = Indeterminate)
        by (apply Hind; eauto).
      congruence.
  - intros Hgood.
    destruct Hcases as [Hrej | [Hi | Hacc]]; [| | exact Hacc]; exfalso.
    + apply ReadUtfLetters_rejects_iff in Hrej as (s & Hstart & Hbroken).
      now apply (proj1 (Hgood s Hstart)).
    + apply Hind in Hi as (s & b & Hstart & Hb & Hfall).
      now apply (proj2 (Hgood s Hstart) b Hb).
Qed.

Lemma ReadUtfLetters_outcomes_witness :
  encoding.ReadUtfLetters [x41; xbc] = Indeterminate.
Proof.
  apply (proj2 (proj1 (ReadUtfLetters_outcomes [x41; xbc]))).
  exists 1%nat, xbc. split; [| split; [reflexivity |]].
  - apply (reaches_step [x41; xbc] 0 1 1 65);
      [cbn; lia | reflexivity | constructor].
  - repeat split.
Defined.

(** * Beyond [2^31] letters *)

Lemma Forall_repeat {A : Type} (P : A -> Prop) (x : A) (n : nat) :
  P x -> Forall P (repeat x n).
Proof.
  intros Hx. apply Forall_forall. intros y Hy.
  now rewrite (repeat_spec n x y Hy).
Qed.

(** C2. The input of [2^31] spaces followed by the letter a. The decoder
    accepts it and folding changes nothing. The word starts at letter
    [2^31]; kept in the [int firstLetter], that index is [-2^31], and
    handed back to [registerWord] as a [size_t] it is [2^64 - 2^31],
    with [2^32 + 1] for the number of letters. This is the only record,
    sorted or not, and the letter at which it starts does not exist:
    the output loop indexes [lettersInfos] outside the vector instead
    of writing the byte of the word. *)
Theorem gather_words_start_wraps (n : nat) :
  Z.of_nat n = 2 ^ 31 ->
  let buffer := repeat x20 n ++ [x61] in
  let letters := repeat 32 n ++ [97] in
  let lettersInfos :=
    map (fun k => encoding.mkLetterInfo k 1) (seq 0 (S n)) in
  encoding.ReadUtfLetters buffer = Returns (Some (letters, lettersInfos)) /\
  fold_letters letters = letters /\
  segments letters = [(n, 1%nat)] /\
  static_cast_int n = - 2 ^ 31 /\
  gather_words letters
  = [ mkWordInfo (Z.to_nat (2 ^ 64 - 2 ^ 31)) (Z.to_nat (2 ^ 32 + 1)) 1 ] /\
  sort_words letters (gather_words letters)
  = [ mkWordInfo (Z.to_nat (2 ^ 64 - 2 ^ 31)) (Z.to_nat (2 ^ 32 + 1)) 1 ] /\
  (length lettersInfos < Z.to_nat (2 ^ 64 - 2 ^ 31))%nat.
Proof.
  intros Hn buffer letters lettersInfos.
  assert (Hcast : static_cast_int n = - 2 ^ 31).
  { unfold static_cast_int. rewrite Hn. reflexivity. }
  assert (Hbuffer : length buffer = S n).
  { unfold buffer. rewrite length_app, repeat_length. cbn [length]. lia. }
  assert (Hletters : length letters = S n).
  { unfold letters. rewrite length_app, repeat_length. cbn [length]. lia. }
  assert (Hgather :
            gather_words letters
            = [ mkWordInfo (Z.to_nat (2 ^ 64 - 2 ^ 31))
                  (Z.to_nat (2 ^ 32 + 1)) 1 ]).
  { unfold gather_words. fold letters. unfold letters at 2.
    rewrite gather_loop_spaces.
    cbn [gather_loop Nat.add]. change (IsAlpha 97) with true.
    change (-1 =? -1) with true. cbv iota.
    rewrite Hcast. change (negb (- 2 ^ 31 =? -1)) with true. cbv iota.
    cbn [registerWord]. rewrite Hletters.
    unfold size_t_of_int, size_t_sub.
    replace (Z.of_nat (S n) - - 2 ^ 31) with (2 ^ 32 + 1) by lia.
    reflexivity. }
  split; [| split; [| split; [| split; [exact Hcast |
    split; [exact Hgather | split]]]]].
  - unfold encoding.ReadUtfLetters.
    rewrite ReadUtfLetters_loop_ascii; [| | lia].
    + rewrite Nat.sub_0_r, Hbuffer. cbn [skipn app].
      unfold buffer, letters. rewrite map_app, map_repeat. reflexivity.
    + unfold buffer. apply Forall_app. split.
      * apply Forall_repeat. reflexivity.
      * constructor; [reflexivity | constructor].
  - unfold fold_letters, letters. rewrite map_app, map_repeat. reflexivity.
  - unfold segments, letters.
    assert (Hseg : forall k i,
               segments_loop (repeat 32 k ++ [97]) i None
               = [((i + k)%nat, 1%nat)]).
    { induction k as [| k IH]; intros i; cbn [repeat app segments_loop].
      - change (IsAlpha 97) with true. cbv iota.
        do 2 f_equal; lia.
      - change (IsAlpha 32) with false. cbv iota.
        rewrite IH. do 2 f_equal. lia. }
    apply Hseg.
  - rewrite Hgather. reflexivity.
  - unfold lettersInfos. rewrite length_map, length_seq. lia.
Qed.

Lemma gather_words_start_wraps_witness :
  gather_words (repeat 32 (Z.to_nat (2 ^ 31)) ++ [97])
  = [ mkWordInfo (Z.to_nat (2 ^ 64 - 2 ^ 31)) (Z.to_nat (2 ^ 32 + 1)) 1 ].
Proof.
  exact (proj1 (proj2 (proj2 (proj2 (proj2
           (gather_words_start_wraps (Z.to_nat (2 ^ 31))
              (Z2Nat.id (2 ^ 31) ltac:(discriminate)))))))).
Defined.

(** * The exit status on memory that holds values *)

Lemma holding_ReadUtfLetter_agrees (count0 : nat) (buffer : list byte)
    (i : nat) (letter : option Z) r :
  (i < length buffer)%nat ->
  encoding.ReadUtfLetter buffer i None = Returns r ->
  holding.ReadUtfLetter count0 buffer i letter = Returns r.
Proof.
  intros Hi Hrun.
  destruct (nth_error buffer i) as [b |] eqn:Hb;
    [| apply nth_error_None in Hb; lia].
  destruct (InterpretFirstUtfByte_cells b) as [(c & l & _ & Hfirst) | Hfall].
  - rewrite (holding_ReadUtfLetter_assigned buffer i b Hb); [exact Hrun |].
    intros Hfall. pose proof (Hfirst None None) as Hf.
    rewrite (scan_falls_through_first b Hfall None None) in Hf.
    discriminate Hf.
  - rewrite (ReadUtfLetter_falls_through buffer i b Hb Hfall) in Hrun.
    discriminate Hrun.
Qed.

Lemma holding_ReadUtfLetters_loop_fails_at (held : holding.memory)
    (buffer : list byte) (i s : nat) :
  reaches buffer i s ->
  forall fuel letters letterInfos st,
    (s < length buffer)%nat ->
    holding.ReadUtfLetter (fst (held s)) buffer s (Some (snd (held s)))
    = Returns (false, st) ->
    (length buffer - i <= fuel)%nat ->
    holding.ReadUtfLetters_loop held fuel buffer i letters letterInfos
    = Returns None.
Proof.
  induction 1 as [i | i j s l Hi Hrun Hreach IH];
    intros fuel letters letterInfos st Hs Hfail Hfuel;
    (destruct fuel as [| fuel]; [lia |]);
    rewrite holding_ReadUtfLetters_loop_S;
    (destruct (Nat.ltb_spec i (length buffer)); [| lia]).
  - rewrite Hfail. reflexivity.
  - rewrite (holding_ReadUtfLetter_agrees _ buffer i _ _ Hi Hrun).
    apply ReadUtfLetter_true in Hrun as (_ & Hj & _); [| exact Hi].
    apply (IH fuel _ _ st Hs Hfail). lia.
Qed.

(** X21. The decoder on memory that holds values. Whatever the memory
    of the uninitialised count and letter holds, [ReadUtfLetters]
    returns, and where the embedding that stops at the first read of an
    unassigned cell gives a result, it returns that result. It rejects
    every buffer in which a letter it comes to lacks a continuation
    byte; it rejects no buffer unless a letter it comes to lacks one or
    starts with a byte on which [InterpretFirstUtfByte] assigns nothing;
    and at such a byte it rejects the buffer when the count held is 2 or
    more and the bytes that follow are not that many continuation bytes
    less one. *)
Theorem holding_ReadUtfLetters_spec (held : holding.memory)
    (buffer : list byte) :
  (exists r, holding.ReadUtfLetters held buffer = Returns r) /\
  (forall r, encoding.ReadUtfLetters buffer = Returns r ->
             holding.ReadUtfLetters held buffer = Returns r) /\
  ((exists s, letter_start buffer s /\ sequence_broken_at buffer s) ->
   holding.ReadUtfLetters held buffer = Returns None) /\
  (holding.ReadUtfLetters held buffer = Returns None ->
   exists s, letter_start buffer s /\
     (sequence_broken_at buffer s \/
      exists b, nth_error buffer s = Some b /\ scan_falls_through b)) /\
  (forall s b,
     letter_start buffer s ->
     nth_error buffer s = Some b ->
     scan_falls_through b ->
     (2 <= fst (held s))%nat ->
     continuation_ok buffer s (fst (held s) - 1) = false ->
     holding.ReadUtfLetters held buffer = Returns None).
Proof.
  split; [apply holding_ReadUtfLetters_returns |].
  split; [apply holding_ReadUtfLetters_agrees |].
  split; [| split].
  - intros Hbroken. apply holding_ReadUtfLetters_agrees.
    now apply ReadUtfLetters_rejects_iff.
  - intros Hrej.
    pose proof (ReadUtfLetters_terminates buffer) as Hfuel.
    pose proof (ReadUtfLetters_not_Throws buffer) as Hthrows.
    destruct (encoding.ReadUtfLetters buffer) as [[r |] | | |] eqn:Hdec;
      try congruence.
    + rewrite (holding_ReadUtfLetters_agrees held buffer _ Hdec) in Hrej.
      discriminate Hrej.
    + apply ReadUtfLetters_rejects_iff in Hdec as (s & Hstart & Hbroken).
      exists s. auto.
    + apply ReadUtfLetters_loop_indeterminate in Hdec
        as (s & b & Hstart & Hb & Hfall).
      exists s. split; [exact Hstart | right; eauto].
  - intros s b Hstart Hb Hfall Hcount Hok.
    assert (Hs : (s < length buffer)%nat)
      by (apply nth_error_Some; congruence).
    destruct (ReadUtfLetter_loop_held buffer (fst (held s)) s (snd (held s)))
      as (_ & Hlarge).
    specialize (Hlarge Hcount). rewrite Hok in Hlarge.
    destruct Hlarge as (st & Hrun).
    apply (holding_ReadUtfLetters_loop_fails_at held buffer 0 s Hstart
             _ _ _ st Hs); [| lia].
    now rewrite (holding_ReadUtfLetter_falls_through buffer s b Hb Hfall).
Qed.

Lemma holding_ReadUtfLetters_spec_witness :
  holding.ReadUtfLetters (fun _ => (3%nat, 0)) [x41; xff] = Returns None.
Proof.
  apply (proj2 (proj2 (proj2 (proj2
           (holding_ReadUtfLetters_spec (fun _ => (3%nat, 0)) [x41; xff]))))
           1%nat xff).
  - apply (reaches_step [x41; xff] 0 1 1 65);
      [cbn; lia | reflexivity | constructor].
  - reflexivity.
  - repeat split.
  - cbn. lia.
  - reflexivity.
Defined.


